(** * BurnEnv: the ephemeral store, the admission policy and the envelope codec

    A shallow embedding of
    - [internal/server/store.go]   (the in-memory store with TTL and max-views),
    - [internal/server/handlers.go] and the validation file next to it
      (the create handler and [validateRequest]),
    - [internal/crypto]            ([Encrypt], [Decrypt], [SerializePayload],
      [DeserializePayload]),
    together with the properties the specification states about them. *)

From Stdlib Require Import ZArith NArith Lia Bool Ascii String.
From stdpp Require Import gmap strings list fin_maps pretty.

Open Scope Z_scope.

(* ===================================================================== *)
(** ** Go machine integers *)
(* ===================================================================== *)

Module GoInt.

(** Go's [int] and [int64] on the 64-bit targets the server is built for:
    two's complement, arithmetic wraps around silently. *)
Definition min_int : Z := - 2 ^ 63.
Definition max_int : Z := 2 ^ 63 - 1.

Definition in_range (z : Z) : Prop := min_int <= z <= max_int.

(** The value a 64-bit signed register holds after computing [z]. *)
Definition wrap (z : Z) : Z := (z + 2 ^ 63) mod 2 ^ 64 - 2 ^ 63.

(** [x - y] on [int] / [int64]. *)
Definition sub (x y : Z) : Z := wrap (x - y).

(** [x--] on [int]. *)
Definition dec (x : Z) : Z := sub x 1.

End GoInt.

(* ===================================================================== *)
(** ** Time *)
(* ===================================================================== *)

(** A [time.Time] instant, as the number of nanoseconds since the Unix epoch.
    [Expiry] is built with [time.Unix] and carries no monotonic reading, so
    [After] compares wall-clock instants. *)
Definition Time : Type := Z.

(** [t.After(u)]: reports whether [t] is strictly after [u]. *)
Definition After (t u : Time) : bool := u <? t.

Definition nanos_per_second : Z := 1000000000.

(** [time.Unix(sec, 0)]. *)
Definition time_Unix (sec : Z) : Time := sec * nanos_per_second.

(** [t.Unix()]: whole seconds since the epoch. *)
Definition Unix (t : Time) : Z := t / nanos_per_second.

(* ===================================================================== *)
(** ** internal/server/store.go *)
(* ===================================================================== *)

(** A Go [[]byte]: [None] is the nil slice, [Some l] a non-nil slice holding
    the bytes [l] (possibly none). *)
Definition bytes : Type := option (list Byte.byte).

(** [type NotFoundReason int] with its three [iota] constants. *)
Inductive NotFoundReason : Type :=
  | ReasonNotFound
  | ReasonExpired
  | ReasonMaxViews.


Record storedSecret : Type := mkSecret {
  Blob : bytes;
  ViewsRemaining : Z;
  Expiry : Time;
  MaxViews : Z
}.

(** The [secrets] field of [Store]: [map[string]*storedSecret].  Every
    pointer in the map is created by [Put] and never leaves the store, so an
    update through the pointer is an update of the map entry.  The map of
    pointers, the structs they point to and the lock are modelled further
    down ([World]); [runs_are_serial] shows that the calls of concurrent
    goroutines act on this map one after the other. *)
Abbreviation Store := (gmap string storedSecret).

(** [NewStore]: the empty map (the sweep goroutine is modelled by the
    [OpSweep] operation below). *)
Definition NewStore : Store := ∅.

Definition Put (id : string) (blob : bytes) (maxViews : Z) (expiry : Time)
    (s : Store) : Store :=
  <[id := {| Blob := blob; ViewsRemaining := maxViews;
             Expiry := expiry; MaxViews := maxViews |}]> s.

(** [sec.ViewsRemaining--]. *)
Definition decrement (sec : storedSecret) : storedSecret :=
  {| Blob := Blob sec; ViewsRemaining := GoInt.dec (ViewsRemaining sec);
     Expiry := Expiry sec; MaxViews := MaxViews sec |}.

(** [GetWithReason], run with the clock reading [now]; the first component is
    the store the call leaves behind. *)
Definition GetWithReason (now : Time) (id : string) (s : Store)
    : Store * (bytes * NotFoundReason) :=
  match s !! id with
  | None => (s, (None, ReasonNotFound))
  | Some sec =>
      if After now (Expiry sec) then (delete id s, (None, ReasonExpired))
      else if ViewsRemaining sec <=? 0 then
        (delete id s, (None, ReasonMaxViews))
      else
        let blob := Blob sec in
        let sec' := decrement sec in
        let s' := <[id := sec']> s in
        if ViewsRemaining sec' <=? 0
        then (delete id s', (blob, ReasonNotFound))
        else (s', (blob, ReasonNotFound))
  end.



Definition Delete (id : string) (s : Store) : Store * bool :=
  let ok := match s !! id with Some _ => true | None => false end in
  (delete id s, ok).

(** [expireOld]: the loop deletes every entry the clock reading [now] is
    after, and keeps the others. *)
Definition expireOld (now : Time) (s : Store) : Store :=
  filter (fun kv : string * storedSecret => After now (Expiry kv.2) = false) s.

(** *** Calls on the store and their traces

    Every method takes [s.mu] on entry and releases it on return.  A call is
    run with the clock reading it takes while it holds the lock; [OpSweep] is
    one round of [expireOld], as [cleanupLoop] runs it on every tick. *)
Inductive Op : Type :=
  | OpPut (id : string) (blob : bytes) (maxViews : Z) (expiry : Time)
  | OpGet (id : string)
  | OpDelete (id : string)
  | OpSweep.

(** What a call returns. *)
Inductive Ret : Type :=
  | RetPut
  | RetGet (blob : bytes) (reason : NotFoundReason)
  | RetDelete (ok : bool)
  | RetSweep.

(** A call with what it returns. *)
Definition call (now : Time) (o : Op) (s : Store) : Store * Ret :=
  match o with
  | OpPut id blob maxViews expiry => (Put id blob maxViews expiry s, RetPut)
  | OpGet id =>
      let '(s', (blob, reason)) := GetWithReason now id s in
      (s', RetGet blob reason)
  | OpDelete id => let '(s', ok) := Delete id s in (s', RetDelete ok)
  | OpSweep => (expireOld now s, RetSweep)
  end.

(** The store a call leaves behind. *)
Definition exec (now : Time) (o : Op) (s : Store) : Store :=
  match o with
  | OpPut id blob maxViews expiry => Put id blob maxViews expiry s
  | OpGet id => (GetWithReason now id s).1
  | OpDelete id => (Delete id s).1
  | OpSweep => expireOld now s
  end.

(** [Put] is called with a positive [int]. *)
Definition positive_put (o : Op) : Prop :=
  match o with
  | OpPut _ _ maxViews _ => 1 <= maxViews <= GoInt.max_int
  | _ => True
  end.

(** The stores a fresh store can get to. *)
Inductive reachable : Store -> Prop :=
  | reachable_new : reachable NewStore
  | reachable_exec now o s :
      reachable s -> positive_put o -> reachable (exec now o s).

Definition is_put_on (id : string) (o : Op) : Prop :=
  match o with
  | OpPut id' _ _ _ => id' = id
  | _ => False
  end.

(** An entry that the code no longer serves at [now]: no view left, or the
    clock is after its expiry ([time.Now().After(sec.Expiry)], which is
    strict: [now > expiry]). *)
Definition spent (now : Time) (sec : storedSecret) : Prop :=
  ViewsRemaining sec = 0 \/ Expiry sec < now.

(** The same entry as the specification words it: [views_remaining == 0] or
    [now >= expiry]. *)
Definition spec_spent (now : Time) (sec : storedSecret) : Prop :=
  ViewsRemaining sec = 0 \/ Expiry sec <= now.

(** *** The algorithm of the specification, step by step as it is worded *)

Inductive SpecReason : Type :=
  | NOT_FOUND
  | EXPIRED
  | EXHAUSTED
  | SUCCESS.

(** Steps 1 to 4 of the specification's [GetWithReason]; [None] is "absent". *)
Definition spec_GetWithReason (now : Time) (id : string) (s : Store)
    : Store * (bytes * SpecReason) :=
  match s !! id with
  | None => (s, (None, NOT_FOUND))
  | Some sec =>
      if Expiry sec <=? now then (delete id s, (None, EXPIRED))
      else if ViewsRemaining sec <=? 0 then (delete id s, (None, EXHAUSTED))
      else
        let v := ViewsRemaining sec - 1 in
        let sec' := {| Blob := Blob sec; ViewsRemaining := v;
                       Expiry := Expiry sec; MaxViews := MaxViews sec |} in
        if v =? 0 then (delete id s, (Blob sec, SUCCESS))
        else (<[id := sec']> s, (Blob sec, SUCCESS))
  end.

(** How a caller reads the pair [GetWithReason] returns (the GET handler):
    a non-nil blob is a success, otherwise the reason says why not. *)
Definition outcome (r : bytes * NotFoundReason) : bytes * SpecReason :=
  match r with
  | (Some b, _) => (Some b, SUCCESS)
  | (None, ReasonNotFound) => (None, NOT_FOUND)
  | (None, ReasonExpired) => (None, EXPIRED)
  | (None, ReasonMaxViews) => (None, EXHAUSTED)
  end.

(** The entry [sec] with its counter set to [v]. *)
Definition with_views (sec : storedSecret) (v : Z) : storedSecret :=
  {| Blob := Blob sec; ViewsRemaining := v;
     Expiry := Expiry sec; MaxViews := MaxViews sec |}.

(** Every stored counter is a positive [int]. *)
Definition views_positive (s : Store) : Prop :=
  map_Forall (fun (_ : string) sec =>
                1 <= ViewsRemaining sec <= GoInt.max_int) s.

(** A trace: the operations applied to the store, in the order in which they
    take the lock, each with the clock reading it takes. *)
Fixpoint run (tr : list (Time * Op)) (s : Store) : Store :=
  match tr with
  | [] => s
  | (now, o) :: tr' => run tr' (exec now o s)
  end.

(* ===================================================================== *)
(** ** internal/server: the create request and its validation *)
(* ===================================================================== *)

Module request.

(** The anonymous [KDF] struct of [dropCreateRequest]. *)
Record kdf : Type := {
  Algorithm : string;
  Time : Z;      (* uint32 *)
  Memory : Z;    (* uint32 *)
  Threads : Z    (* uint8 *)
}.

Record dropCreateRequest : Type := {
  Ciphertext : string;
  Salt : string;
  IV : string;
  KDF : kdf;
  Expiry : Z;    (* int64 *)
  MaxViews : Z   (* int *)
}.

End request.

Abbreviation dropCreateRequest := request.dropCreateRequest.

Definition StatusBadRequest : Z := 400.
Definition StatusRequestEntityTooLarge : Z := 413.
Definition StatusCreated : Z := 201.

Definition MaxRequestBodyBytes : Z := 2 * 1024 * 1024.
Definition MaxCiphertextLen : Z := 2 * 1024 * 1024.
Definition MaxSaltLen : Z := 64.
Definition MaxIVLen : Z := 64.
Definition MinExpirySeconds : Z := 60.
Definition MaxExpirySeconds : Z := 24 * 60 * 60.
Definition MinMaxViews : Z := 1.
Definition MaxMaxViews : Z := 100.

(** [len(s)] of a Go string: its number of bytes. *)
Definition len (s : string) : Z := Z.of_nat (String.length s).

(** [fmt.Sprintf] with one [%d] verb: [pre], the decimal numeral, [post]. *)
Definition Sprintf_d (pre : string) (n : Z) (post : string) : string :=
  pre +:+ pretty n +:+ post.

(** [validateRequest], run with the clock reading [now].  The only [%.1f]
    message formats the constant [float64(MaxCiphertextLen)/(1024*1024)],
    which is 2 and prints as [2.0]. *)
Definition validateRequest (now : Time) (req : dropCreateRequest)
    : Z * string :=
  if String.eqb (request.Ciphertext req) "" then
    (StatusBadRequest, "missing required field: ciphertext")
  else if String.eqb (request.Salt req) "" then
    (StatusBadRequest, "missing required field: salt")
  else if String.eqb (request.IV req) "" then
    (StatusBadRequest, "missing required field: iv")
  else if MaxCiphertextLen <? len (request.Ciphertext req) then
    (StatusRequestEntityTooLarge,
     "ciphertext exceeds maximum size (limit: 2.0 MB)")
  else if MaxSaltLen <? len (request.Salt req) then
    (StatusBadRequest,
     Sprintf_d "salt exceeds maximum length (" MaxSaltLen " bytes)")
  else if MaxIVLen <? len (request.IV req) then
    (StatusBadRequest,
     Sprintf_d "iv exceeds maximum length (" MaxIVLen " bytes)")
  else
    let now := Unix now in
    if request.Expiry req <=? now then
      (StatusBadRequest, "expiry must be in the future")
    else
      let duration := GoInt.sub (request.Expiry req) now in
      if duration <? MinExpirySeconds then
        (StatusBadRequest,
         Sprintf_d "expiry must be at least " MinExpirySeconds
                   " seconds from now")
      else if MaxExpirySeconds <? duration then
        (StatusBadRequest,
         Sprintf_d "expiry cannot exceed " (MaxExpirySeconds / 3600)
                   " hours from now")
      else if request.MaxViews req <? MinMaxViews then
        (StatusBadRequest,
         Sprintf_d "max_views must be at least " MinMaxViews "")
      else if MaxMaxViews <? request.MaxViews req then
        (StatusBadRequest,
         Sprintf_d "max_views cannot exceed " MaxMaxViews "")
      else (0, "").

(** What the create handler writes back. *)
Inductive Response : Type :=
  | writeError (status : Z) (msg : string)
  | writeCreated (status : Z) (id link : string).

(** The [POST /v1/drop] handler from the point where the body has been
    decoded into [raw] and [req]: [id] is what [randomID] draws. *)
Definition postDrop (baseURL : string) (now : Time) (id : string)
    (raw : list Byte.byte) (req : dropCreateRequest) (s : Store)
    : Store * Response :=
  let '(status, msg) := validateRequest now req in
  if negb (status =? 0) then (s, writeError status msg)
  else
    let expiry := time_Unix (request.Expiry req) in
    let s' := Put id (Some raw) (request.MaxViews req) expiry s in
    let link := baseURL +:+ "/v1/drop/" +:+ id in
    (s', writeCreated StatusCreated id link).

(** *** The admission policy as the specification words it *)

(** The rules, in the order the specification lists them. *)
Inductive Rule : Type :=
  | CiphertextRequired
  | SaltRequired
  | IVRequired
  | CiphertextSize
  | SaltSize
  | IVSize
  | ExpiryInFuture
  | TTLFloor
  | TTLCeiling
  | MaxViewsFloor
  | MaxViewsCeiling.

(** [violates now req r]: the request breaks rule [r] at clock reading [now]
    (the TTL is the expiry minus the current Unix second). *)
Definition violates (now : Time) (req : dropCreateRequest) (r : Rule) : Prop :=
  match r with
  | CiphertextRequired => request.Ciphertext req = ""
  | SaltRequired => request.Salt req = ""
  | IVRequired => request.IV req = ""
  | CiphertextSize => len (request.Ciphertext req) > MaxCiphertextLen
  | SaltSize => len (request.Salt req) > MaxSaltLen
  | IVSize => len (request.IV req) > MaxIVLen
  | ExpiryInFuture => request.Expiry req <= Unix now
  | TTLFloor => request.Expiry req - Unix now < 60
  | TTLCeiling => request.Expiry req - Unix now > 24 * 60 * 60
  | MaxViewsFloor => request.MaxViews req < 1
  | MaxViewsCeiling => request.MaxViews req > 100
  end.

(** The (code, message) pair of each rule. *)
Definition rule_response (r : Rule) : Z * string :=
  match r with
  | CiphertextRequired => (400, "missing required field: ciphertext")
  | SaltRequired => (400, "missing required field: salt")
  | IVRequired => (400, "missing required field: iv")
  | CiphertextSize => (413, "ciphertext exceeds maximum size (limit: 2.0 MB)")
  | SaltSize => (400, "salt exceeds maximum length (64 bytes)")
  | IVSize => (400, "iv exceeds maximum length (64 bytes)")
  | ExpiryInFuture => (400, "expiry must be in the future")
  | TTLFloor => (400, "expiry must be at least 60 seconds from now")
  | TTLCeiling => (400, "expiry cannot exceed 24 hours from now")
  | MaxViewsFloor => (400, "max_views must be at least 1")
  | MaxViewsCeiling => (400, "max_views cannot exceed 100")
  end.

(** A request within every bound. *)
Definition admissible (now : Time) (req : dropCreateRequest) : Prop :=
  forall r, ~ violates now req r.

(* ===================================================================== *)
(** ** internal/crypto *)
(* ===================================================================== *)

(** A Go result [(value, error)]: the value, or the message of the error. *)
Inductive result (A : Type) : Type :=
  | Ok (a : A)
  | Err (e : string).

Arguments Ok {A} a.
Arguments Err {A} e.

(** [errors.New(msg)]. *)
Definition errors_New {A : Type} (msg : string) : result A := Err msg.

(** [fmt.Errorf(prefix + ": %w", err)]. *)
Definition Errorf_w {A : Type} (prefix : string) (err : string) : result A :=
  Err (prefix +:+ ": " +:+ err).

Module crypto.

Definition argon2Time : Z := 3.
Definition argon2Memory : Z := 64 * 1024.
Definition argon2Threads : Z := 4.
Definition argon2KeyLen : Z := 32.
Definition saltSize : nat := 16.
Definition gcmNonceSize : nat := 12.

Record KDFParams : Type := {
  Algorithm : string;
  Time : Z;      (* uint32 *)
  Memory : Z;    (* uint32 *)
  Threads : Z    (* uint8 *)
}.

Record EncryptedPayload : Type := {
  Ciphertext : string;
  Salt : string;
  IV : string;
  KDF : KDFParams;
  Expiry : Z;    (* int64 *)
  MaxViews : Z   (* int *)
}.

(** The values of the Go types of the numeric fields. *)
Definition well_typed (p : EncryptedPayload) : Prop :=
  0 <= Time (KDF p) < 2 ^ 32 /\ 0 <= Memory (KDF p) < 2 ^ 32 /\
  0 <= Threads (KDF p) < 2 ^ 8 /\
  GoInt.in_range (Expiry p) /\ GoInt.in_range (MaxViews p).

(** *** The libraries the package calls

    [crypto/rand], [io], [golang.org/x/crypto/argon2], [crypto/aes],
    [crypto/cipher] and [encoding/base64] are not part of the repository:
    they are taken as an interface. *)
Class Primitives : Type := {
  (** the state of [rand.Reader] *)
  Reader : Type;
  (** [io.ReadFull(rand.Reader, buf)] with [len(buf) = n] *)
  io_ReadFull : Reader -> nat -> result (list Byte.byte) * Reader;
  (** [argon2.IDKey(password, salt, time, memory, threads, keyLen)] *)
  argon2_IDKey :
    list Byte.byte -> list Byte.byte -> Z -> Z -> Z -> Z -> list Byte.byte;
  (** [cipher.Block] and [aes.NewCipher(key)] *)
  Block : Type;
  aes_NewCipher : list Byte.byte -> result Block;
  (** [cipher.AEAD] and [cipher.NewGCM(block)] *)
  AEAD : Type;
  cipher_NewGCM : Block -> result AEAD;
  (** [gcm.Seal(nil, nonce, plaintext, nil)] *)
  gcm_Seal : AEAD -> list Byte.byte -> list Byte.byte -> list Byte.byte;
  (** [gcm.Open(nil, nonce, ciphertext, nil)] *)
  gcm_Open : AEAD -> list Byte.byte -> list Byte.byte -> result (list Byte.byte);
  (** [base64.StdEncoding.EncodeToString] and [DecodeString] *)
  base64_EncodeToString : list Byte.byte -> string;
  base64_DecodeString : string -> result (list Byte.byte)
}.

(** What the documentation of these libraries promises, as far as the
    package relies on it. *)
Class PrimitiveLaws (P : Primitives) : Prop := {
  (** [io.ReadFull] returns no error only when it filled the buffer *)
  ReadFull_length : forall r n b r',
    io_ReadFull r n = (Ok b, r') -> length b = n;
  (** [IDKey] returns [keyLen] bytes *)
  IDKey_length : forall password salt time memory threads keyLen,
    0 <= keyLen ->
    length (argon2_IDKey password salt time memory threads keyLen)
      = Z.to_nat keyLen;
  (** [aes.NewCipher] accepts a 32-byte key (AES-256) *)
  NewCipher_256 : forall key,
    length key = 32%nat -> exists block, aes_NewCipher key = Ok block;
  (** [cipher.NewGCM] accepts every AES block cipher *)
  NewGCM_ok : forall block, exists aead, cipher_NewGCM block = Ok aead;
  (** [Open] undoes [Seal] under the same key and a nonce of the standard
      size *)
  Open_Seal : forall aead nonce plaintext,
    length nonce = gcmNonceSize ->
    gcm_Open aead nonce (gcm_Seal aead nonce plaintext) = Ok plaintext;
  (** [DecodeString] undoes [EncodeToString] *)
  base64_Decode_Encode : forall b,
    base64_DecodeString (base64_EncodeToString b) = Ok b
}.

Section Codec.

Context {P : Primitives}.

(** [Encrypt]; the second component is the state [rand.Reader] is left in.
    [plaintext] is a [[]byte] of which only the contents matter ([len] does
    not tell nil from empty). *)
Definition Encrypt (plaintext : list Byte.byte) (password : string)
    (rng : Reader) : result EncryptedPayload * Reader :=
  if (length plaintext =? 0)%nat then
    (errors_New "plaintext cannot be empty", rng)
  else if String.eqb password "" then
    (errors_New "password cannot be empty", rng)
  else
    match io_ReadFull rng saltSize with
    | (Err err, rng) => (Errorf_w "failed to generate salt" err, rng)
    | (Ok salt, rng) =>
    match io_ReadFull rng gcmNonceSize with
    | (Err err, rng) => (Errorf_w "failed to generate IV" err, rng)
    | (Ok nonce, rng) =>
    let key := argon2_IDKey (String.list_byte_of_string password) salt
                 argon2Time argon2Memory argon2Threads argon2KeyLen in
    match aes_NewCipher key with
    | Err err => (Errorf_w "aes new cipher" err, rng)
    | Ok block =>
    match cipher_NewGCM block with
    | Err err => (Errorf_w "gcm" err, rng)
    | Ok gcm =>
    let ciphertext := gcm_Seal gcm nonce plaintext in
    (Ok {| Ciphertext := base64_EncodeToString ciphertext;
           Salt := base64_EncodeToString salt;
           IV := base64_EncodeToString nonce;
           KDF := {| Algorithm := "argon2id"; Time := argon2Time;
                     Memory := argon2Memory; Threads := argon2Threads |};
           Expiry := 0;
           MaxViews := 0 |}, rng)
    end end end end.

(** [Decrypt]; [payload] is a pointer, [None] is nil. *)
Definition Decrypt (payload : option EncryptedPayload) (password : string)
    : result (list Byte.byte) :=
  match payload with
  | None => errors_New "payload cannot be nil"
  | Some payload =>
  if String.eqb password "" then errors_New "password cannot be empty"
  else
    match base64_DecodeString (Salt payload) with
    | Err err => Errorf_w "invalid salt" err
    | Ok salt =>
    if negb (length salt =? saltSize)%nat then
      errors_New "invalid salt length"
    else
    match base64_DecodeString (IV payload) with
    | Err err => Errorf_w "invalid IV" err
    | Ok nonce =>
    if negb (length nonce =? gcmNonceSize)%nat then
      errors_New "invalid IV length"
    else
    match base64_DecodeString (Ciphertext payload) with
    | Err err => Errorf_w "invalid ciphertext" err
    | Ok ciphertext =>
    let key := argon2_IDKey (String.list_byte_of_string password) salt
                 (Time (KDF payload)) (Memory (KDF payload))
                 (Threads (KDF payload)) argon2KeyLen in
    match aes_NewCipher key with
    | Err err => Errorf_w "aes new cipher" err
    | Ok block =>
    match cipher_NewGCM block with
    | Err err => Errorf_w "gcm" err
    | Ok gcm =>
    match gcm_Open gcm nonce ciphertext with
    | Err _ =>
        errors_New "decryption failed: wrong password or corrupted data"
    | Ok plaintext => Ok plaintext
    end end end end end end
  end.

End Codec.

(** *** Serialization

    [encoding/json] is not part of the repository either.  What the package
    relies on is what its documentation says of a struct of strings and
    integers: [Marshal] cannot fail, integers are written exactly, and a
    string is written "coerced to valid UTF-8, replacing invalid bytes with
    the Unicode replacement rune"; [Unmarshal] reads back what was written. *)

Definition byte_in (lo hi : N) (c : ascii) : bool :=
  ((lo <=? N_of_ascii c) && (N_of_ascii c <=? hi))%N.

(** [utf8.DecodeRuneInString] as far as the encoder looks at it: the number
    of bytes of the encoding [s] starts with, or [None] when it returns
    [(RuneError, 1)] (a byte that starts no well-formed encoding). *)
Definition rune_size (s : string) : option nat :=
  match s with
  | EmptyString => None
  | String c0 s1 =>
      let b0 := N_of_ascii c0 in
      if (b0 <? 0x80)%N then Some 1%nat
      else if byte_in 0xC2 0xDF c0 then
        match s1 with
        | String c1 _ => if byte_in 0x80 0xBF c1 then Some 2%nat else None
        | _ => None
        end
      else if byte_in 0xE0 0xEF c0 then
        let lo := if (b0 =? 0xE0)%N then 0xA0%N else 0x80%N in
        let hi := if (b0 =? 0xED)%N then 0x9F%N else 0xBF%N in
        match s1 with
        | String c1 (String c2 _) =>
            if byte_in lo hi c1 && byte_in 0x80 0xBF c2 then Some 3%nat
            else None
        | _ => None
        end
      else if byte_in 0xF0 0xF4 c0 then
        let lo := if (b0 =? 0xF0)%N then 0x90%N else 0x80%N in
        let hi := if (b0 =? 0xF4)%N then 0x8F%N else 0xBF%N in
        match s1 with
        | String c1 (String c2 (String c3 _)) =>
            if byte_in lo hi c1 && byte_in 0x80 0xBF c2 && byte_in 0x80 0xBF c3
            then Some 4%nat else None
        | _ => None
        end
      else None
  end.

(** U+FFFD in UTF-8: EF BF BD. *)
Definition replacement_rune : string :=
  String (ascii_of_N 0xEF) (String (ascii_of_N 0xBF)
    (String (ascii_of_N 0xBD) EmptyString)).

(** The encoder's loop over a string, seen through the decoder: a well-formed
    encoding comes back as it is, every other byte as U+FFFD.  [pending] is
    the number of continuation bytes of the current encoding still to copy. *)
Fixpoint coerce_from (pending : nat) (s : string) : string :=
  match s with
  | EmptyString => EmptyString
  | String c rest =>
      match pending with
      | S k => String c (coerce_from k rest)
      | O =>
          match rune_size s with
          | Some n => String c (coerce_from (Nat.pred n) rest)
          | None => replacement_rune +:+ coerce_from 0 rest
          end
      end
  end.

(** The string a JSON string decodes to after [s] was encoded. *)
Definition coerced (s : string) : string := coerce_from 0 s.

(** [utf8.ValidString]. *)
Fixpoint valid_from (pending : nat) (s : string) : bool :=
  match s with
  | EmptyString => (pending =? 0)%nat
  | String c rest =>
      match pending with
      | S k => valid_from k rest
      | O =>
          match rune_size s with
          | Some n => valid_from (Nat.pred n) rest
          | None => false
          end
      end
  end.

Definition ValidString (s : string) : bool := valid_from 0 s.

(** The payload [Unmarshal] produces from what [Marshal] wrote for [p]. *)
Definition as_decoded (p : EncryptedPayload) : EncryptedPayload :=
  {| Ciphertext := coerced (Ciphertext p);
     Salt := coerced (Salt p);
     IV := coerced (IV p);
     KDF := {| Algorithm := coerced (Algorithm (KDF p));
               Time := Time (KDF p); Memory := Memory (KDF p);
               Threads := Threads (KDF p) |};
     Expiry := Expiry p;
     MaxViews := MaxViews p |}.

(** [json.Marshal(p)] for a non-nil [p *EncryptedPayload], and
    [json.Unmarshal(data, &p)] into a zero [EncryptedPayload]. *)
Class JSON : Type := {
  json_Marshal : EncryptedPayload -> result (list Byte.byte);
  json_Unmarshal : list Byte.byte -> result EncryptedPayload
}.

Class JSONLaws (J : JSON) : Prop := {
  Unmarshal_Marshal : forall p,
    well_typed p ->
    exists data, json_Marshal p = Ok data /\
                 json_Unmarshal data = Ok (as_decoded p)
}.

Section Serialization.

Context {J : JSON}.

Definition SerializePayload (p : EncryptedPayload) : result (list Byte.byte) :=
  json_Marshal p.

Definition DeserializePayload (data : list Byte.byte)
    : result EncryptedPayload :=
  match json_Unmarshal data with
  | Err err => Errorf_w "invalid payload" err
  | Ok p =>
      if String.eqb (Ciphertext p) "" || String.eqb (Salt p) ""
         || String.eqb (IV p) ""
      then errors_New "incomplete payload: missing required fields"
      else Ok p
  end.

(** Serialize, then deserialize what came out. *)
Definition through_the_wire (p : EncryptedPayload) : result EncryptedPayload :=
  match SerializePayload p with
  | Err err => Err err
  | Ok data => DeserializePayload data
  end.

End Serialization.

(** Every text field is well-formed UTF-8. *)
Definition text_fields_valid (p : EncryptedPayload) : Prop :=
  ValidString (Ciphertext p) = true /\ ValidString (Salt p) = true /\
  ValidString (IV p) = true /\ ValidString (Algorithm (KDF p)) = true.

(** What the caller does after [Encrypt]: it fills in the lifecycle policy. *)
Definition with_policy (p : EncryptedPayload) (expiry maxViews : Z)
    : EncryptedPayload :=
  {| Ciphertext := Ciphertext p; Salt := Salt p; IV := IV p; KDF := KDF p;
     Expiry := expiry; MaxViews := maxViews |}.

End crypto.

(** *** Stand-ins for the libraries

    Small executable implementations of the two interfaces, used to show that
    the laws above can be met; nothing in the model of the package depends on
    them. *)
Module standin.

Import crypto.

#[local] Instance byte_eq_dec : EqDecision Byte.byte := Byte.byte_eq_dec.

(** The random source is a finite pool of bytes. *)
Definition ReadFull (pool : list Byte.byte) (n : nat)
    : result (list Byte.byte) * list Byte.byte :=
  if (n <=? length pool)%nat then (Ok (take n pool), drop n pool)
  else (Err "unexpected EOF", pool).

Definition IDKey (password salt : list Byte.byte)
    (time memory threads keyLen : Z) : list Byte.byte :=
  take (Z.to_nat keyLen)
       (password ++ salt ++ repeat Byte.x00 (Z.to_nat keyLen)).

Definition NewCipher (key : list Byte.byte) : result (list Byte.byte) :=
  if decide (length key = 16 \/ length key = 24 \/ length key = 32)%nat
  then Ok key else Err "crypto/aes: invalid key size".

(** Sealing prefixes the message with the key and the nonce; opening checks
    the prefix. *)
Definition Seal (key nonce plaintext : list Byte.byte) : list Byte.byte :=
  (key ++ nonce) ++ plaintext.

Definition Open (key nonce ciphertext : list Byte.byte)
    : result (list Byte.byte) :=
  if decide (take (length (key ++ nonce)) ciphertext = key ++ nonce)
  then Ok (drop (length (key ++ nonce)) ciphertext)
  else Err "cipher: message authentication failed".

Definition primitives : Primitives :=
  {| Reader := list Byte.byte;
     io_ReadFull := ReadFull;
     argon2_IDKey := IDKey;
     Block := list Byte.byte;
     aes_NewCipher := NewCipher;
     AEAD := list Byte.byte;
     cipher_NewGCM := Ok;
     gcm_Seal := Seal;
     gcm_Open := Open;
     base64_EncodeToString := String.string_of_list_byte;
     base64_DecodeString := fun s => Ok (String.list_byte_of_string s) |}.

(** A payload as a tuple, written as the bits of its code. *)
Definition fields (p : EncryptedPayload)
    : string * string * string * (string * Z * Z * Z) * Z * Z :=
  (Ciphertext p, Salt p, IV p,
   (Algorithm (KDF p), Time (KDF p), Memory (KDF p), Threads (KDF p)),
   Expiry p, MaxViews p).

Definition of_fields (t : string * string * string * (string * Z * Z * Z) * Z * Z)
    : EncryptedPayload :=
  let '(c, s, i, (a, tm, m, th), e, v) := t in
  {| Ciphertext := c; Salt := s; IV := i;
     KDF := {| Algorithm := a; Time := tm; Memory := m; Threads := th |};
     Expiry := e; MaxViews := v |}.

Fixpoint bits (p : positive) : list Byte.byte :=
  match p with
  | xH => []
  | xO q => Byte.x30 :: bits q
  | xI q => Byte.x31 :: bits q
  end.

Fixpoint of_bits (l : list Byte.byte) : positive :=
  match l with
  | [] => xH
  | b :: l' => if Byte.eqb b Byte.x30 then xO (of_bits l') else xI (of_bits l')
  end.

Definition Marshal (p : EncryptedPayload) : result (list Byte.byte) :=
  Ok (bits (encode (fields (as_decoded p)))).

Definition Unmarshal (data : list Byte.byte) : result EncryptedPayload :=
  match decode (of_bits data) with
  | Some t => Ok (of_fields t)
  | None => Err "invalid character"
  end.

Definition json : JSON :=
  {| json_Marshal := Marshal; json_Unmarshal := Unmarshal |}.

(** A payload as [Encrypt] and the caller build it. *)
Definition sample_payload : EncryptedPayload :=
  {| Ciphertext := "3q2+7wABAgMEBQYHCAkKCwwNDg8QERITFBUWFxgZ";
     Salt := "AAECAwQFBgcICQoLDA0ODw==";
     IV := "AAECAwQFBgcICQoL";
     KDF := {| Algorithm := "argon2id"; Time := 3; Memory := 65536;
               Threads := 4 |};
     Expiry := 1700000600;
     MaxViews := 3 |}.

(** The same payload with a ciphertext field that is the single byte FF. *)
Definition ill_formed_payload : EncryptedPayload :=
  {| Ciphertext := String (ascii_of_N 0xFF) EmptyString;
     Salt := Salt sample_payload;
     IV := IV sample_payload;
     KDF := KDF sample_payload;
     Expiry := 1700000600;
     MaxViews := 3 |}.

End standin.

(* ===================================================================== *)
(** ** Goroutines calling the store *)
(* ===================================================================== *)

(** A goroutine that makes one call.  It waits for [s.mu.Lock()]; holding
    the lock it runs the body; with the return values computed it runs the
    deferred [s.mu.Unlock()]; then it has returned.  The body of
    [GetWithReason] takes two steps: the lookup and the three tests, which
    leave the goroutine with the pointer [sec] it found, and then the
    decrement and the delete. *)
Inductive Goroutine : Type :=
  | Waiting (o : Op)
  | Holding (o : Op)
  | Checked (id : string) (sec : nat)
  | Leaving (o : Op) (r : Ret)
  | Returned (o : Op) (r : Ret).

Definition op_of (g : Goroutine) : Op :=
  match g with
  | Waiting o | Holding o | Leaving o _ | Returned o _ => o
  | Checked id _ => OpGet id
  end.

(** The store object as it lies in memory, and the goroutines around it:
    [mu] tells whether the lock is taken (the methods only use [Lock] and
    [Unlock] of the [sync.RWMutex]), [heap] holds the [storedSecret] structs
    ever allocated (a pointer is an index into it), [secrets] is the map from
    identifiers to pointers. *)
Record World : Type := mkWorld {
  mu : bool;
  heap : list storedSecret;
  secrets : gmap string nat;
  goroutines : list Goroutine
}.

(** The map as the one-call-at-a-time model sees it: every identifier with
    the struct its pointer leads to. *)
Definition view_of (h : list storedSecret) (m : gmap string nat) : Store :=
  omap (fun sec => h !! sec) m.

Definition view (w : World) : Store := view_of (heap w) (secrets w).

(** A serial history: calls made one after the other, each with the
    goroutine that made it, the clock reading its body took and what it
    returned; [serial s hist s'] says that they lead from [s] to [s']. *)
Inductive serial (s : Store) : list (nat * Time * Op * Ret) -> Store -> Prop :=
  | serial_nil : serial s [] s
  | serial_snoc hist s' i now o :
      serial s hist s' ->
      serial s (hist ++ [(i, now, o, (call now o s').2)]) (call now o s').1.

(** The test of the sweep on one entry of the map: keep it unless the clock
    is after its expiry. *)
Definition kept (now : Time) (h : list storedSecret) (sec : nat) : bool :=
  match h !! sec with
  | Some e => negb (After now (Expiry e))
  | None => true
  end.

(** Goroutine [i] takes its next step; [now] is what [time.Now()] returns if
    the step reads the clock.  [None]: the goroutine cannot move (it waits
    for a lock that is taken, or it has returned). *)
Definition step (i : nat) (now : Time) (w : World) : option World :=
  match goroutines w !! i with
  | Some (Waiting o) =>
      if mu w then None
      else Some (mkWorld true (heap w) (secrets w)
                   (<[i := Holding o]> (goroutines w)))
  | Some (Holding (OpGet id)) =>
      match secrets w !! id with
      | None =>
          Some (mkWorld (mu w) (heap w) (secrets w)
                  (<[i := Leaving (OpGet id) (RetGet None ReasonNotFound)]>
                     (goroutines w)))
      | Some sec =>
          match heap w !! sec with
          | None => None
          | Some e =>
              if After now (Expiry e) then
                Some (mkWorld (mu w) (heap w) (delete id (secrets w))
                        (<[i := Leaving (OpGet id)
                                  (RetGet None ReasonExpired)]>
                           (goroutines w)))
              else if ViewsRemaining e <=? 0 then
                Some (mkWorld (mu w) (heap w) (delete id (secrets w))
                        (<[i := Leaving (OpGet id)
                                  (RetGet None ReasonMaxViews)]>
                           (goroutines w)))
              else
                Some (mkWorld (mu w) (heap w) (secrets w)
                        (<[i := Checked id sec]> (goroutines w)))
          end
      end
  | Some (Holding (OpPut id blob maxViews expiry)) =>
      let e := {| Blob := blob; ViewsRemaining := maxViews;
                  Expiry := expiry; MaxViews := maxViews |} in
      Some (mkWorld (mu w) (heap w ++ [e])
              (<[id := length (heap w)]> (secrets w))
              (<[i := Leaving (OpPut id blob maxViews expiry) RetPut]>
                 (goroutines w)))
  | Some (Holding (OpDelete id)) =>
      let ok := match secrets w !! id with Some _ => true | None => false end in
      Some (mkWorld (mu w) (heap w) (delete id (secrets w))
              (<[i := Leaving (OpDelete id) (RetDelete ok)]> (goroutines w)))
  | Some (Holding OpSweep) =>
      Some (mkWorld (mu w) (heap w)
              (filter (fun kv : string * nat => kept now (heap w) kv.2 = true)
                 (secrets w))
              (<[i := Leaving OpSweep RetSweep]> (goroutines w)))
  | Some (Checked id sec) =>
      match heap w !! sec with
      | None => None
      | Some e =>
          let blob := Blob e in
          let e' := decrement e in
          let h := <[sec := e']> (heap w) in
          let m := if ViewsRemaining e' <=? 0 then delete id (secrets w)
                   else secrets w in
          Some (mkWorld (mu w) h m
                  (<[i := Leaving (OpGet id) (RetGet blob ReasonNotFound)]>
                     (goroutines w)))
      end
  | Some (Leaving o r) =>
      Some (mkWorld false (heap w) (secrets w)
              (<[i := Returned o r]> (goroutines w)))
  | Some (Returned _ _) | None => None
  end.

(** A schedule: which goroutine moves next, and the clock reading it gets. *)
Fixpoint run_schedule (sched : list (nat * Time)) (w : World) : option World :=
  match sched with
  | [] => Some w
  | (i, now) :: sched' =>
      match step i now w with
      | Some w' => run_schedule sched' w'
      | None => None
      end
  end.

(** All the calls [ops] are fired at once at a store that nobody holds. *)
Definition start (h : list storedSecret) (m : gmap string nat)
    (ops : list Op) : World :=
  mkWorld false h m (Waiting <$> ops).

Definition has_returned (g : Goroutine) : bool :=
  match g with Returned _ _ => true | _ => false end.

Definition finished (w : World) : Prop :=
  forallb has_returned (goroutines w) = true.

(** What a goroutine got from [GetWithReason(id)], once the body has run. *)
Definition got (id : string) (g : Goroutine)
    : option (bytes * NotFoundReason) :=
  match g with
  | Leaving (OpGet id') (RetGet blob reason)
  | Returned (OpGet id') (RetGet blob reason) =>
      if decide (id' = id) then Some (blob, reason) else None
  | _ => None
  end.

(** The goroutine got a blob for [id]. *)
Definition succeeded (id : string) (g : Goroutine) : Prop :=
  exists b reason, got id g = Some (Some b, reason).

(** The goroutine is inside the critical section. *)
Definition in_section (g : Goroutine) : bool :=
  match g with
  | Holding _ | Checked _ _ | Leaving _ _ => true
  | _ => false
  end.

(** The steps a goroutine has left at most. *)
Definition steps_left (g : Goroutine) : nat :=
  match g with
  | Waiting _ => 4
  | Holding _ => 3
  | Checked _ _ => 2
  | Leaving _ _ => 1
  | Returned _ _ => 0
  end.

(** Every pointer of the map leads to a struct, and no two identifiers share
    one. *)
Definition well_formed (h : list storedSecret) (m : gmap string nat) : Prop :=
  (forall id sec, m !! id = Some sec -> (sec < length h)%nat) /\
  (forall id1 id2 sec, m !! id1 = Some sec -> m !! id2 = Some sec -> id1 = id2).

(** The call does not overwrite [id]. *)
Definition no_put_on (id : string) (o : Op) : Prop := ~ is_put_on id o.

(** The call neither overwrites nor revokes [id]. *)
Definition leaves_alone (id : string) (o : Op) : Prop :=
  match o with
  | OpPut id' _ _ _ | OpDelete id' => id' <> id
  | _ => True
  end.

(** *** What holds of every world the goroutines can get to *)

(** The lock is taken exactly when a goroutine is in the critical section,
    and then only one is. *)
Definition lock_inv (w : World) : Prop :=
  (mu w = false ->
     forall j g, goroutines w !! j = Some g -> in_section g = false) /\
  (mu w = true ->
     exists j g, goroutines w !! j = Some g /\ in_section g = true) /\
  (forall i j gi gj,
     goroutines w !! i = Some gi -> goroutines w !! j = Some gj ->
     in_section gi = true -> in_section gj = true -> i = j).

(** The pointer a goroutine holds between the two steps of [GetWithReason]
    is the one the map has for its identifier. *)
Definition ptr_inv (w : World) : Prop :=
  forall j id sec,
    goroutines w !! j = Some (Checked id sec) -> secrets w !! id = Some sec.

(** The entry of [id] is the struct [e0] at [sec0], untouched, and no call
    for [id] has run its body. *)
Definition live (id : string) (sec0 : nat) (e0 : storedSecret) (w : World)
    : Prop :=
  secrets w !! id = Some sec0 /\ heap w !! sec0 = Some e0 /\
  forall j g, goroutines w !! j = Some g -> got id g = None.

(** Goroutine [i] got the blob of [e0]; every other call for [id] that has
    run its body got (nil, NotFound). *)
Definition exact (id : string) (e0 : storedSecret) (w : World) : Prop :=
  exists i gi,
    goroutines w !! i = Some gi /\
    got id gi = Some (Blob e0, ReasonNotFound) /\
    forall j g, j <> i -> goroutines w !! j = Some g ->
      got id g = None \/ got id g = Some (None, ReasonNotFound).

(** No goroutine but one has got a blob for [id]. *)
Definition at_most_one (id : string) (w : World) : Prop :=
  exists i,
    forall j g, j <> i -> goroutines w !! j = Some g -> ~ succeeded id g.

(** The entry of [id] is gone: its one view went to one caller, or (when the
    run is [disturbed]: a revoke on [id], a clock reading after its expiry)
    at most one caller has a blob. *)
Definition gone (disturbed : Prop) (id : string) (e0 : storedSecret)
    (w : World) : Prop :=
  secrets w !! id = None /\
  (exact id e0 w \/ (disturbed /\ at_most_one id w)).

Definition contention_inv (disturbed : Prop) (id : string) (sec0 : nat)
    (e0 : storedSecret) (w : World) : Prop :=
  lock_inv w /\ well_formed (heap w) (secrets w) /\ ptr_inv w /\
  (live id sec0 e0 w \/ gone disturbed id e0 w).

(** A step of a goroutine that leaves what it got for [id] as it was, or
    gives it nothing or (nil, NotFound) where it had nothing. *)
Definition quiet_step (id : string) (g g' : Goroutine) : Prop :=
  got id g' = got id g \/
  (got id g = None /\
   (got id g' = None \/ got id g' = Some (None, ReasonNotFound))).

(** A call of [GetWithReason] returns a blob and a reason. *)
Definition result_ok (g : Goroutine) : Prop :=
  match g with
  | Leaving (OpGet _) r | Returned (OpGet _) r =>
      match r with RetGet _ _ => True | _ => False end
  | _ => True
  end.

(** The steps all the goroutines together have left at most. *)
Definition work_left (w : World) : nat :=
  sum_list (steps_left <$> goroutines w).

(** What a goroutine's call did, once its body has run. *)
Definition outcome_of (g : Goroutine) : option (Op * Ret) :=
  match g with
  | Leaving o r | Returned o r => Some (o, r)
  | _ => None
  end.

(** A history accounts for the goroutines [gs] after the steps [seen]: every
    call whose body has run is in it with what it returned, every entry of it
    is such a call, made with a clock reading that the goroutine did get, and
    no goroutine is in it twice. *)
Definition hist_ok (seen : list (nat * Time))
    (hist : list (nat * Time * Op * Ret)) (gs : list Goroutine) : Prop :=
  (forall j g o r, gs !! j = Some g -> outcome_of g = Some (o, r) ->
     exists now, (j, now, o, r) ∈ hist) /\
  (forall j now o r, (j, now, o, r) ∈ hist ->
     (j, now) ∈ seen /\
     exists g, gs !! j = Some g /\ outcome_of g = Some (o, r)) /\
  NoDup ((fun e : nat * Time * Op * Ret => e.1.1.1) <$> hist).

(** A goroutine between the two steps of [GetWithReason] holds the pointer
    of an entry that passed the two tests at a clock reading it got. *)
Definition checked_inv (seen : list (nat * Time)) (w : World) : Prop :=
  forall j id sec,
    goroutines w !! j = Some (Checked id sec) ->
    exists now e,
      (j, now) ∈ seen /\ heap w !! sec = Some e /\
      After now (Expiry e) = false /\ (ViewsRemaining e <=? 0) = false.

(** The world after the steps [seen] is the result of a serial history. *)
Definition serial_inv (s0 : Store) (seen : list (nat * Time)) (w : World)
    : Prop :=
  lock_inv w /\ well_formed (heap w) (secrets w) /\ ptr_inv w /\
  checked_inv seen w /\
  exists hist, serial s0 hist (view w) /\ hist_ok seen hist (goroutines w).

(* ===================================================================== *)
(** ** Sample data used by the examples *)
(* ===================================================================== *)

Definition sample_blob : bytes := Some [Byte.x7b; Byte.x7d].

(** One entry ["k1"], two views, expiring at second 100. *)
Definition sample_store : Store :=
  Put "k1" sample_blob 2 (time_Unix 100) NewStore.

(** One entry ["k1"] on its last view, expiring at second 100. *)
Definition last_view_store : Store :=
  Put "k1" sample_blob 1 (time_Unix 100) NewStore.

(** The memory of [last_view_store]: one struct, one identifier. *)
Definition last_view_heap : list storedSecret :=
  [mkSecret sample_blob 1 (time_Unix 100) 1].

Definition last_view_map : gmap string nat := {["k1" := 0%nat]}.

(** Three callers of [GetWithReason("k1")] and a sweep, and a schedule in
    which the second caller goes first, then the sweep, then the last caller
    and the first one. *)
Definition contended_ops : list Op :=
  [OpGet "k1"; OpGet "k1"; OpSweep; OpGet "k1"].

Definition contended_schedule : list (nat * Time) :=
  [(1%nat, 5); (1%nat, 6); (1%nat, 7); (1%nat, 8);
   (2%nat, 9); (2%nat, 10); (2%nat, 11);
   (3%nat, 12); (3%nat, 13); (3%nat, 14);
   (0%nat, 15); (0%nat, 16); (0%nat, 17)].

(** A well-formed request: 40 characters of ciphertext, ten minutes to live,
    three views; and the clock reading it is checked at. *)
Definition sample_request : dropCreateRequest :=
  {| request.Ciphertext := "3q2+7wABAgMEBQYHCAkKCwwNDg8QERITFBUWFxgZ";
     request.Salt := "AAECAwQFBgcICQoLDA0ODw==";
     request.IV := "AAECAwQFBgcICQoL";
     request.KDF := {| request.Algorithm := "argon2id"; request.Time := 3;
                       request.Memory := 65536; request.Threads := 4 |};
     request.Expiry := 1700000600;
     request.MaxViews := 3 |}.

Definition sample_now : Time := time_Unix 1700000000 + 250.


(* ===================================================================== *)
(** ** internal/server: sequences of calls *)
(* ===================================================================== *)

(** Successive calls of [GetWithReason] on one identifier, at the clock
    readings [times]: the store they leave and what each call returned. *)
Fixpoint gets (times : list Time) (id : string) (s : Store)
    : Store * list (bytes * NotFoundReason) :=
  match times with
  | [] => (s, [])
  | now :: times' =>
      let '(s', r) := GetWithReason now id s in
      let '(s'', rs) := gets times' id s' in
      (s'', r :: rs)
  end.

(** The identifier a call names; the sweep names none. *)
Definition target (o : Op) : option string :=
  match o with
  | OpPut id _ _ _ => Some id
  | OpGet id => Some id
  | OpDelete id => Some id
  | OpSweep => None
  end.

Definition is_put (o : Op) : bool :=
  match o with
  | OpPut _ _ _ _ => true
  | _ => false
  end.

(** A call that cannot change the entry [sec] stored under [id]: it names
    another identifier, or it is a sweep at a clock reading that is not after
    the entry's expiry. *)
Definition passes_by (id : string) (sec : storedSecret) (e : Time * Op)
    : Prop :=
  match target e.2 with
  | Some id' => id' <> id
  | None => e.1 <= Expiry sec
  end.

(* ===================================================================== *)
(** ** internal/server: the read and revoke handlers *)
(* ===================================================================== *)

Definition StatusOK : Z := 200.
Definition StatusNotFound : Z := 404.
Definition StatusGone : Z := 410.

(** What the handlers of [GET] and [DELETE /v1/drop/{id}] write: an error
    body ([writeError]), the stored bytes as they are ([w.Write(blob)]), or a
    JSON object of strings ([writeJSON] of a [map[string]string]). *)
Inductive Written : Type :=
  | wroteError (status : Z) (msg : string)
  | wroteBlob (status : Z) (blob : list Byte.byte)
  | wroteJSON (status : Z) (fields : list (string * string)).

Definition status_of (r : Written) : Z :=
  match r with
  | wroteError status _ | wroteBlob status _ | wroteJSON status _ => status
  end.

(** What the [GET] handler writes for the pair [GetWithReason] returned.
    The [default] arm of its switch is for reasons other than the three that
    [GetWithReason] returns. *)
Definition written (blob : bytes) (reason : NotFoundReason) : Written :=
  match blob with
  | None =>
      match reason with
      | ReasonExpired =>
          wroteError StatusGone
            "🔥 Secret expired and was automatically burned"
      | ReasonMaxViews =>
          wroteError StatusGone
            "🔥 Secret already retrieved and burned (max views reached)"
      | ReasonNotFound =>
          wroteError StatusNotFound
            "🔥 Secret not found - it may have been burned or never existed"
      end
  | Some b => wroteBlob StatusOK b
  end.

(** The [GET /v1/drop/{id}] handler, [id] being the path value. *)
Definition getDrop (now : Time) (id : string) (s : Store) : Store * Written :=
  let '(s', (blob, reason)) := GetWithReason now id s in
  (s', written blob reason).

(** The [DELETE /v1/drop/{id}] handler. *)
Definition deleteDrop (id : string) (s : Store) : Store * Written :=
  let '(s', ok) := Delete id s in
  if negb ok then (s', wroteError StatusNotFound "not found")
  else (s', wroteJSON StatusOK [("status", "revoked")]).

(** Successive [GET] requests for one identifier. *)
Fixpoint getDrops (times : list Time) (id : string) (s : Store)
    : Store * list Written :=
  match times with
  | [] => (s, [])
  | now :: times' =>
      let '(s', r) := getDrop now id s in
      let '(s'', rs) := getDrops times' id s' in
      (s'', r :: rs)
  end.

(** The rules in the order in which [validateRequest] tests them. *)
Definition rules : list Rule :=
  [CiphertextRequired; SaltRequired; IVRequired;
   CiphertextSize; SaltSize; IVSize;
   ExpiryInFuture; TTLFloor; TTLCeiling;
   MaxViewsFloor; MaxViewsCeiling].

(** [violates] as a test. *)
Definition violatesb (now : Time) (req : dropCreateRequest) (r : Rule) : bool :=
  match r with
  | CiphertextRequired => String.eqb (request.Ciphertext req) ""
  | SaltRequired => String.eqb (request.Salt req) ""
  | IVRequired => String.eqb (request.IV req) ""
  | CiphertextSize => MaxCiphertextLen <? len (request.Ciphertext req)
  | SaltSize => MaxSaltLen <? len (request.Salt req)
  | IVSize => MaxIVLen <? len (request.IV req)
  | ExpiryInFuture => request.Expiry req <=? Unix now
  | TTLFloor => request.Expiry req - Unix now <? 60
  | TTLCeiling => 24 * 60 * 60 <? request.Expiry req - Unix now
  | MaxViewsFloor => request.MaxViews req <? 1
  | MaxViewsCeiling => 100 <? request.MaxViews req
  end.

(** The first rule of the list that the request breaks. *)
Definition first_violated (now : Time) (req : dropCreateRequest)
    : option Rule :=
  List.find (violatesb now req) rules.

(* ===================================================================== *)
(** ** Counting views *)
(* ===================================================================== *)

(** The views the store still has to give for [id]. *)
Definition views_left (id : string) (s : Store) : Z :=
  match s !! id with
  | Some sec => Z.max 0 (ViewsRemaining sec)
  | None => 0
  end.

(** The entry of a history is a call of [GetWithReason(id)] that returned a
    blob. *)
Definition served (id : string) (e : nat * Time * Op * Ret) : bool :=
  match e with
  | (_, _, OpGet id', RetGet (Some _) _) => bool_decide (id' = id)
  | _ => false
  end.

(* ===================================================================== *)
(** ** internal/server: the cleanup goroutine *)
(* ===================================================================== *)

(** What the [select] of [cleanupLoop] receives: a tick of the ticker, with
    the clock reading [expireOld] then takes, or the closing of
    [stopCleanup] by [Stop]. *)
Inductive Event : Type :=
  | Tick (now : Time)
  | Stopped.

(** [cleanupLoop] over the events it receives, on a store nobody else
    touches meanwhile: it sweeps on every tick and returns when it is
    stopped; with no event left it blocks in the [select]. *)
Fixpoint cleanupLoop (events : list Event) (s : Store) : Store :=
  match events with
  | [] => s
  | Stopped :: _ => s
  | Tick now :: events' => cleanupLoop events' (expireOld now s)
  end.

(** The clock readings of the ticks that come before the stop. *)
Fixpoint ticks (events : list Event) : list Time :=
  match events with
  | [] => []
  | Stopped :: _ => []
  | Tick now :: events' => now :: ticks events'
  end.

(* ===================================================================== *)
(** ** encoding/hex and the text of a payload *)
(* ===================================================================== *)

Module hex.

(** The digit of a value below 16, from the table ["0123456789abcdef"]. *)
Definition digit (n : N) : ascii :=
  ascii_of_N (if (n <? 10)%N then 48 + n else 87 + n).

(** [hex.EncodeToString]: two digits a byte, the high one first. *)
Fixpoint EncodeToString (src : list Byte.byte) : string :=
  match src with
  | [] => EmptyString
  | b :: rest =>
      let v := Byte.to_N b in
      String (digit (v / 16)) (String (digit (v mod 16)) (EncodeToString rest))
  end.

(** The value of a lower-case digit. *)
Definition value (c : ascii) : option N :=
  let n := N_of_ascii c in
  if ((48 <=? n) && (n <=? 57))%N then Some (n - 48)%N
  else if ((97 <=? n) && (n <=? 102))%N then Some (n - 87)%N
  else None.

(** Reading the digits back, two at a time. *)
Fixpoint decode (s : string) : option (list Byte.byte) :=
  match s with
  | EmptyString => Some []
  | String c1 (String c2 rest) =>
      match value c1, value c2, decode rest with
      | Some h, Some l, Some bs =>
          match Byte.of_N (16 * h + l) with
          | Some b => Some (b :: bs)
          | None => None
          end
      | _, _, _ => None
      end
  | String _ EmptyString => None
  end.

End hex.

(** [randomID] of the server: [b] is the buffer of 16 bytes after
    [rand.Read(b)], whose error is not looked at. *)
Definition randomID (b : list Byte.byte) : string := hex.EncodeToString b.

(** Every byte of the string is below 0x80. *)
Fixpoint is_ascii (s : string) : bool :=
  match s with
  | EmptyString => true
  | String c rest => (N_of_ascii c <? 0x80)%N && is_ascii rest
  end.

(** What the package relies on when a payload that [Encrypt] built is sent as
    JSON: the alphabet of [base64.StdEncoding] is ASCII, the encoding of at
    least one byte is not empty, and [Seal] returns the sealed plaintext
    followed by the tag, so that it is not empty when the plaintext is
    not. *)
Class EncodingLaws (P : crypto.Primitives) : Prop := {
  base64_is_ascii : forall b,
    is_ascii (crypto.base64_EncodeToString b) = true;
  base64_not_empty : forall b,
    b <> [] -> crypto.base64_EncodeToString b <> "";
  Seal_not_empty : forall aead nonce plaintext,
    plaintext <> [] -> crypto.gcm_Seal aead nonce plaintext <> []
}.

(** The stand-in libraries with a text encoding whose alphabet is ASCII (the
    hexadecimal one) in the place of base64. *)
Definition text_primitives : crypto.Primitives :=
  {| crypto.Reader := list Byte.byte;
     crypto.io_ReadFull := standin.ReadFull;
     crypto.argon2_IDKey := standin.IDKey;
     crypto.Block := list Byte.byte;
     crypto.aes_NewCipher := standin.NewCipher;
     crypto.AEAD := list Byte.byte;
     crypto.cipher_NewGCM := Ok;
     crypto.gcm_Seal := standin.Seal;
     crypto.gcm_Open := standin.Open;
     crypto.base64_EncodeToString := hex.EncodeToString;
     crypto.base64_DecodeString := fun s =>
       match hex.decode s with
       | Some b => Ok b
       | None => Err "illegal data"
       end |}.

(** What [Encrypt] returns for the plaintext "hi" and the password "pw" with
    these libraries and a random source that delivers 28 bytes 2a. *)
Definition sealed_sample : crypto.EncryptedPayload :=
  Eval vm_compute in
    match (crypto.Encrypt (P := text_primitives) [Byte.x68; Byte.x69] "pw"
             (repeat Byte.x2a 28)).1 with
    | Ok payload => payload
    | Err _ => standin.sample_payload
    end.

(* ===================================================================== *)
(** * Properties *)
(* ===================================================================== *)

(** ** Machine integers *)

Lemma wrap_id z : GoInt.in_range z -> GoInt.wrap z = z.
Proof.
  unfold GoInt.in_range, GoInt.min_int, GoInt.max_int, GoInt.wrap. intros H.
  rewrite Z.mod_small by lia. lia.
Qed.

Lemma wrap_in_range z : GoInt.in_range (GoInt.wrap z).
Proof.
  unfold GoInt.in_range, GoInt.min_int, GoInt.max_int, GoInt.wrap.
  pose proof (Z.mod_pos_bound (z + 2 ^ 63) (2 ^ 64) ltac:(lia)). lia.
Qed.

Lemma dec_pos x : 0 < x <= GoInt.max_int -> GoInt.dec x = x - 1.
Proof.
  intros Hx. unfold GoInt.dec, GoInt.sub. apply wrap_id.
  unfold GoInt.in_range, GoInt.min_int, GoInt.max_int in *. lia.
Qed.


(** ** The store, one call at a time *)

Lemma After_true t u : After t u = true <-> u < t.
Proof. unfold After. apply Z.ltb_lt. Qed.

Lemma After_false t u : After t u = false <-> t <= u.
Proof. unfold After. rewrite Z.ltb_ge. reflexivity. Qed.

Lemma GetWithReason_absent now id (s : Store) :
  s !! id = None -> GetWithReason now id s = (s, (None, ReasonNotFound)).
Proof. intros H. unfold GetWithReason. by rewrite H. Qed.

Lemma GetWithReason_expired now id (s : Store) sec :
  s !! id = Some sec -> Expiry sec < now ->
  GetWithReason now id s = (delete id s, (None, ReasonExpired)).
Proof.
  intros H Hlt. unfold GetWithReason. rewrite H.
  apply After_true in Hlt. by rewrite Hlt.
Qed.

Lemma GetWithReason_exhausted now id (s : Store) sec :
  s !! id = Some sec -> now <= Expiry sec -> ViewsRemaining sec <= 0 ->
  GetWithReason now id s = (delete id s, (None, ReasonMaxViews)).
Proof.
  intros H Hle Hv. unfold GetWithReason. rewrite H.
  apply After_false in Hle. rewrite Hle.
  apply Z.leb_le in Hv. by rewrite Hv.
Qed.

Lemma GetWithReason_served now id (s : Store) sec :
  s !! id = Some sec -> now <= Expiry sec ->
  0 < ViewsRemaining sec <= GoInt.max_int ->
  GetWithReason now id s =
    (if decide (ViewsRemaining sec = 1) then delete id s
     else <[id := with_views sec (ViewsRemaining sec - 1)]> s,
     (Blob sec, ReasonNotFound)).
Proof.
  intros H Hle Hv. unfold GetWithReason. rewrite H.
  apply After_false in Hle. rewrite Hle.
  destruct (Z.leb_spec (ViewsRemaining sec) 0) as [? | _]; [lia |].
  unfold decrement; cbn [ViewsRemaining]. rewrite dec_pos by done.
  destruct (decide (ViewsRemaining sec = 1)) as [E1 | N1].
  - destruct (Z.leb_spec (ViewsRemaining sec - 1) 0); [| lia].
    by rewrite delete_insert_eq.
  - destruct (Z.leb_spec (ViewsRemaining sec - 1) 0); [lia |]. done.
Qed.

(** C1 (as stated) fails at the instant [now = expiry]: the specification's
    step 2 removes the entry and answers EXPIRED, the code serves the blob
    and keeps the entry with one view less. *)
Lemma GetWithReason_departs_from_spec_at_expiry :
  spec_GetWithReason (time_Unix 100) "k1" sample_store
    = (∅, (None, EXPIRED)) /\
  GetWithReason (time_Unix 100) "k1" sample_store
    = (<["k1" := with_views (mkSecret sample_blob 2 (time_Unix 100) 2) 1]> ∅,
       (sample_blob, ReasonNotFound)) /\
  ((GetWithReason (time_Unix 100) "k1" sample_store).1,
   outcome (GetWithReason (time_Unix 100) "k1" sample_store).2)
    <> spec_GetWithReason (time_Unix 100) "k1" sample_store.
Proof. split; [reflexivity | split; [reflexivity | discriminate]]. Qed.

(** C1 (amended): for every store, identifier and clock reading,
    [GetWithReason] takes exactly one of four steps.
    (1) No entry: the store is unchanged and the answer is (nil, NotFound).
    (2) The clock is strictly after the entry's expiry: the entry is deleted,
        the answer is (nil, Expired).
    (3) Otherwise, no view is left: the entry is deleted, the answer is
        (nil, MaxViews).
    (4) Otherwise the counter goes down by one, the entry is deleted when the
        counter reaches 0, and the answer is the stored blob with the reason
        NotFound (the code has no reason value for success). *)
Theorem GetWithReason_four_steps (now : Time) (id : string) (s : Store) :
  (s !! id = None ->
     GetWithReason now id s = (s, (None, ReasonNotFound))) /\
  (forall sec, s !! id = Some sec -> Expiry sec < now ->
     GetWithReason now id s = (delete id s, (None, ReasonExpired))) /\
  (forall sec, s !! id = Some sec -> now <= Expiry sec ->
     ViewsRemaining sec <= 0 ->
     GetWithReason now id s = (delete id s, (None, ReasonMaxViews))) /\
  (forall sec, s !! id = Some sec -> now <= Expiry sec ->
     0 < ViewsRemaining sec <= GoInt.max_int ->
     GetWithReason now id s =
       (if decide (ViewsRemaining sec = 1) then delete id s
        else <[id := with_views sec (ViewsRemaining sec - 1)]> s,
        (Blob sec, ReasonNotFound))).
Proof.
  split; [apply GetWithReason_absent |].
  split; [intros sec; apply GetWithReason_expired |].
  split; [intros sec; apply GetWithReason_exhausted |].
  intros sec; apply GetWithReason_served.
Qed.

Lemma GetWithReason_four_steps_witness :
  GetWithReason 0 "k2" sample_store = (sample_store, (None, ReasonNotFound)) /\
  GetWithReason (time_Unix 100 + 1) "k1" sample_store
    = (delete "k1" sample_store, (None, ReasonExpired)) /\
  GetWithReason 0 "k1" (Put "k1" sample_blob 0 5 NewStore)
    = (delete "k1" (Put "k1" sample_blob 0 5 NewStore), (None, ReasonMaxViews)) /\
  GetWithReason 0 "k1" sample_store
    = (<["k1" := with_views (mkSecret sample_blob 2 (time_Unix 100) 2) 1]>
         sample_store, (sample_blob, ReasonNotFound)).
Proof.
  split; [| split; [| split]].
  - apply (proj1 (GetWithReason_four_steps 0 "k2" sample_store)).
    reflexivity.
  - apply (proj1 (proj2 (GetWithReason_four_steps (time_Unix 100 + 1) "k1"
                           sample_store))
             (mkSecret sample_blob 2 (time_Unix 100) 2)).
    + reflexivity.
    + vm_compute. reflexivity.
  - apply (proj1 (proj2 (proj2 (GetWithReason_four_steps 0 "k1"
                                  (Put "k1" sample_blob 0 5 NewStore))))
             (mkSecret sample_blob 0 5 0)).
    + reflexivity.
    + simpl. lia.
    + simpl. lia.
  - apply (proj2 (proj2 (proj2 (GetWithReason_four_steps 0 "k1" sample_store)))
             (mkSecret sample_blob 2 (time_Unix 100) 2)).
    + reflexivity.
    + vm_compute. discriminate.
    + vm_compute. split; [reflexivity | discriminate].
Defined.

(** C3 (as stated) fails at the boundary instant: an entry with views left is
    still served when the clock reads exactly its expiry. *)
Lemma served_at_expiry_instant :
  sample_store !! "k1" = Some (mkSecret sample_blob 2 (time_Unix 100) 2) /\
  Expiry (mkSecret sample_blob 2 (time_Unix 100) 2) <= time_Unix 100 /\
  (GetWithReason (time_Unix 100) "k1" sample_store).2
    = (sample_blob, ReasonNotFound) /\
  (GetWithReason (time_Unix 100) "k1" sample_store).2 <> (None, ReasonExpired).
Proof.
  split; [reflexivity |]. split; [vm_compute; discriminate |].
  split; [reflexivity | discriminate].
Qed.

(** C3 (amended): whenever the clock is strictly after an entry's expiry,
    [GetWithReason] answers (nil, Expired), whatever the counter says; the
    call only deletes the entry (no counter is decremented, every other entry
    is as before).  At the instant [now = expiry] an entry with a view left
    is still served. *)
Theorem expiry_precedence (now : Time) (id : string) (s : Store)
    (sec : storedSecret) :
  s !! id = Some sec ->
  (Expiry sec < now ->
     GetWithReason now id s = (delete id s, (None, ReasonExpired)) /\
     outcome (GetWithReason now id s).2 = (None, EXPIRED) /\
     (GetWithReason now id s).1 !! id = None /\
     (forall id', id' <> id ->
        (GetWithReason now id s).1 !! id' = s !! id')) /\
  (now = Expiry sec -> 0 < ViewsRemaining sec ->
     (GetWithReason now id s).2 = (Blob sec, ReasonNotFound)).
Proof.
  intros H. split.
  - intros Hlt. rewrite (GetWithReason_expired now id s sec H Hlt). cbn.
    split; [done |]. split; [done |].
    split; [apply lookup_delete_eq |].
    intros id' Hne. by apply lookup_delete_ne.
  - intros -> Hv. unfold GetWithReason. rewrite H.
    unfold After. rewrite Z.ltb_irrefl.
    destruct (Z.leb_spec (ViewsRemaining sec) 0); [lia |].
    by destruct (_ <=? 0).
Qed.

Lemma expiry_precedence_witness :
  GetWithReason (time_Unix 101) "k1" sample_store
    = (delete "k1" sample_store, (None, ReasonExpired)) /\
  (GetWithReason (time_Unix 100) "k1" sample_store).2
    = (sample_blob, ReasonNotFound).
Proof.
  pose proof (expiry_precedence (time_Unix 101) "k1" sample_store
                (mkSecret sample_blob 2 (time_Unix 100) 2) eq_refl) as [H1 _].
  pose proof (expiry_precedence (time_Unix 100) "k1" sample_store
                (mkSecret sample_blob 2 (time_Unix 100) 2) eq_refl) as [_ H2].
  split.
  - apply H1. vm_compute. reflexivity.
  - apply H2; [reflexivity | simpl; lia].
Defined.

(** ** [Get] and the reason of a success *)



(** ** [Delete] *)

Lemma Delete_absent id (s : Store) : s !! id = None -> Delete id s = (s, false).
Proof. intros H. unfold Delete. rewrite H. by rewrite delete_id. Qed.

Lemma expireOld_lookup now (s : Store) id :
  expireOld now s !! id =
    match s !! id with
    | Some sec => if After now (Expiry sec) then None else Some sec
    | None => None
    end.
Proof.
  unfold expireOld. rewrite map_lookup_filter.
  destruct (s !! id) as [sec |]; cbn; [| done].
  destruct (After now (Expiry sec)) eqn:E; cbn.
  - rewrite option_guard_False; [done | congruence].
  - rewrite option_guard_True; [done | congruence].
Qed.

(** C7: [Delete] removes the entry of [id] and nothing else, and returns
    [true] exactly when there was one.  On an identifier that is not in the
    store (never stored, or removed by the last view, by expiry on a read, by
    the sweep, or by an earlier [Delete]) it returns [false] and leaves the
    store as it is. *)
Theorem Delete_idempotent (id : string) (s : Store) :
  Delete id s = (delete id s, bool_decide (is_Some (s !! id))) /\
  (Delete id s).1 !! id = None /\
  (forall id', id' <> id -> (Delete id s).1 !! id' = s !! id') /\
  (s !! id = None -> Delete id s = (s, false)) /\
  Delete id (Delete id s).1 = ((Delete id s).1, false) /\
  (forall now sec, s !! id = Some sec -> now <= Expiry sec ->
     ViewsRemaining sec = 1 ->
     Delete id (GetWithReason now id s).1
       = ((GetWithReason now id s).1, false)) /\
  (forall now sec, s !! id = Some sec -> Expiry sec < now ->
     Delete id (GetWithReason now id s).1
       = ((GetWithReason now id s).1, false) /\
     Delete id (expireOld now s) = (expireOld now s, false)).
Proof.
  split; [| split; [| split; [| split; [| split; [| split]]]]].
  - unfold Delete. destruct (s !! id) as [sec |] eqn:E.
    + rewrite bool_decide_true; eauto.
    + rewrite bool_decide_false; [done |]. by intros [? ?].
  - apply lookup_delete_eq.
  - intros id' Hne. cbn. by apply lookup_delete_ne.
  - apply Delete_absent.
  - apply Delete_absent. apply lookup_delete_eq.
  - intros now sec H Hle Hv. apply Delete_absent.
    rewrite (GetWithReason_served now id s sec H Hle)
      by (rewrite Hv; unfold GoInt.max_int; lia).
    rewrite decide_True by done. apply lookup_delete_eq.
  - intros now sec H Hlt. split; apply Delete_absent.
    + rewrite (GetWithReason_expired now id s sec H Hlt).
      apply lookup_delete_eq.
    + rewrite expireOld_lookup, H.
      apply After_true in Hlt. by rewrite Hlt.
Qed.

Lemma Delete_idempotent_witness :
  Delete "k2" sample_store = (sample_store, false) /\
  Delete "k1" (GetWithReason 0 "k1" last_view_store).1
    = ((GetWithReason 0 "k1" last_view_store).1, false) /\
  Delete "k1" (expireOld (time_Unix 101) sample_store)
    = (expireOld (time_Unix 101) sample_store, false).
Proof.
  split; [| split].
  - apply (proj1 (proj2 (proj2 (proj2 (Delete_idempotent "k2" sample_store))))).
    reflexivity.
  - apply (proj1 (proj2 (proj2 (proj2 (proj2 (proj2
             (Delete_idempotent "k1" last_view_store))))))
             0 (mkSecret sample_blob 1 (time_Unix 100) 1)).
    + reflexivity.
    + vm_compute. discriminate.
    + reflexivity.
  - apply (proj2 (proj2 (proj2 (proj2 (proj2 (proj2
             (Delete_idempotent "k1" sample_store))))))
             (time_Unix 101) (mkSecret sample_blob 2 (time_Unix 100) 2)).
    + reflexivity.
    + vm_compute. reflexivity.
Defined.

(** ** Invariants of the store *)

Lemma GetWithReason_lookup_ne now id id' (s : Store) :
  id' <> id -> (GetWithReason now id s).1 !! id' = s !! id'.
Proof.
  intros Hne. unfold GetWithReason.
  destruct (s !! id) as [sec |]; [| done].
  destruct (After now (Expiry sec)); [by apply lookup_delete_ne |].
  destruct (ViewsRemaining sec <=? 0); [by apply lookup_delete_ne |].
  destruct (_ <=? 0); cbn.
  - rewrite lookup_delete_ne by done. by apply lookup_insert_ne.
  - by apply lookup_insert_ne.
Qed.

(** What a call of [GetWithReason] leaves under its own identifier, when the
    stored counters are positive. *)
Lemma GetWithReason_lookup_eq now id (s : Store) :
  views_positive s ->
  (GetWithReason now id s).1 !! id =
    match s !! id with
    | None => None
    | Some sec =>
        if decide (Expiry sec < now) then None
        else if decide (ViewsRemaining sec = 1) then None
        else Some (with_views sec (ViewsRemaining sec - 1))
    end.
Proof.
  intros Hpos. destruct (s !! id) as [sec |] eqn:E.
  - pose proof (Hpos id sec E) as Hv. cbn in Hv.
    destruct (decide (Expiry sec < now)) as [Hlt | Hge].
    + rewrite (GetWithReason_expired now id s sec E Hlt).
      apply lookup_delete_eq.
    + rewrite (GetWithReason_served now id s sec E) by lia.
      destruct (decide (ViewsRemaining sec = 1)); cbn.
      * apply lookup_delete_eq.
      * apply lookup_insert_eq.
  - rewrite (GetWithReason_absent now id s E). done.
Qed.

Lemma exec_views_positive now o (s : Store) :
  views_positive s -> positive_put o -> views_positive (exec now o s).
Proof.
  intros Hpos Hput. destruct o as [id blob mv ex | id | id |]; cbn.
  - unfold Put. apply map_Forall_insert_2; [exact Hput | exact Hpos].
  - intros id' sec' H'. destruct (decide (id' = id)) as [-> | Hne].
    + rewrite GetWithReason_lookup_eq in H' by done.
      destruct (s !! id) as [sec |] eqn:E; [| done].
      pose proof (Hpos id sec E) as Hv. cbn in Hv.
      repeat case_decide; simplify_eq. cbn. lia.
    + rewrite GetWithReason_lookup_ne in H' by done. exact (Hpos id' sec' H').
  - by apply map_Forall_delete.
  - intros id' sec' H'. rewrite expireOld_lookup in H'.
    destruct (s !! id') as [sec |] eqn:E; [| done].
    destruct (After now (Expiry sec)); simplify_eq. exact (Hpos id' sec' E).
Qed.

Lemma reachable_views_positive (s : Store) : reachable s -> views_positive s.
Proof.
  induction 1 as [| now o s Hr IH Hput].
  - apply map_Forall_empty.
  - by apply exec_views_positive.
Qed.

Lemma never_exhausted now id (s : Store) :
  views_positive s -> (GetWithReason now id s).2.2 <> ReasonMaxViews.
Proof.
  intros Hpos. unfold GetWithReason.
  destruct (s !! id) as [sec |] eqn:E; [| done].
  pose proof (Hpos id sec E) as Hv. cbn in Hv.
  destruct (After now (Expiry sec)); [done |].
  destruct (Z.leb_spec (ViewsRemaining sec) 0); [lia |].
  by destruct (_ <=? 0).
Qed.

Lemma reachable_run tr (s : Store) :
  reachable s -> Forall (fun e => positive_put e.2) tr -> reachable (run tr s).
Proof.
  revert s. induction tr as [| [now o] tr IH]; intros s Hr Hall; cbn.
  - exact Hr.
  - inversion Hall as [| ? ? Ho Htr]; subst.
    apply IH; [| exact Htr]. by apply reachable_exec.
Qed.

(** One operation that is not a [Put] on [id]: what is stored under [id]
    afterwards was stored before, with the same blob and expiry and a counter
    that is not larger. *)
Lemma exec_no_increase now o id (s : Store) sec' :
  views_positive s -> ~ is_put_on id o ->
  exec now o s !! id = Some sec' ->
  exists sec, s !! id = Some sec /\
    ViewsRemaining sec' <= ViewsRemaining sec /\
    Blob sec' = Blob sec /\ Expiry sec' = Expiry sec /\
    MaxViews sec' = MaxViews sec.
Proof.
  intros Hpos Hnp H'. destruct o as [id0 blob mv ex | id0 | id0 |]; cbn in *.
  - unfold Put in H'. rewrite lookup_insert_ne in H' by done.
    exists sec'. repeat split; [done | lia].
  - destruct (decide (id = id0)) as [-> | Hne].
    + rewrite GetWithReason_lookup_eq in H' by done.
      destruct (s !! id0) as [sec |] eqn:E; [| done].
      repeat case_decide; simplify_eq.
      exists sec. cbn. repeat split; [lia].
    + rewrite GetWithReason_lookup_ne in H' by done.
      exists sec'. repeat split; [done | lia].
  - apply lookup_delete_Some in H' as [_ H'].
    exists sec'. repeat split; [done | lia].
  - rewrite expireOld_lookup in H'.
    destruct (s !! id) as [sec |] eqn:E; [| done].
    destruct (After now (Expiry sec)); simplify_eq.
    exists sec'. repeat split; lia.
Qed.

Lemma run_no_increase tr id (s : Store) sec' :
  views_positive s ->
  Forall (fun e => positive_put e.2 /\ ~ is_put_on id e.2) tr ->
  run tr s !! id = Some sec' ->
  exists sec, s !! id = Some sec /\
    ViewsRemaining sec' <= ViewsRemaining sec /\
    Blob sec' = Blob sec /\ Expiry sec' = Expiry sec /\
    MaxViews sec' = MaxViews sec.
Proof.
  revert s. induction tr as [| [now o] tr IH]; intros s Hpos Hall H'; cbn in *.
  - exists sec'. repeat split; [done | lia].
  - inversion Hall as [| ? ? [Hput Hnp] Htr]; subst. cbn in *.
    destruct (IH (exec now o s)) as (sec1 & H1 & Hv1 & Hb1 & He1 & Hm1);
      [by apply exec_views_positive | done | done |].
    destruct (exec_no_increase now o id s sec1 Hpos Hnp H1)
      as (sec & H0 & Hv0 & Hb0 & He0 & Hm0).
    exists sec. repeat split; [done | lia | congruence..].
Qed.

(** Once an identifier is gone, only a [Put] on it brings it back. *)
Lemma run_gone_stays_gone tr id (s : Store) :
  views_positive s ->
  Forall (fun e => positive_put e.2 /\ ~ is_put_on id e.2) tr ->
  s !! id = None -> run tr s !! id = None.
Proof.
  intros Hpos Hall Hnone.
  destruct (run tr s !! id) as [sec' |] eqn:E; [| done].
  destruct (run_no_increase tr id s sec' Hpos Hall E) as (sec & H0 & _).
  congruence.
Qed.

Lemma sample_store_reachable : reachable sample_store.
Proof.
  apply (reachable_exec 0 (OpPut "k1" sample_blob 2 (time_Unix 100)) NewStore).
  - apply reachable_new.
  - cbn. unfold GoInt.max_int. lia.
Defined.

Lemma last_view_store_reachable : reachable last_view_store.
Proof.
  apply (reachable_exec 0 (OpPut "k1" sample_blob 1 (time_Unix 100)) NewStore).
  - apply reachable_new.
  - cbn. unfold GoInt.max_int. lia.
Defined.

(** C10: in a store that only ever saw [Put] with [max_views >= 1], every
    entry of the map has [ViewsRemaining >= 1]; [GetWithReason] never answers
    [ReasonMaxViews]; the call that uses the last view returns the blob and
    removes the entry, and every later call for that identifier (as long as
    nobody puts it again) answers (nil, [ReasonNotFound]). *)
Theorem views_remaining_at_least_one (s : Store) :
  reachable s ->
  (forall id sec, s !! id = Some sec -> 1 <= ViewsRemaining sec) /\
  (forall now id, (GetWithReason now id s).2.2 <> ReasonMaxViews) /\
  (forall now id sec, s !! id = Some sec -> now <= Expiry sec ->
     ViewsRemaining sec = 1 ->
     (GetWithReason now id s).2 = (Blob sec, ReasonNotFound) /\
     (GetWithReason now id s).1 !! id = None /\
     forall tr now',
       Forall (fun e => positive_put e.2 /\ ~ is_put_on id e.2) tr ->
       (GetWithReason now' id (run tr (GetWithReason now id s).1)).2
         = (None, ReasonNotFound)).
Proof.
  intros Hr. pose proof (reachable_views_positive s Hr) as Hpos.
  split; [| split].
  - intros id sec H. pose proof (Hpos id sec H) as Hv. cbn in Hv. lia.
  - intros now id. by apply never_exhausted.
  - intros now id sec H Hle Hv.
    assert (Hgone : (GetWithReason now id s).1 !! id = None).
    { rewrite GetWithReason_lookup_eq, H by done.
      rewrite decide_False by lia. by rewrite decide_True. }
    split; [| split; [exact Hgone |]].
    + rewrite (GetWithReason_served now id s sec H Hle); [done |].
      rewrite Hv. unfold GoInt.max_int. lia.
    + intros tr now' Hall. rewrite GetWithReason_absent; [done |].
      apply run_gone_stays_gone; [| exact Hall | exact Hgone].
      apply (exec_views_positive now (OpGet id) s Hpos I).
Qed.

Lemma views_remaining_at_least_one_witness :
  (1 <= ViewsRemaining (mkSecret sample_blob 1 (time_Unix 100) 1)) /\
  (GetWithReason 5 "k1" last_view_store).2.2 <> ReasonMaxViews /\
  (GetWithReason 0 "k1" last_view_store).2 = (sample_blob, ReasonNotFound) /\
  (GetWithReason 7 "k1"
     (run [(6, OpSweep)] (GetWithReason 0 "k1" last_view_store).1)).2
    = (None, ReasonNotFound).
Proof.
  pose proof (views_remaining_at_least_one last_view_store
                last_view_store_reachable) as (H1 & H2 & H3).
  split; [| split; [| split]].
  - apply (H1 "k1"). reflexivity.
  - apply H2.
  - apply (H3 0 "k1" (mkSecret sample_blob 1 (time_Unix 100) 1));
      [reflexivity | vm_compute; discriminate | reflexivity].
  - apply (H3 0 "k1" (mkSecret sample_blob 1 (time_Unix 100) 1));
      [reflexivity | vm_compute; discriminate | reflexivity |].
    repeat constructor. cbn. tauto.
Defined.

(** C5 (as stated) fails at the instant [now = expiry].  The entry of
    [sample_store], a store reached by one [Put], is then one "with
    [now >= expiry]"; yet [GetWithReason] serves it and leaves it in the
    store with one view less, and a sweep at that instant keeps it as it
    is. *)
Lemma spent_by_the_spec_yet_served_and_kept :
  reachable sample_store /\
  exists sec,
    sample_store !! "k1" = Some sec /\
    spec_spent (time_Unix 100) sec /\
    (GetWithReason (time_Unix 100) "k1" sample_store).2
      = (sample_blob, ReasonNotFound) /\
    (GetWithReason (time_Unix 100) "k1" sample_store).1 !! "k1"
      = Some (with_views sec 1) /\
    expireOld (time_Unix 100) sample_store !! "k1" = Some sec.
Proof.
  split; [exact sample_store_reachable |].
  exists (mkSecret sample_blob 2 (time_Unix 100) 2).
  split; [reflexivity |]. split; [right; cbn; lia |].
  split; [reflexivity |]. split; [reflexivity |].
  rewrite expireOld_lookup. reflexivity.
Qed.

(** C5 (amended): in every store reached by [Put] with a positive
    [max_views], [GetWithReason], [Delete] and the sweep:
    - every stored counter is [>= 0];
    - along any further operations that do not [Put] the identifier again,
      its counter never gets larger (and the entry never comes back once it
      is gone);
    - a [GetWithReason] that finds the entry at a clock reading that is not
      after its expiry (the instant [now = expiry] included) returns the
      blob and leaves the counter exactly one lower, or no entry when that
      was the last view; and a sweep at such a clock reading keeps the entry
      as it is;
    - an entry with no view left, or whose expiry the clock is strictly after
      ([now > expiry]), is not served by [GetWithReason], is gone after that
      call, and (a spent entry of such a store being an expired one) is gone
      after a sweep; and it is not served at any later time either, whatever
      happens in between, short of a new [Put];
    - an identifier that is gone (its last view used, expired and removed, or
      revoked) stays gone until it is [Put] again. *)
Theorem store_invariant (s : Store) :
  reachable s ->
  (forall id sec, s !! id = Some sec -> 0 <= ViewsRemaining sec) /\
  (forall tr id sec',
     Forall (fun e => positive_put e.2 /\ ~ is_put_on id e.2) tr ->
     run tr s !! id = Some sec' ->
     exists sec, s !! id = Some sec /\
       0 <= ViewsRemaining sec' <= ViewsRemaining sec) /\
  (forall now id sec, s !! id = Some sec -> now <= Expiry sec ->
     (GetWithReason now id s).2 = (Blob sec, ReasonNotFound) /\
     (GetWithReason now id s).1 !! id =
       (if decide (ViewsRemaining sec = 1) then None
        else Some (with_views sec (ViewsRemaining sec - 1))) /\
     expireOld now s !! id = Some sec) /\
  (forall now id sec, s !! id = Some sec -> spent now sec ->
     (GetWithReason now id s).2.1 = None /\
     (GetWithReason now id s).1 !! id = None /\
     expireOld now s !! id = None /\
     forall tr now',
       Forall (fun e => positive_put e.2 /\ ~ is_put_on id e.2) tr ->
       now <= now' ->
       (GetWithReason now' id (run tr s)).2.1 = None) /\
  (forall id tr now,
     s !! id = None ->
     Forall (fun e => positive_put e.2 /\ ~ is_put_on id e.2) tr ->
     (GetWithReason now id (run tr s)).2 = (None, ReasonNotFound)).
Proof.
  intros Hr. pose proof (reachable_views_positive s Hr) as Hpos.
  split; [| split; [| split; [| split]]]; cycle 4.
  { intros id tr now Hnone Hall. rewrite GetWithReason_absent; [done |].
    by apply run_gone_stays_gone. }
  - intros id sec H. pose proof (Hpos id sec H) as Hv. cbn in Hv. lia.
  - intros tr id sec' Hall H'.
    destruct (run_no_increase tr id s sec' Hpos Hall H')
      as (sec & H0 & Hv & _).
    exists sec. split; [done |]. split; [| done].
    assert (Hr' : reachable (run tr s)).
    { apply reachable_run; [done |].
      eapply Forall_impl; [exact Hall |]. by intros e [? _]. }
    pose proof (reachable_views_positive _ Hr' id sec' H') as Hv'.
    cbn in Hv'. lia.
  - intros now id sec H Hle. pose proof (Hpos id sec H) as Hv. cbn in Hv.
    split; [| split].
    + rewrite (GetWithReason_served now id s sec H Hle) by lia. done.
    + rewrite GetWithReason_lookup_eq, H by done.
      by rewrite decide_False by lia.
    + rewrite expireOld_lookup, H. apply After_false in Hle. by rewrite Hle.
  - intros now id sec H Hspent. pose proof (Hpos id sec H) as Hv. cbn in Hv.
    destruct Hspent as [H0 | Hlt]; [lia |].
    split; [| split; [| split]].
    + by rewrite (GetWithReason_expired now id s sec H Hlt).
    + rewrite (GetWithReason_expired now id s sec H Hlt).
      apply lookup_delete_eq.
    + rewrite expireOld_lookup, H. apply After_true in Hlt. by rewrite Hlt.
    + intros tr now' Hall Hnow.
      destruct (run tr s !! id) as [sec' |] eqn:E.
      * destruct (run_no_increase tr id s sec' Hpos Hall E)
          as (sec0 & H0 & _ & _ & He & _).
        assert (sec0 = sec) by congruence; subst sec0.
        rewrite (GetWithReason_expired now' id _ sec' E); [done |].
        rewrite He. lia.
      * by rewrite GetWithReason_absent.
Qed.

Lemma store_invariant_witness :
  0 <= ViewsRemaining (mkSecret sample_blob 2 (time_Unix 100) 2) /\
  (exists sec, sample_store !! "k1" = Some sec /\
     0 <= ViewsRemaining (with_views (mkSecret sample_blob 2 (time_Unix 100) 2) 1)
       <= ViewsRemaining sec) /\
  (GetWithReason (time_Unix 100) "k1" sample_store).2
    = (sample_blob, ReasonNotFound) /\
  (GetWithReason (time_Unix 101) "k1" sample_store).2.1 = None /\
  expireOld (time_Unix 101) sample_store !! "k1" = None.
Proof.
  pose proof (store_invariant sample_store sample_store_reachable)
    as (H1 & H2 & H3 & H4 & _).
  split; [| split; [| split; [| split]]].
  - apply (H1 "k1"). reflexivity.
  - apply (H2 [(0, OpGet "k1"); (1, OpSweep)] "k1").
    + repeat constructor; cbn; tauto.
    + reflexivity.
  - apply (H3 (time_Unix 100) "k1"
             (mkSecret sample_blob 2 (time_Unix 100) 2));
      [reflexivity | vm_compute; discriminate].
  - apply (H4 (time_Unix 101) "k1" (mkSecret sample_blob 2 (time_Unix 100) 2));
      [reflexivity | right; vm_compute; reflexivity].
  - apply (H4 (time_Unix 101) "k1" (mkSecret sample_blob 2 (time_Unix 100) 2));
      [reflexivity | right; vm_compute; reflexivity].
Defined.

(** ** The admission policy *)




Lemma postDrop_unfold baseURL now id raw req (s : Store) :
  postDrop baseURL now id raw req s =
    if decide ((validateRequest now req).1 = 0)
    then (Put id (Some raw) (request.MaxViews req)
            (time_Unix (request.Expiry req)) s,
          writeCreated 201 id (baseURL +:+ "/v1/drop/" +:+ id))
    else (s, writeError (validateRequest now req).1
               (validateRequest now req).2).
Proof.
  unfold postDrop. destruct (validateRequest now req) as [status msg]. cbn.
  destruct (Z.eqb_spec status 0); cbn.
  - by rewrite decide_True.
  - by rewrite decide_False.
Qed.


Lemma sample_request_admissible : admissible sample_now sample_request.
Proof. intros r; destruct r; vm_compute; congruence. Qed.


(** ** The envelope codec *)

Section CodecFacts.

Import crypto.

Context {P : Primitives} {L : PrimitiveLaws P}.

Lemma key_accepted password salt time memory threads :
  exists block gcm,
    aes_NewCipher (argon2_IDKey password salt time memory threads argon2KeyLen)
      = Ok block /\
    cipher_NewGCM block = Ok gcm.
Proof.
  destruct (NewCipher_256
              (argon2_IDKey password salt time memory threads argon2KeyLen))
    as [block Hb].
  { rewrite IDKey_length by (unfold argon2KeyLen; lia). reflexivity. }
  destruct (NewGCM_ok block) as [gcm Hg]. eauto.
Qed.

(** What [Encrypt] returns once the random source has delivered a salt and a
    nonce. *)
Lemma Encrypt_sealed (m : list Byte.byte) (p : string) (rng : Reader)
    salt rng1 nonce rng2 :
  m <> [] -> p <> "" ->
  io_ReadFull rng saltSize = (Ok salt, rng1) ->
  io_ReadFull rng1 gcmNonceSize = (Ok nonce, rng2) ->
  exists block gcm,
    aes_NewCipher (argon2_IDKey (String.list_byte_of_string p) salt
                     argon2Time argon2Memory argon2Threads argon2KeyLen)
      = Ok block /\
    cipher_NewGCM block = Ok gcm /\
    Encrypt m p rng =
      (Ok {| Ciphertext := base64_EncodeToString (gcm_Seal gcm nonce m);
             Salt := base64_EncodeToString salt;
             IV := base64_EncodeToString nonce;
             KDF := {| Algorithm := "argon2id"; Time := argon2Time;
                       Memory := argon2Memory; Threads := argon2Threads |};
             Expiry := 0; MaxViews := 0 |}, rng2).
Proof.
  intros Hm Hp Hsalt Hnonce.
  destruct (key_accepted (String.list_byte_of_string p) salt
              argon2Time argon2Memory argon2Threads) as (block & gcm & Hb & Hg).
  exists block, gcm. split; [exact Hb |]. split; [exact Hg |].
  unfold Encrypt.
  destruct m as [| b m']; [done |]. cbn [length Nat.eqb].
  destruct (String.eqb_spec p "") as [-> | _]; [done |].
  rewrite Hsalt, Hnonce, Hb, Hg. reflexivity.
Qed.

(** [Decrypt] on a payload whose three fields encode a salt and a nonce of
    the standard sizes and a ciphertext sealed under the key they derive. *)
Lemma Decrypt_opens (m : list Byte.byte) (p : string) salt nonce gcm block
    (payload : EncryptedPayload) :
  p <> "" ->
  length salt = saltSize -> length nonce = gcmNonceSize ->
  Salt payload = base64_EncodeToString salt ->
  IV payload = base64_EncodeToString nonce ->
  Ciphertext payload = base64_EncodeToString (gcm_Seal gcm nonce m) ->
  aes_NewCipher (argon2_IDKey (String.list_byte_of_string p) salt
                   (Time (KDF payload)) (Memory (KDF payload))
                   (Threads (KDF payload)) argon2KeyLen) = Ok block ->
  cipher_NewGCM block = Ok gcm ->
  Decrypt (Some payload) p = Ok m.
Proof.
  intros Hp Hls Hln Hs Hi Hc Hb Hg. unfold Decrypt.
  destruct (String.eqb_spec p "") as [-> | _]; [done |].
  rewrite Hs, base64_Decode_Encode, Hls, Nat.eqb_refl. cbn [negb].
  rewrite Hi, base64_Decode_Encode, Hln, Nat.eqb_refl. cbn [negb].
  rewrite Hc, base64_Decode_Encode, Hb, Hg.
  by rewrite Open_Seal.
Qed.

(** C4: for every non-empty plaintext [m] and non-empty password [p],
    whatever payload [Encrypt m p] returns, [Decrypt] with the same password
    returns [m], also after the caller has filled in expiry and max_views;
    and [Encrypt] does return a payload as soon as the random source delivers
    the salt and the nonce. *)
Theorem Encrypt_Decrypt_roundtrip (m : list Byte.byte) (p : string)
    (rng : Reader) :
  m <> [] -> p <> "" ->
  (forall payload rng',
     Encrypt m p rng = (Ok payload, rng') ->
     Decrypt (Some payload) p = Ok m /\
     forall expiry maxViews,
       Decrypt (Some (with_policy payload expiry maxViews)) p = Ok m) /\
  (forall salt rng1 nonce rng2,
     io_ReadFull rng saltSize = (Ok salt, rng1) ->
     io_ReadFull rng1 gcmNonceSize = (Ok nonce, rng2) ->
     exists payload, Encrypt m p rng = (Ok payload, rng2)).
Proof.
  intros Hm Hp. split.
  - intros payload rng' Henc.
    destruct (io_ReadFull rng saltSize) as [[salt | e] rng1] eqn:Hsalt.
    2: { unfold Encrypt in Henc. destruct m; [done |]. cbn in Henc.
         destruct (String.eqb_spec p ""); [done |].
         rewrite Hsalt in Henc. discriminate. }
    destruct (io_ReadFull rng1 gcmNonceSize) as [[nonce | e] rng2] eqn:Hnonce.
    2: { unfold Encrypt in Henc. destruct m; [done |]. cbn in Henc.
         destruct (String.eqb_spec p ""); [done |].
         rewrite Hsalt, Hnonce in Henc. discriminate. }
    destruct (Encrypt_sealed m p rng salt rng1 nonce rng2 Hm Hp Hsalt Hnonce)
      as (block & gcm & Hb & Hg & Heq).
    rewrite Heq in Henc. injection Henc as <- <-.
    pose proof (ReadFull_length _ _ _ _ Hsalt) as Hls.
    pose proof (ReadFull_length _ _ _ _ Hnonce) as Hln.
    split; [| intros expiry maxViews];
      by eapply (Decrypt_opens m p salt nonce gcm block).
  - intros salt rng1 nonce rng2 Hsalt Hnonce.
    destruct (Encrypt_sealed m p rng salt rng1 nonce rng2 Hm Hp Hsalt Hnonce)
      as (block & gcm & _ & _ & Heq).
    eauto.
Qed.

End CodecFacts.

(** The stand-in libraries meet the laws. *)
Lemma standin_primitive_laws : crypto.PrimitiveLaws standin.primitives.
Proof.
  split; [cbn .. |].
  - intros r n b r'. unfold standin.ReadFull.
    destruct (Nat.leb_spec n (length r)) as [Hle | Hgt]; [| discriminate].
    intros [= <- <-]. rewrite length_take. lia.
  - intros password salt time memory threads keyLen Hk. unfold standin.IDKey.
    rewrite length_take, !length_app, repeat_length. lia.
  - intros key Hk. unfold standin.NewCipher.
    rewrite decide_True by auto. eauto.
  - intros block. eauto.
  - intros aead nonce plaintext _. unfold standin.Open, standin.Seal.
    rewrite take_app_length, decide_True by done.
    by rewrite drop_app_length.
  - intros b.
    cbv [crypto.base64_DecodeString crypto.base64_EncodeToString
         standin.primitives].
    by rewrite String.list_byte_of_string_of_list_byte.
Qed.

Lemma Encrypt_Decrypt_roundtrip_witness :
  exists payload,
    crypto.Encrypt (P := standin.primitives) [Byte.x68; Byte.x69] "pw"
      (repeat Byte.x2a 28) = (Ok payload, []) /\
    crypto.Decrypt (P := standin.primitives) (Some payload) "pw"
      = Ok [Byte.x68; Byte.x69].
Proof.
  pose proof (Encrypt_Decrypt_roundtrip (P := standin.primitives)
                (L := standin_primitive_laws)
                [Byte.x68; Byte.x69] "pw" (repeat Byte.x2a 28)
                ltac:(discriminate) ltac:(discriminate)) as [Hdec Henc].
  destruct (Henc (repeat Byte.x2a 16) (repeat Byte.x2a 12)
              (repeat Byte.x2a 12) [] eq_refl eq_refl) as [payload Hp].
  exists payload. split; [exact Hp |].
  exact (proj1 (Hdec payload [] Hp)).
Defined.

(** ** Serialization *)

Lemma valid_from_coerce (s : string) (pending : nat) :
  crypto.valid_from pending s = true -> crypto.coerce_from pending s = s.
Proof.
  revert pending. induction s as [| c rest IH]; intros pending Hv; [done |].
  destruct pending as [| k]; cbn [crypto.valid_from crypto.coerce_from] in *.
  - destruct (crypto.rune_size (String c rest)) as [n |]; [| done].
    by rewrite IH.
  - by rewrite IH.
Qed.

Lemma coerced_valid (s : string) :
  crypto.ValidString s = true -> crypto.coerced s = s.
Proof. apply valid_from_coerce. Qed.

Lemma coerced_empty (s : string) : crypto.coerced s = "" <-> s = "".
Proof.
  split; [| by intros ->].
  destruct s as [| c rest]; [done |].
  unfold crypto.coerced. cbn [crypto.coerce_from].
  by destruct (crypto.rune_size (String c rest)).
Qed.

Lemma as_decoded_valid (p : crypto.EncryptedPayload) :
  crypto.text_fields_valid p -> crypto.as_decoded p = p.
Proof.
  intros (Hc & Hs & Hi & Ha). unfold crypto.as_decoded.
  rewrite !coerced_valid by done. by destruct p as [? ? ? []].
Qed.

Section SerializationFacts.

Import crypto.

Context {J : JSON} {L : JSONLaws J}.

(** What comes back from the wire, for any payload. *)
Lemma through_the_wire_decoded (p : EncryptedPayload) :
  well_typed p ->
  through_the_wire p =
    if String.eqb (Ciphertext p) "" || String.eqb (Salt p) ""
       || String.eqb (IV p) ""
    then Err "incomplete payload: missing required fields"
    else Ok (as_decoded p).
Proof.
  intros Hwt. destruct (Unmarshal_Marshal p Hwt) as (data & Hm & Hu).
  unfold through_the_wire, SerializePayload, DeserializePayload.
  rewrite Hm, Hu. cbn [as_decoded Ciphertext Salt IV].
  assert (Heq : forall s, String.eqb (coerced s) "" = String.eqb s "").
  { intros s. destruct (String.eqb_spec s "") as [-> | Hne]; [done |].
    apply String.eqb_neq. by rewrite coerced_empty. }
  by rewrite !Heq.
Qed.

(** C8 (amended): a payload with non-empty ciphertext, salt and iv whose text
    fields are well-formed UTF-8 comes back from
    [DeserializePayload (SerializePayload p)] equal to itself in every field;
    when one of the three fields is empty the result is the error
    "incomplete payload". *)
Theorem payload_roundtrip (p : EncryptedPayload) :
  well_typed p ->
  (text_fields_valid p ->
   Ciphertext p <> "" -> Salt p <> "" -> IV p <> "" ->
   exists data, SerializePayload p = Ok data /\
                DeserializePayload data = Ok p) /\
  (Ciphertext p = "" \/ Salt p = "" \/ IV p = "" ->
   through_the_wire p = Err "incomplete payload: missing required fields").
Proof.
  intros Hwt. split.
  - intros Hval Hc Hs Hi.
    pose proof (through_the_wire_decoded p Hwt) as Hw.
    apply String.eqb_neq in Hc, Hs, Hi. rewrite Hc, Hs, Hi in Hw. cbn in Hw.
    rewrite (as_decoded_valid p Hval) in Hw.
    unfold through_the_wire in Hw.
    destruct (SerializePayload p) as [data | e]; [| discriminate].
    eauto.
  - intros Hempty. rewrite (through_the_wire_decoded p Hwt).
    destruct Hempty as [-> | [-> | ->]]; cbn;
      by rewrite ?orb_true_r.
Qed.

End SerializationFacts.

Lemma standin_json_laws : crypto.JSONLaws standin.json.
Proof.
  split. intros p _. eexists. split; [reflexivity |].
  cbn. unfold standin.Unmarshal.
  replace (standin.of_bits (standin.bits (encode (standin.fields
             (crypto.as_decoded p)))))
    with (encode (standin.fields (crypto.as_decoded p))).
  - rewrite decode_encode. by destruct p as [? ? ? []].
  - generalize (encode (standin.fields (crypto.as_decoded p))).
    intros q. induction q as [q IH | q IH |]; cbn; by rewrite <- ?IH.
Qed.

Lemma sample_payload_well_typed : crypto.well_typed standin.sample_payload.
Proof.
  unfold crypto.well_typed, GoInt.in_range. vm_compute.
  repeat split; discriminate.
Qed.

Lemma ill_formed_payload_well_typed :
  crypto.well_typed standin.ill_formed_payload.
Proof.
  unfold crypto.well_typed, GoInt.in_range. vm_compute.
  repeat split; discriminate.
Qed.

Lemma payload_roundtrip_witness :
  exists data,
    crypto.SerializePayload (J := standin.json) standin.sample_payload
      = Ok data /\
    crypto.DeserializePayload (J := standin.json) data
      = Ok standin.sample_payload.
Proof.
  apply (proj1 (payload_roundtrip (J := standin.json) (L := standin_json_laws)
                  standin.sample_payload sample_payload_well_typed)).
  - repeat split; reflexivity.
  - discriminate.
  - discriminate.
  - discriminate.
Defined.

(** C8 (as stated) fails on a payload whose ciphertext field is not
    well-formed UTF-8: the three required fields are non-empty, and whatever
    library meets the laws of [encoding/json], the payload that comes back
    has the three bytes of U+FFFD where the byte FF was. *)
Lemma ill_formed_text_is_not_reproduced :
  crypto.Ciphertext standin.ill_formed_payload <> "" /\
  crypto.Salt standin.ill_formed_payload <> "" /\
  crypto.IV standin.ill_formed_payload <> "" /\
  (forall (J : crypto.JSON), crypto.JSONLaws J ->
     crypto.through_the_wire standin.ill_formed_payload
       = Ok (crypto.as_decoded standin.ill_formed_payload)) /\
  crypto.Ciphertext (crypto.as_decoded standin.ill_formed_payload)
    = crypto.replacement_rune /\
  crypto.as_decoded standin.ill_formed_payload <> standin.ill_formed_payload /\
  ~ (forall (J : crypto.JSON), crypto.JSONLaws J ->
     forall p, crypto.well_typed p ->
       crypto.Ciphertext p <> "" -> crypto.Salt p <> "" -> crypto.IV p <> "" ->
       crypto.through_the_wire p = Ok p).
Proof.
  assert (Hne : crypto.as_decoded standin.ill_formed_payload
                <> standin.ill_formed_payload) by discriminate.
  assert (Hall : forall (J : crypto.JSON), crypto.JSONLaws J ->
            crypto.through_the_wire standin.ill_formed_payload
              = Ok (crypto.as_decoded standin.ill_formed_payload)).
  { intros J L.
    by rewrite (through_the_wire_decoded _ ill_formed_payload_well_typed). }
  split; [discriminate |]. split; [discriminate |]. split; [discriminate |].
  split; [exact Hall |]. split; [reflexivity |]. split; [exact Hne |].
  intros Hclaim.
  specialize (Hclaim standin.json standin_json_laws standin.ill_formed_payload
                ill_formed_payload_well_typed
                ltac:(discriminate) ltac:(discriminate) ltac:(discriminate)).
  rewrite (Hall standin.json standin_json_laws) in Hclaim.
  by injection Hclaim.
Qed.

(** ** Goroutines: the lock discipline *)

(** The case analysis of one step. *)
Ltac step_cases H :=
  match type of H with
  | step ?i ?now ?w = Some _ =>
      let Hg := fresh "Hg" in
      unfold step in H;
      destruct (goroutines w !! i)
        as [[o_ | o_ | id_ sec_ | o_ r_ | o_ r_] |] eqn:Hg;
      [ destruct (mu w) eqn:Hmu; [discriminate H |]
      | destruct o_ as [id_ blob_ mv_ ex_ | id_ | id_ |];
        [ | destruct (secrets w !! id_) as [sec_ |] eqn:Hsec;
            [ destruct (heap w !! sec_) as [e_ |] eqn:He; [| discriminate H];
              destruct (After now (Expiry e_)) eqn:Hafter;
              [ | destruct (ViewsRemaining e_ <=? 0) eqn:Hviews ]
            | ]
          | | ]
      | destruct (heap w !! sec_) as [e_ |] eqn:He; [| discriminate H];
        cbv zeta in H;
        destruct (ViewsRemaining (decrement e_) <=? 0) eqn:Hviews
      |
      | discriminate H
      | discriminate H ];
      cbv zeta in H;
      injection H as <-
  end.

Lemma step_shape i now w w' :
  step i now w = Some w' ->
  exists g g',
    goroutines w !! i = Some g /\
    goroutines w' = <[i := g']> (goroutines w) /\
    op_of g' = op_of g /\
    (steps_left g' < steps_left g)%nat /\
    ((in_section g = false /\ in_section g' = true /\
      mu w = false /\ mu w' = true /\
      heap w' = heap w /\ secrets w' = secrets w /\
      forall id, got id g = None /\ got id g' = None) \/
     (in_section g = true /\ in_section g' = false /\ mu w' = false /\
      heap w' = heap w /\ secrets w' = secrets w /\
      forall id, got id g' = got id g) \/
     (in_section g = true /\ in_section g' = true /\ mu w' = mu w)).
Proof.
  intros H. step_cases H; eexists _, _; (split; [reflexivity |]);
    (split; [reflexivity |]); cbn; (split; [reflexivity |]);
    (split; [lia |]); auto 10.
Qed.

Lemma lookup_after_step (gs : list Goroutine) i g g' j gj :
  gs !! i = Some g ->
  <[i := g']> gs !! j = Some gj ->
  (j = i /\ gj = g') \/ (j <> i /\ gs !! j = Some gj).
Proof.
  intros Hi Hj. apply list_lookup_insert_Some in Hj as [(-> & -> & _) | [? ?]].
  - by left.
  - right. split; [congruence | done].
Qed.

Lemma lookup_stepped (gs : list Goroutine) i g g' :
  gs !! i = Some g -> <[i := g']> gs !! i = Some g'.
Proof.
  intros Hi. apply list_lookup_insert_eq. by eapply lookup_lt_Some.
Qed.

Lemma step_lock_inv i now w w' :
  lock_inv w -> step i now w = Some w' -> lock_inv w'.
Proof.
  intros (Hfree & Hheld & Honly) Hstep.
  destruct (step_shape i now w w' Hstep)
    as (g & g' & Hi & Hgs & _ & _ & Hkind).
  unfold lock_inv. rewrite Hgs.
  destruct Hkind as [(Hout & Hin & Hmu & Hmu' & _)
                    | [(Hin & Hout & Hmu' & _) | (Hin & Hin' & Hmu')]].
  - (* Lock *)
    split; [congruence |]. split.
    + intros _. exists i, g'. split; [by eapply lookup_stepped | done].
    + intros a b ga gb Ha Hb Hsa Hsb.
      destruct (lookup_after_step _ _ _ _ _ _ Hi Ha) as [[-> ->] | [_ Ha']];
        destruct (lookup_after_step _ _ _ _ _ _ Hi Hb) as [[-> ->] | [_ Hb']];
        try done.
      * rewrite (Hfree Hmu b gb Hb') in Hsb. discriminate.
      * rewrite (Hfree Hmu a ga Ha') in Hsa. discriminate.
      * rewrite (Hfree Hmu a ga Ha') in Hsa. discriminate.
  - (* Unlock *)
    split; [| split; [congruence |]].
    + intros _ j gj Hj.
      destruct (lookup_after_step _ _ _ _ _ _ Hi Hj) as [[-> ->] | [Hne Hj']];
        [done |].
      destruct (in_section gj) eqn:Hs; [| done].
      destruct Hne. by eapply Honly.
    + intros a b ga gb Ha Hb Hsa Hsb.
      destruct (lookup_after_step _ _ _ _ _ _ Hi Ha) as [[-> ->] | [_ Ha']];
        [congruence |].
      destruct (lookup_after_step _ _ _ _ _ _ Hi Hb) as [[-> ->] | [_ Hb']];
        [congruence |].
      by eapply Honly.
  - (* a step of the body *)
    assert (Hmu : mu w = true).
    { destruct (mu w) eqn:E; [done |]. rewrite (Hfree eq_refl i g Hi) in Hin.
      discriminate. }
    split; [congruence |]. split.
    + intros _. exists i, g'. split; [by eapply lookup_stepped | done].
    + intros a b ga gb Ha Hb Hsa Hsb.
      assert (Hall : forall c gc, <[i := g']> (goroutines w) !! c = Some gc ->
                       in_section gc = true -> c = i).
      { intros c gc Hc Hsc.
        destruct (lookup_after_step _ _ _ _ _ _ Hi Hc) as [[-> ->] | [_ Hc']];
          [done |]. by eapply Honly. }
      rewrite (Hall a ga Ha Hsa). by rewrite (Hall b gb Hb Hsb).
Qed.

(** While a goroutine is in the critical section, no other one is between
    the two steps of [GetWithReason]. *)
Lemma alone_in_section w i g j id sec :
  lock_inv w -> goroutines w !! i = Some g -> in_section g = true ->
  goroutines w !! j = Some (Checked id sec) -> j = i.
Proof. intros (_ & _ & Honly) Hi Hs Hj. by eapply (Honly j i). Qed.

Lemma well_formed_shrink (h h' : list storedSecret) (m m' : gmap string nat) :
  m' ⊆ m -> (length h <= length h')%nat ->
  well_formed h m -> well_formed h' m'.
Proof.
  intros Hsub Hlen [Hin Hinj]. split.
  - intros id sec H. pose proof (lookup_weaken _ _ _ _ H Hsub) as H'.
    pose proof (Hin id sec H'). lia.
  - intros id1 id2 sec H1 H2.
    eapply Hinj; eapply lookup_weaken; eauto.
Qed.

Lemma well_formed_put (h : list storedSecret) (m : gmap string nat) id e :
  well_formed h m -> well_formed (h ++ [e]) (<[id := length h]> m).
Proof.
  intros [Hin Hinj]. split.
  - intros id' sec H. rewrite length_app. cbn.
    apply lookup_insert_Some in H as [[_ <-] | [_ H]]; [lia |].
    pose proof (Hin id' sec H). lia.
  - intros id1 id2 sec H1 H2.
    apply lookup_insert_Some in H1 as [[E1 <-] | [N1 H1]];
      apply lookup_insert_Some in H2 as [[E2 E2'] | [N2 H2]].
    + congruence.
    + pose proof (Hin id2 _ H2). lia.
    + subst sec. pose proof (Hin id1 _ H1). lia.
    + by eapply Hinj.
Qed.

Lemma step_well_formed i now w w' :
  well_formed (heap w) (secrets w) -> step i now w = Some w' ->
  well_formed (heap w') (secrets w').
Proof.
  intros Hwf H. step_cases H; cbn; try done.
  - by apply well_formed_put.
  - eapply well_formed_shrink; [apply delete_subseteq | done | done].
  - eapply well_formed_shrink; [apply delete_subseteq | done | done].
  - eapply well_formed_shrink; [apply delete_subseteq | done | done].
  - eapply well_formed_shrink; [apply map_filter_subseteq | done | done].
  - eapply well_formed_shrink; [apply delete_subseteq | | done].
    by rewrite length_insert.
  - eapply well_formed_shrink; [done | | done]. by rewrite length_insert.
Qed.

Lemma step_ptr_inv i now w w' :
  lock_inv w -> ptr_inv w -> step i now w = Some w' -> ptr_inv w'.
Proof.
  intros Hlock Hptr H.
  step_cases H; intros j id sec Hj; cbn in Hj |- *;
    (destruct (lookup_after_step _ _ _ _ _ _ Hg Hj) as [[-> Heq] | [Hne Hj']];
     [ first [discriminate Heq | by injection Heq as <- <-]
     | first [ by eapply Hptr
             | destruct Hne;
               by eapply (alone_in_section w i _ j id sec Hlock Hg) ] ]).
Qed.

(** ** Goroutines: one view, many callers *)

Lemma got_Leaving_ne id id' b r :
  id' <> id -> got id (Leaving (OpGet id') (RetGet b r)) = None.
Proof. intros Hne. cbn. by rewrite decide_False. Qed.

Lemma got_Leaving_eq id b r :
  got id (Leaving (OpGet id) (RetGet b r)) = Some (b, r).
Proof. cbn. by rewrite decide_True. Qed.

Lemma not_succeeded id g :
  got id g = None \/ got id g = Some (None, ReasonNotFound) ->
  ~ succeeded id g.
Proof. intros [H | H] (b & r & Hs); congruence. Qed.

Lemma not_succeeded_nil id g r :
  got id g = Some (None, r) -> ~ succeeded id g.
Proof. intros H (b & r' & Hs). congruence. Qed.

Lemma exact_quiet_step id e0 w w' i g g' :
  goroutines w !! i = Some g ->
  goroutines w' = <[i := g']> (goroutines w) ->
  quiet_step id g g' ->
  exact id e0 w -> exact id e0 w'.
Proof.
  intros Hi Hgs Hq (i0 & gi & Hi0 & Hgot & Hrest). unfold exact. rewrite Hgs.
  destruct (decide (i0 = i)) as [-> | Hne].
  - assert (gi = g) by congruence; subst gi.
    exists i, g'. split; [by eapply lookup_stepped |]. split.
    + destruct Hq as [-> | [Hnone _]]; [done | congruence].
    + intros j gj Hj Hgj.
      apply list_lookup_insert_Some in Hgj as [(? & _) | [_ Hgj]];
        [congruence |]. by eapply Hrest.
  - exists i0, gi. split; [by rewrite list_lookup_insert_ne |].
    split; [done |]. intros j gj Hj Hgj.
    destruct (lookup_after_step _ _ _ _ _ _ Hi Hgj) as [[-> ->] | [_ Hgj']].
    + destruct Hq as [-> | [_ Hq]]; [by eapply Hrest | done].
    + by eapply Hrest.
Qed.

Lemma at_most_one_quiet_step id w w' i g g' :
  goroutines w !! i = Some g ->
  goroutines w' = <[i := g']> (goroutines w) ->
  quiet_step id g g' ->
  at_most_one id w -> at_most_one id w'.
Proof.
  intros Hi Hgs Hq [i0 Hrest]. exists i0. rewrite Hgs.
  intros j gj Hj Hgj.
  destruct (lookup_after_step _ _ _ _ _ _ Hi Hgj) as [[-> ->] | [_ Hgj']].
  - destruct Hq as [Heq | [_ Hq]].
    + intros (b & r & Hs). apply (Hrest i g Hj Hi). exists b, r. congruence.
    + by apply not_succeeded.
  - by eapply Hrest.
Qed.

Lemma gone_quiet_step D id e0 w w' i g g' :
  goroutines w !! i = Some g ->
  goroutines w' = <[i := g']> (goroutines w) ->
  quiet_step id g g' ->
  secrets w' !! id = None ->
  gone D id e0 w -> gone D id e0 w'.
Proof.
  intros Hi Hgs Hq Hnone [_ [Hex | [HD Ham]]]; split; try done.
  - left. by eapply exact_quiet_step.
  - right. split; [done |]. by eapply at_most_one_quiet_step.
Qed.

Lemma live_step id sec0 e0 w w' i g g' :
  goroutines w !! i = Some g ->
  goroutines w' = <[i := g']> (goroutines w) ->
  got id g' = None ->
  secrets w' !! id = Some sec0 -> heap w' !! sec0 = Some e0 ->
  live id sec0 e0 w -> live id sec0 e0 w'.
Proof.
  intros Hi Hgs Hgot Hs Hh (_ & _ & Hnone). split; [done |]. split; [done |].
  rewrite Hgs. intros j gj Hgj.
  destruct (lookup_after_step _ _ _ _ _ _ Hi Hgj) as [[-> ->] | [_ Hgj']];
    [done | by eapply Hnone].
Qed.

(** From a live entry, a step that removes it without handing out a blob. *)
Lemma live_disturbed (D : Prop) id sec0 e0 w w' i g g' :
  D ->
  goroutines w !! i = Some g ->
  goroutines w' = <[i := g']> (goroutines w) ->
  ~ succeeded id g' ->
  secrets w' !! id = None ->
  live id sec0 e0 w -> gone D id e0 w'.
Proof.
  intros HD Hi Hgs Hns Hnone (_ & _ & Hall). split; [done |]. right.
  split; [done |]. exists i. rewrite Hgs. intros j gj Hj Hgj.
  rewrite list_lookup_insert_ne in Hgj by done.
  apply not_succeeded. left. by eapply Hall.
Qed.

Lemma sweep_lookup now (h : list storedSecret) (m : gmap string nat) id :
  filter (fun kv : string * nat => kept now h kv.2 = true) m !! id =
    match m !! id with
    | Some sec => if kept now h sec then Some sec else None
    | None => None
    end.
Proof.
  rewrite map_lookup_filter. destruct (m !! id) as [sec |]; cbn; [| done].
  destruct (kept now h sec) eqn:E.
  - by rewrite option_guard_True.
  - rewrite option_guard_False; [done | congruence].
Qed.

Section Contention.

Variable disturbed : Prop.
Variable id : string.
Variable sec0 : nat.
Variable e0 : storedSecret.
Hypothesis one_view : ViewsRemaining e0 = 1.

Lemma last_view_decrement : (ViewsRemaining (decrement e0) <=? 0) = true.
Proof. cbn. by rewrite one_view. Qed.

Lemma step_gone i now w w' :
  lock_inv w -> ptr_inv w ->
  (forall g, goroutines w !! i = Some g -> no_put_on id (op_of g)) ->
  step i now w = Some w' ->
  gone disturbed id e0 w -> gone disturbed id e0 w'.
Proof.
  intros Hlock Hptr Hput H Hgone. pose proof Hgone as [Hnone _].
  step_cases H; specialize (Hput _ eq_refl); cbn in Hput;
    (eapply gone_quiet_step; [exact Hg | reflexivity | | | exact Hgone]);
    cbn [secrets].
  all: try exact Hnone.
  all: try (by left).
  all: try (rewrite lookup_delete_None; by right).
  - (* Put *) rewrite lookup_insert_ne; [done |]. intros ->. by apply Hput.
  - (* GetWithReason, expired *)
    right. split; [done |]. left. apply got_Leaving_ne. congruence.
  - (* GetWithReason, exhausted *)
    right. split; [done |]. left. apply got_Leaving_ne. congruence.
  - (* GetWithReason, no entry *)
    right. split; [done |].
    destruct (decide (id_ = id)) as [-> | Hne].
    + right. apply got_Leaving_eq.
    + left. by apply got_Leaving_ne.
  - (* expireOld *) by rewrite sweep_lookup, Hnone.
  - (* GetWithReason, second step *)
    right. split; [done |]. left. apply got_Leaving_ne.
    pose proof (Hptr i id_ sec_ Hg). congruence.
  - right. split; [done |]. left. apply got_Leaving_ne.
    pose proof (Hptr i id_ sec_ Hg). congruence.
Qed.

Lemma step_live i now w w' :
  lock_inv w -> well_formed (heap w) (secrets w) -> ptr_inv w ->
  (forall g, goroutines w !! i = Some g ->
     no_put_on id (op_of g) /\ (op_of g = OpDelete id -> disturbed)) ->
  (Expiry e0 < now -> disturbed) ->
  step i now w = Some w' ->
  live id sec0 e0 w ->
  live id sec0 e0 w' \/ gone disturbed id e0 w'.
Proof.
  intros Hlock [Hin Hinj] Hptr Hop Hclock H Hlive.
  pose proof Hlive as (Hs0 & Hh0 & Hnone).
  step_cases H; destruct (Hop _ eq_refl) as [Hput Hdel]; cbn in Hput, Hdel.
  - (* Lock *)
    left. by eapply live_step.
  - (* Put *)
    left. eapply live_step; [exact Hg | reflexivity | done | | | exact Hlive];
      cbn.
    + rewrite lookup_insert_ne; [done |]. intros ->. by apply Hput.
    + rewrite lookup_app_l; [done |]. by eapply lookup_lt_Some.
  - (* GetWithReason, first step: expired *)
    destruct (decide (id_ = id)) as [-> | Hne].
    + assert (sec_ = sec0) by congruence; subst sec_.
      assert (e_ = e0) by congruence; subst e_.
      right. eapply (live_disturbed disturbed);
        [ | exact Hg | reflexivity | | | exact Hlive].
      * apply Hclock. by apply After_true.
      * eapply not_succeeded_nil. apply got_Leaving_eq.
      * apply lookup_delete_eq.
    + left.
      eapply live_step; [exact Hg | reflexivity | | | exact Hh0 | exact Hlive];
        cbn.
      * by apply got_Leaving_ne.
      * by rewrite lookup_delete_ne.
  - (* GetWithReason, first step: no view left *)
    destruct (decide (id_ = id)) as [-> | Hne].
    + assert (sec_ = sec0) by congruence; subst sec_.
      assert (e_ = e0) by congruence; subst e_.
      rewrite one_view in Hviews. discriminate.
    + left.
      eapply live_step; [exact Hg | reflexivity | | | exact Hh0 | exact Hlive];
        cbn.
      * by apply got_Leaving_ne.
      * by rewrite lookup_delete_ne.
  - (* GetWithReason, first step: the entry can be served *)
    left. by eapply live_step.
  - (* GetWithReason, first step: no entry *)
    left.
    eapply live_step;
      [exact Hg | reflexivity | | exact Hs0 | exact Hh0 | exact Hlive].
    apply got_Leaving_ne. congruence.
  - (* Delete *)
    destruct (decide (id_ = id)) as [-> | Hne].
    + right. eapply (live_disturbed disturbed);
        [ | exact Hg | reflexivity | | | exact Hlive].
      * by apply Hdel.
      * apply not_succeeded. by left.
      * apply lookup_delete_eq.
    + left.
      eapply live_step;
        [exact Hg | reflexivity | done | | exact Hh0 | exact Hlive]; cbn.
      by rewrite lookup_delete_ne.
  - (* expireOld *)
    destruct (After now (Expiry e0)) eqn:Hafter.
    + right. eapply (live_disturbed disturbed);
        [ | exact Hg | reflexivity | | | exact Hlive].
      * apply Hclock. by apply After_true.
      * apply not_succeeded. by left.
      * cbn. rewrite sweep_lookup, Hs0. unfold kept. by rewrite Hh0, Hafter.
    + left.
      eapply live_step;
        [exact Hg | reflexivity | done | | exact Hh0 | exact Hlive]; cbn.
      rewrite sweep_lookup, Hs0. unfold kept. by rewrite Hh0, Hafter.
  - (* GetWithReason, second step: the last view *)
    pose proof (Hptr i id_ sec_ Hg) as Hp.
    destruct (decide (id_ = id)) as [-> | Hne].
    + assert (sec_ = sec0) by congruence; subst sec_.
      assert (e_ = e0) by congruence; subst e_.
      right. split; [apply lookup_delete_eq |]. left.
      exists i, (Leaving (OpGet id) (RetGet (Blob e0) ReasonNotFound)). cbn.
      split; [by eapply lookup_stepped |].
      split; [apply got_Leaving_eq |].
      intros j gj Hj Hgj. rewrite list_lookup_insert_ne in Hgj by done.
      left. by eapply Hnone.
    + assert (sec_ <> sec0) by (intros ->; apply Hne; by eapply Hinj).
      left. eapply live_step; [exact Hg | reflexivity | | | | exact Hlive];
        cbn.
      * by apply got_Leaving_ne.
      * by rewrite lookup_delete_ne.
      * by rewrite list_lookup_insert_ne.
  - (* GetWithReason, second step: views are left *)
    pose proof (Hptr i id_ sec_ Hg) as Hp.
    destruct (decide (id_ = id)) as [-> | Hne].
    + assert (sec_ = sec0) by congruence; subst sec_.
      assert (e_ = e0) by congruence; subst e_.
      rewrite last_view_decrement in Hviews. discriminate.
    + assert (sec_ <> sec0) by (intros ->; apply Hne; by eapply Hinj).
      left. eapply live_step; [exact Hg | reflexivity | | | | exact Hlive];
        cbn.
      * by apply got_Leaving_ne.
      * done.
      * by rewrite list_lookup_insert_ne.
  - (* Unlock *)
    left.
    eapply live_step;
      [exact Hg | reflexivity | | exact Hs0 | exact Hh0 | exact Hlive].
    exact (Hnone i _ Hg).
Qed.

(** One step keeps the invariant, as long as the goroutine that moves does
    not [Put] the identifier, and any revoke of it or clock reading after its
    expiry counts as a disturbance. *)
Lemma step_contention_inv i now w w' :
  (forall g, goroutines w !! i = Some g ->
     no_put_on id (op_of g) /\ (op_of g = OpDelete id -> disturbed)) ->
  (Expiry e0 < now -> disturbed) ->
  step i now w = Some w' ->
  contention_inv disturbed id sec0 e0 w ->
  contention_inv disturbed id sec0 e0 w'.
Proof.
  intros Hop Hclock H (Hlock & Hwf & Hptr & Hstate).
  split; [by eapply step_lock_inv |].
  split; [by eapply step_well_formed |].
  split; [by eapply step_ptr_inv |].
  destruct Hstate as [Hlive | Hgone].
  - by eapply step_live.
  - right. eapply step_gone; [done | done | | done | done].
    intros g Hg. by apply Hop.
Qed.

End Contention.

(** ** Goroutines: whole runs *)

Lemma step_ops i now w w' :
  step i now w = Some w' ->
  op_of <$> goroutines w' = op_of <$> goroutines w.
Proof.
  intros H. destruct (step_shape i now w w' H) as (g & g' & Hi & -> & Hop & _).
  rewrite list_fmap_insert, Hop. apply list_insert_id.
  by rewrite list_lookup_fmap, Hi.
Qed.

Lemma step_result_ok i now w w' :
  step i now w = Some w' ->
  Forall result_ok (goroutines w) -> Forall result_ok (goroutines w').
Proof.
  intros H Hall. pose proof (proj1 (Forall_lookup _ _) Hall) as Hl.
  step_cases H; cbn; apply Forall_insert; try done.
  exact (Hl i _ Hg).
Qed.

Lemma step_work_left i now w w' :
  step i now w = Some w' -> (work_left w' < work_left w)%nat.
Proof.
  intros H.
  destruct (step_shape i now w w' H) as (g & g' & Hi & Hgs & _ & Hlt & _).
  unfold work_left. rewrite Hgs. clear -Hi Hlt.
  revert i Hi. induction (goroutines w) as [| a gs IH]; intros i Hi; [done |].
  destruct i as [| i]; cbn in *.
  - injection Hi as ->. by apply Nat.add_lt_mono_r.
  - specialize (IH i Hi). by apply Nat.add_lt_mono_l.
Qed.

(** A schedule cannot be longer than the work there is. *)
Lemma run_schedule_length sched w w' :
  run_schedule sched w = Some w' ->
  (length sched + work_left w' <= work_left w)%nat.
Proof.
  revert w. induction sched as [| [i now] sched IH]; intros w H; cbn in *.
  - injection H as ->. lia.
  - destruct (step i now w) as [w1 |] eqn:Hstep; [| discriminate].
    pose proof (step_work_left i now w w1 Hstep). specialize (IH w1 H). lia.
Qed.

Lemma work_left_start h m ops : work_left (start h m ops) = (4 * length ops)%nat.
Proof.
  unfold work_left, start. cbn. induction ops as [| o ops IH]; cbn; lia.
Qed.

Lemma run_schedule_ops sched w w' :
  run_schedule sched w = Some w' ->
  op_of <$> goroutines w' = op_of <$> goroutines w.
Proof.
  revert w. induction sched as [| [i now] sched IH]; intros w H; cbn in *.
  - by injection H as ->.
  - destruct (step i now w) as [w1 |] eqn:Hstep; [| discriminate].
    rewrite (IH w1 H). by eapply step_ops.
Qed.

Lemma run_schedule_result_ok sched w w' :
  run_schedule sched w = Some w' ->
  Forall result_ok (goroutines w) -> Forall result_ok (goroutines w').
Proof.
  revert w. induction sched as [| [i now] sched IH]; intros w H Hall; cbn in *.
  - by injection H as <-.
  - destruct (step i now w) as [w1 |] eqn:Hstep; [| discriminate].
    apply (IH w1 H). by eapply step_result_ok.
Qed.

Lemma ops_start h m ops : op_of <$> goroutines (start h m ops) = ops.
Proof.
  unfold start. cbn. rewrite <- list_fmap_compose.
  induction ops as [| o ops IH]; cbn; [done | by rewrite IH].
Qed.

(** The operation of goroutine [j] is the [j]-th call. *)
Lemma goroutine_op (gs : list Goroutine) ops j g :
  op_of <$> gs = ops -> gs !! j = Some g -> ops !! j = Some (op_of g).
Proof. intros <- H. by rewrite list_lookup_fmap, H. Qed.

Lemma op_goroutine (gs : list Goroutine) ops j o :
  op_of <$> gs = ops -> ops !! j = Some o ->
  exists g, gs !! j = Some g /\ op_of g = o.
Proof.
  intros <- H. rewrite list_lookup_fmap in H.
  destruct (gs !! j) as [g |]; [| done]. injection H as <-. eauto.
Qed.

Lemma run_contention_inv disturbed id sec0 e0 sched w w' :
  ViewsRemaining e0 = 1 ->
  Forall (fun o => no_put_on id o /\ (o = OpDelete id -> disturbed))
    (op_of <$> goroutines w) ->
  Forall (fun e : nat * Time => Expiry e0 < e.2 -> disturbed) sched ->
  run_schedule sched w = Some w' ->
  contention_inv disturbed id sec0 e0 w ->
  contention_inv disturbed id sec0 e0 w'.
Proof.
  intros Hone. revert w.
  induction sched as [| [i now] sched IH]; intros w Hops Hclock H Hinv;
    cbn in *.
  - by injection H as <-.
  - destruct (step i now w) as [w1 |] eqn:Hstep; [| discriminate].
    inversion Hclock as [| ? ? Hnow Hrest]; subst.
    apply (IH w1); [| done | done |].
    + by rewrite (step_ops i now w w1 Hstep).
    + eapply (step_contention_inv disturbed id sec0 e0 Hone i now w w1);
        [| exact Hnow | exact Hstep | exact Hinv].
      intros g Hg.
      apply (proj1 (Forall_lookup _ _) Hops i).
      by rewrite list_lookup_fmap, Hg.
Qed.

Lemma start_contention_inv disturbed id sec0 e0 h m ops :
  well_formed h m -> m !! id = Some sec0 -> h !! sec0 = Some e0 ->
  contention_inv disturbed id sec0 e0 (start h m ops).
Proof.
  intros Hwf Hm Hh.
  assert (Hw : forall j g, (Waiting <$> ops) !! j = Some g ->
                 exists o, g = Waiting o).
  { intros j g Hj. rewrite list_lookup_fmap in Hj.
    destruct (ops !! j) as [o |]; [| done]. injection Hj as <-. eauto. }
  split; [| split; [done | split]].
  - split; [| split]; cbn.
    + intros _ j g Hj. by destruct (Hw j g Hj) as [o ->].
    + discriminate.
    + intros i j gi gj Hi _ Hs. by destruct (Hw i gi Hi) as [o ->].
  - intros j id' sec Hj. cbn in Hj. by destruct (Hw j _ Hj).
  - left. split; [done |]. split; [done |].
    intros j g Hj. cbn in Hj. by destruct (Hw j g Hj) as [o ->].
Qed.

Lemma not_all_returned (gs : list Goroutine) :
  forallb has_returned gs <> true ->
  exists j g, gs !! j = Some g /\ has_returned g = false.
Proof.
  induction gs as [| a gs IH]; cbn; [done |].
  destruct (has_returned a) eqn:E; cbn.
  - intros H. destruct (IH H) as (j & g & Hj & Hg). by exists (S j), g.
  - intros _. by exists 0%nat, a.
Qed.

Lemma all_returned (gs : list Goroutine) j g :
  forallb has_returned gs = true -> gs !! j = Some g ->
  exists o r, g = Returned o r.
Proof.
  intros Hall Hj. rewrite forallb_forall in Hall.
  assert (Hr : has_returned g = true).
  { apply Hall. apply list_elem_of_In. by eapply list_elem_of_lookup_2. }
  destruct g; try discriminate. eauto.
Qed.

(** No deadlock: as long as a call has not returned, some goroutine can take
    a step, whatever the clock reads. *)
Lemma progress w :
  lock_inv w -> well_formed (heap w) (secrets w) -> ptr_inv w ->
  ~ finished w -> exists i, forall now, is_Some (step i now w).
Proof.
  intros (Hfree & Hheld & _) [Hin _] Hptr Hnf.
  destruct (mu w) eqn:Hmu.
  - destruct (Hheld eq_refl) as (j & g & Hj & Hs). exists j. intros now.
    unfold step. rewrite Hj.
    destruct g as [o | o | id sec | o r | o r]; try discriminate.
    + destruct o as [id blob mv ex | id | id |]; try by eexists.
      destruct (secrets w !! id) as [sec |] eqn:Hsec; [| by eexists].
      destruct (lookup_lt_is_Some_2 (heap w) sec (Hin id sec Hsec))
        as [e ->].
      destruct (After now (Expiry e)); [by eexists |].
      destruct (ViewsRemaining e <=? 0); by eexists.
    + pose proof (Hptr j id sec Hj) as Hsec.
      destruct (lookup_lt_is_Some_2 (heap w) sec (Hin id sec Hsec))
        as [e ->].
      by eexists.
    + by eexists.
  - destruct (not_all_returned _ Hnf) as (j & g & Hj & Hr). exists j.
    intros now. unfold step. rewrite Hj, Hmu.
    pose proof (Hfree eq_refl j g Hj) as Hs.
    destruct g; try discriminate. by eexists.
Qed.

Lemma got_Some id g b r :
  got id g = Some (b, r) ->
  g = Leaving (OpGet id) (RetGet b r) \/ g = Returned (OpGet id) (RetGet b r).
Proof.
  destruct g as [o | o | id' sec | o ret | o ret]; cbn; try done;
    destruct o as [? ? ? ? | id' | ? |]; try done;
    destruct ret; try done;
    case_decide; intros [= <- <-]; subst; auto.
Qed.

(** A call of [GetWithReason(id)] that has returned got something. *)
Lemma returned_got id o r :
  result_ok (Returned o r) -> o = OpGet id ->
  exists b reason, r = RetGet b reason /\
    got id (Returned o r) = Some (b, reason).
Proof.
  intros Hok ->. cbn in Hok. destruct r as [| b reason | |]; try done.
  exists b, reason. split; [done |]. cbn. by rewrite decide_True.
Qed.

Lemma last_view_well_formed : well_formed last_view_heap last_view_map.
Proof.
  unfold last_view_map. split.
  - intros id sec H. apply lookup_singleton_Some in H as [_ <-]. cbn. lia.
  - intros id1 id2 sec H1 H2.
    apply lookup_singleton_Some in H1 as [<- _].
    by apply lookup_singleton_Some in H2 as [<- _].
Qed.

(** C2 (as stated) fails in three ways.  A revoke that takes the lock first
    leaves the one caller with (nil, NotFound): no success.  A caller that
    reads the clock after the expiry gets (nil, Expired): no success.  A
    [Put] on the same identifier between two callers gives both a blob. *)
Lemma one_view_contention_counterexamples :
  goroutines <$>
    run_schedule [(0%nat, 0); (0%nat, 0); (0%nat, 0);
                  (1%nat, 0); (1%nat, 0); (1%nat, 0)]
      (start last_view_heap last_view_map [OpDelete "k1"; OpGet "k1"])
    = Some [Returned (OpDelete "k1") (RetDelete true);
            Returned (OpGet "k1") (RetGet None ReasonNotFound)] /\
  goroutines <$>
    run_schedule [(0%nat, time_Unix 101); (0%nat, time_Unix 101);
                  (0%nat, time_Unix 101)]
      (start last_view_heap last_view_map [OpGet "k1"])
    = Some [Returned (OpGet "k1") (RetGet None ReasonExpired)] /\
  goroutines <$>
    run_schedule [(0%nat, 0); (0%nat, 0); (0%nat, 0); (0%nat, 0);
                  (1%nat, 0); (1%nat, 0); (1%nat, 0);
                  (2%nat, 0); (2%nat, 0); (2%nat, 0); (2%nat, 0)]
      (start last_view_heap last_view_map
         [OpGet "k1"; OpPut "k1" sample_blob 1 (time_Unix 100); OpGet "k1"])
    = Some [Returned (OpGet "k1") (RetGet sample_blob ReasonNotFound);
            Returned (OpPut "k1" sample_blob 1 (time_Unix 100)) RetPut;
            Returned (OpGet "k1") (RetGet sample_blob ReasonNotFound)].
Proof. split; [| split]; reflexivity. Qed.

(** C2 (amended): fire any calls at a store in which [id] has one view left
    and which nobody holds, none of them a [Put] on [id], and let the
    goroutines interleave in any way, each taking and releasing [s.mu] as
    the methods do, with any clock readings.
    - At any point of the run at most one goroutine has got a blob for [id].
    - If moreover no call revokes [id], no clock reading is after its
      expiry, and at least one call is [GetWithReason(id)], then once all
      calls have returned exactly one caller has got the stored blob (a
      success when the blob is not nil) and every other caller of
      [GetWithReason(id)] has got (nil, NotFound).
    - The calls do return: while one has not, some goroutine can move, and
      no schedule is longer than four steps per call. *)
Theorem one_view_one_success (id : string) (sec0 : nat) (e0 : storedSecret)
    (h : list storedSecret) (m : gmap string nat) (ops : list Op)
    (sched : list (nat * Time)) (w : World) :
  well_formed h m -> m !! id = Some sec0 -> h !! sec0 = Some e0 ->
  ViewsRemaining e0 = 1 ->
  Forall (no_put_on id) ops ->
  run_schedule sched (start h m ops) = Some w ->
  (forall i j gi gj,
     goroutines w !! i = Some gi -> goroutines w !! j = Some gj ->
     succeeded id gi -> succeeded id gj -> i = j) /\
  (Forall (leaves_alone id) ops ->
   Forall (fun e : nat * Time => e.2 <= Expiry e0) sched ->
   OpGet id ∈ ops -> finished w ->
   exists i,
     goroutines w !! i
       = Some (Returned (OpGet id) (RetGet (Blob e0) ReasonNotFound)) /\
     (is_Some (Blob e0) ->
      succeeded id (Returned (OpGet id) (RetGet (Blob e0) ReasonNotFound))) /\
     forall j, j <> i -> ops !! j = Some (OpGet id) ->
       goroutines w !! j
         = Some (Returned (OpGet id) (RetGet None ReasonNotFound))) /\
  (~ finished w -> exists i, forall now, is_Some (step i now w)) /\
  (length sched <= 4 * length ops)%nat.
Proof.
  intros Hwf Hm Hh Hone Hput Hrun.
  pose proof (run_schedule_ops _ _ _ Hrun) as Hops.
  rewrite ops_start in Hops.
  pose proof (run_schedule_result_ok _ _ _ Hrun) as Hok.
  assert (Hok' : Forall result_ok (goroutines w)).
  { apply Hok. apply Forall_fmap, Forall_forall. by intros o _. }
  clear Hok.
  assert (Hany : contention_inv True id sec0 e0 w).
  { eapply run_contention_inv; [exact Hone | | | exact Hrun |].
    - rewrite ops_start. eapply Forall_impl; [exact Hput |]. by intros o Ho.
    - apply Forall_forall. by intros e _.
    - by apply start_contention_inv. }
  split; [| split; [| split]].
  - destruct Hany as (_ & _ & _ & [Hlive | [_ Hgone]]).
    + intros i j gi gj Hi _ (b & r & Hs).
      destruct Hlive as (_ & _ & Hnone). rewrite (Hnone i gi Hi) in Hs.
      discriminate.
    + assert (Ham : at_most_one id w).
      { destruct Hgone as [(i0 & gi0 & _ & _ & Hrest) | [_ Ham]]; [| done].
        exists i0. intros j g Hj Hg. apply not_succeeded. by eapply Hrest. }
      destruct Ham as [i0 Hrest]. intros i j gi gj Hi Hj Hsi Hsj.
      destruct (decide (i = i0)) as [-> | Hni];
        [| by destruct (Hrest i gi Hni Hi)].
      destruct (decide (j = i0)) as [-> | Hnj]; [done |].
      by destruct (Hrest j gj Hnj Hj).
  - intros Halone Hclock Hcaller Hfin.
    assert (Hinv : contention_inv False id sec0 e0 w).
    { eapply run_contention_inv; [exact Hone | | | exact Hrun |].
      - rewrite ops_start. apply Forall_forall. intros o Ho.
        split; [by apply (proj1 (Forall_forall _ _) Hput) |].
        intros ->. by apply (proj1 (Forall_forall _ _) Halone _ Ho).
      - eapply Forall_impl; [exact Hclock |]. intros e He. cbn in *. lia.
      - by apply start_contention_inv. }
    (* every caller has returned with a result *)
    assert (Hret : forall j, ops !! j = Some (OpGet id) ->
              exists b r,
                goroutines w !! j = Some (Returned (OpGet id) (RetGet b r)) /\
                got id (Returned (OpGet id) (RetGet b r)) = Some (b, r)).
    { intros j Hj.
      destruct (op_goroutine _ _ _ _ Hops Hj) as (g & Hg & Hop).
      destruct (all_returned _ _ _ Hfin Hg) as (o & r & ->). cbn in Hop.
      subst o.
      destruct (returned_got id (OpGet id) r) as (b & reason & -> & Hgot);
        [exact (proj1 (Forall_lookup _ _) Hok' j _ Hg) | done |].
      eauto. }
    destruct Hinv as (_ & _ & _ & [Hlive | [_ [Hex | [[] _]]]]).
    + (* the entry cannot be live: a caller has returned *)
      apply list_elem_of_lookup in Hcaller as [j Hj].
      destruct (Hret j Hj) as (b & r & Hg & Hgot).
      destruct Hlive as (_ & _ & Hnone). rewrite (Hnone j _ Hg) in Hgot.
      discriminate.
    + destruct Hex as (i & gi & Hi & Hgot & Hrest).
      destruct (all_returned _ _ _ Hfin Hi) as (o & r & ->).
      destruct (got_Some _ _ _ _ Hgot) as [[=] | [= -> ->]].
      exists i. split; [exact Hi |]. split.
      * intros [b Hb]. exists b, ReasonNotFound. by rewrite Hgot, Hb.
      * intros j Hne Hj. destruct (Hret j Hj) as (b & r & Hg & Hgj).
        destruct (Hrest j _ Hne Hg) as [Hn | Hn]; rewrite Hgj in Hn;
          [discriminate |]. by injection Hn as -> ->.
  - destruct Hany as (Hlock & Hwf' & Hptr & _). by apply progress.
  - pose proof (run_schedule_length _ _ _ Hrun) as Hlen.
    rewrite work_left_start in Hlen. lia.
Qed.

Lemma one_view_one_success_witness :
  exists w,
    run_schedule contended_schedule
      (start last_view_heap last_view_map contended_ops) = Some w /\
    finished w /\
    exists i,
      goroutines w !! i
        = Some (Returned (OpGet "k1") (RetGet sample_blob ReasonNotFound)) /\
      forall j, j <> i -> contended_ops !! j = Some (OpGet "k1") ->
        goroutines w !! j
          = Some (Returned (OpGet "k1") (RetGet None ReasonNotFound)).
Proof.
  destruct (run_schedule contended_schedule
              (start last_view_heap last_view_map contended_ops))
    as [w |] eqn:Hrun; [| vm_compute in Hrun; discriminate Hrun].
  assert (Hfin : finished w).
  { vm_compute in Hrun. injection Hrun as <-. reflexivity. }
  exists w. split; [reflexivity |]. split; [exact Hfin |].
  assert (Hput : Forall (no_put_on "k1") contended_ops).
  { unfold contended_ops.
    repeat (first [apply List.Forall_nil | apply List.Forall_cons; [by intros [] |]]). }
  destruct (one_view_one_success "k1" 0%nat
              (mkSecret sample_blob 1 (time_Unix 100) 1)
              last_view_heap last_view_map contended_ops contended_schedule w
              last_view_well_formed eq_refl eq_refl eq_refl Hput Hrun)
    as (_ & Hexact & _).
  destruct Hexact as (i & Hi & _ & Hrest).
  - unfold contended_ops.
    repeat (first [apply List.Forall_nil | apply List.Forall_cons; [exact I |]]).
  - unfold contended_schedule.
    repeat (first [apply List.Forall_nil
                  | apply List.Forall_cons; [vm_compute; discriminate |]]).
  - apply list_elem_of_here.
  - exact Hfin.
  - exists i. split; [exact Hi | exact Hrest].
Defined.

(** ** Goroutines: every run is a serial one *)

Lemma view_of_lookup (h : list storedSecret) (m : gmap string nat) id :
  view_of h m !! id = m !! id ≫= (fun sec => h !! sec).
Proof. unfold view_of. apply lookup_omap. Qed.

Lemma view_of_lookup_Some (h : list storedSecret) (m : gmap string nat) id sec e :
  m !! id = Some sec -> h !! sec = Some e -> view_of h m !! id = Some e.
Proof. intros Hm Hh. by rewrite view_of_lookup, Hm. Qed.

Lemma view_of_put (h : list storedSecret) (m : gmap string nat) id e :
  well_formed h m ->
  view_of (h ++ [e]) (<[id := length h]> m) = <[id := e]> (view_of h m).
Proof.
  intros [Hin _]. apply map_eq. intros id'. rewrite view_of_lookup.
  destruct (decide (id' = id)) as [-> | Hne].
  - rewrite !lookup_insert_eq. cbn. by rewrite list_lookup_middle.
  - rewrite !lookup_insert_ne by done. rewrite view_of_lookup.
    destruct (m !! id') as [sec |] eqn:E; cbn; [| done].
    apply lookup_app_l. by eapply Hin.
Qed.

Lemma view_of_delete (h : list storedSecret) (m : gmap string nat) id :
  view_of h (delete id m) = delete id (view_of h m).
Proof. unfold view_of. apply omap_delete. Qed.

Lemma view_of_update (h : list storedSecret) (m : gmap string nat) id sec e' :
  well_formed h m -> m !! id = Some sec ->
  view_of (<[sec := e']> h) m = <[id := e']> (view_of h m).
Proof.
  intros [Hin Hinj] Hm. apply map_eq. intros id'. rewrite view_of_lookup.
  destruct (decide (id' = id)) as [-> | Hne].
  - rewrite lookup_insert_eq, Hm. cbn. apply list_lookup_insert_eq.
    by eapply Hin.
  - rewrite lookup_insert_ne by done. rewrite view_of_lookup.
    destruct (m !! id') as [sec' |] eqn:E; cbn; [| done].
    apply list_lookup_insert_ne. intros ->. apply Hne. by eapply Hinj.
Qed.

Lemma view_of_sweep now (h : list storedSecret) (m : gmap string nat) :
  well_formed h m ->
  view_of h (filter (fun kv : string * nat => kept now h kv.2 = true) m)
    = expireOld now (view_of h m).
Proof.
  intros [Hin _]. apply map_eq. intros id.
  rewrite view_of_lookup, sweep_lookup, expireOld_lookup, view_of_lookup.
  destruct (m !! id) as [sec |] eqn:E; cbn; [| done].
  destruct (lookup_lt_is_Some_2 h sec (Hin id sec E)) as [e He].
  unfold kept. rewrite He. by destruct (After now (Expiry e)); cbn.
Qed.

(** The two steps of the body of [GetWithReason], seen on the view. *)
Lemma view_of_check now (h : list storedSecret) (m : gmap string nat) id :
  match m !! id with
  | None => call now (OpGet id) (view_of h m)
            = (view_of h m, RetGet None ReasonNotFound)
  | Some sec =>
      match h !! sec with
      | None => True
      | Some e =>
          if After now (Expiry e) then
            call now (OpGet id) (view_of h m)
              = (view_of h (delete id m), RetGet None ReasonExpired)
          else if ViewsRemaining e <=? 0 then
            call now (OpGet id) (view_of h m)
              = (view_of h (delete id m), RetGet None ReasonMaxViews)
          else True
      end
  end.
Proof.
  unfold call, GetWithReason. rewrite view_of_lookup, view_of_delete.
  destruct (m !! id) as [sec |]; cbn; [| done].
  destruct (h !! sec) as [e |]; cbn; [| done].
  destruct (After now (Expiry e)); [done |].
  by destruct (ViewsRemaining e <=? 0).
Qed.

Lemma view_of_act now (h : list storedSecret) (m : gmap string nat) id sec e :
  well_formed h m -> m !! id = Some sec -> h !! sec = Some e ->
  After now (Expiry e) = false -> (ViewsRemaining e <=? 0) = false ->
  call now (OpGet id) (view_of h m) =
    (view_of (<[sec := decrement e]> h)
       (if ViewsRemaining (decrement e) <=? 0 then delete id m else m),
     RetGet (Blob e) ReasonNotFound).
Proof.
  intros Hwf Hm Hh Hafter Hviews. unfold call, GetWithReason.
  rewrite (view_of_lookup_Some h m id sec e Hm Hh), Hafter, Hviews.
  destruct (ViewsRemaining (decrement e) <=? 0).
  - by rewrite view_of_delete, (view_of_update h m id sec _ Hwf Hm).
  - by rewrite (view_of_update h m id sec _ Hwf Hm).
Qed.

Lemma hist_ok_same seen seen' hist (gs : list Goroutine) i g g' :
  gs !! i = Some g -> outcome_of g' = outcome_of g -> seen ⊆ seen' ->
  hist_ok seen hist gs -> hist_ok seen' hist (<[i := g']> gs).
Proof.
  intros Hi Hout Hsub (Hin & Hof & Hnd). split; [| split; [| done]].
  - intros j gj o r Hj Ho.
    destruct (lookup_after_step _ _ _ _ _ _ Hi Hj) as [[-> ->] | [_ Hj']].
    + eapply Hin; [exact Hi | congruence].
    + by eapply Hin.
  - intros j now o r He. destruct (Hof j now o r He) as (Hs & gj & Hj & Ho).
    split; [by apply Hsub |].
    destruct (decide (j = i)) as [-> | Hne].
    + exists g'. split; [by eapply lookup_stepped | congruence].
    + exists gj. by rewrite list_lookup_insert_ne.
Qed.

Lemma hist_ok_append seen seen' hist (gs : list Goroutine) i g now o r :
  gs !! i = Some g -> outcome_of g = None ->
  (i, now) ∈ seen' -> seen ⊆ seen' ->
  hist_ok seen hist gs ->
  hist_ok seen' (hist ++ [(i, now, o, r)]) (<[i := Leaving o r]> gs).
Proof.
  intros Hi Hnone Hnow Hsub (Hin & Hof & Hnd).
  assert (Hfresh : forall now' o' r', (i, now', o', r') ∉ hist).
  { intros now' o' r' He. destruct (Hof _ _ _ _ He) as (_ & g0 & Hg0 & Ho).
    congruence. }
  split; [| split].
  - intros j gj o' r' Hj Ho.
    destruct (lookup_after_step _ _ _ _ _ _ Hi Hj) as [[-> ->] | [_ Hj']].
    + injection Ho as <- <-. exists now. apply elem_of_app. right.
      by apply list_elem_of_singleton.
    + destruct (Hin j gj o' r' Hj' Ho) as [now' He]. exists now'.
      apply elem_of_app. by left.
  - intros j now' o' r' He. apply elem_of_app in He as [He | He].
    + destruct (Hof _ _ _ _ He) as (Hs & gj & Hj & Ho).
      split; [by apply Hsub |]. exists gj. split; [| done].
      rewrite list_lookup_insert_ne; [done |]. intros <-.
      by apply (Hfresh now' o' r').
    + apply list_elem_of_singleton in He. injection He as -> -> -> ->.
      split; [done |]. exists (Leaving o r).
      split; [by eapply lookup_stepped | done].
  - rewrite fmap_app. apply NoDup_app. split; [done |]. split.
    + intros j Hj Hj'. cbn in Hj'. apply list_elem_of_singleton in Hj'.
      subst j. apply list_elem_of_fmap in Hj as ([[[j n'] o'] r'] & Hj & He).
      cbn in Hj. subst j. by apply (Hfresh n' o' r').
    + cbn. apply NoDup_singleton.
Qed.

Lemma step_checked_inv seen i now w w' :
  lock_inv w -> checked_inv seen w -> step i now w = Some w' ->
  checked_inv (seen ++ [(i, now)]) w'.
Proof.
  intros Hlock Hck H.
  assert (Hmono : forall j n, (j, n) ∈ seen -> (j, n) ∈ seen ++ [(i, now)]).
  { intros j n Hj. apply elem_of_app. by left. }
  step_cases H; intros j id sec Hj; cbn in Hj |- *;
    (destruct (lookup_after_step _ _ _ _ _ _ Hg Hj) as [[-> Heq] | [Hne Hj']];
     [ first [ discriminate Heq
             | injection Heq as <- <-; exists now, e_;
               split; [apply elem_of_app; right;
                       by apply list_elem_of_singleton | done] ]
     | first [ destruct (Hck j id sec Hj') as (n & e & Hn & He' & Ha & Hv);
               exists n, e; split; [by apply Hmono | done]
             | destruct Hne;
               by eapply (alone_in_section w i _ j id sec Hlock Hg) ] ]).
Qed.

Lemma serial_step s0 hist s i now o s' r :
  serial s0 hist s -> call now o s = (s', r) ->
  serial s0 (hist ++ [(i, now, o, r)]) s'.
Proof.
  intros Hs Hc. pose proof (serial_snoc s0 hist s i now o Hs) as H.
  by rewrite Hc in H.
Qed.

(** One step of a goroutine: the history stays as it is, or grows by the
    call whose body has just been completed. *)
Lemma step_serial_inv s0 seen i now w w' :
  step i now w = Some w' ->
  serial_inv s0 seen w -> serial_inv s0 (seen ++ [(i, now)]) w'.
Proof.
  intros H (Hlock & Hwf & Hptr & Hck & hist & Hser & Hok).
  split; [by eapply step_lock_inv |].
  split; [by eapply step_well_formed |].
  split; [by eapply step_ptr_inv |].
  split; [by eapply step_checked_inv |].
  assert (Hsub : seen ⊆ seen ++ [(i, now)]).
  { intros e He. apply elem_of_app. by left. }
  assert (Hnow : (i, now) ∈ seen ++ [(i, now)]).
  { apply elem_of_app. right. by apply list_elem_of_singleton. }
  unfold view in *.
  step_cases H; cbn [heap secrets goroutines].
  - (* Lock *)
    exists hist. split; [done |]. by eapply hist_ok_same.
  - (* Put *)
    eexists. split; [| by eapply (hist_ok_append seen _ hist _ i _ now)].
    eapply serial_step; [exact Hser |]. cbn. unfold Put.
    by rewrite view_of_put.
  - (* GetWithReason: expired *)
    eexists. split; [| by eapply (hist_ok_append seen _ hist _ i _ now)].
    eapply serial_step; [exact Hser |].
    pose proof (view_of_check now (heap w) (secrets w) id_) as Hc.
    by rewrite Hsec, He, Hafter in Hc.
  - (* GetWithReason: no view left *)
    eexists. split; [| by eapply (hist_ok_append seen _ hist _ i _ now)].
    eapply serial_step; [exact Hser |].
    pose proof (view_of_check now (heap w) (secrets w) id_) as Hc.
    by rewrite Hsec, He, Hafter, Hviews in Hc.
  - (* GetWithReason: the tests passed *)
    exists hist. split; [done |]. by eapply hist_ok_same.
  - (* GetWithReason: no entry *)
    eexists. split; [| by eapply (hist_ok_append seen _ hist _ i _ now)].
    eapply serial_step; [exact Hser |].
    pose proof (view_of_check now (heap w) (secrets w) id_) as Hc.
    by rewrite Hsec in Hc.
  - (* Delete *)
    eexists. split; [| by eapply (hist_ok_append seen _ hist _ i _ now)].
    eapply serial_step; [exact Hser |]. cbn. unfold Delete.
    rewrite view_of_delete, view_of_lookup.
    destruct (secrets w !! id_) as [sec |] eqn:Hsec; cbn; [| done].
    destruct Hwf as [Hin _].
    by destruct (lookup_lt_is_Some_2 (heap w) sec (Hin id_ sec Hsec))
      as [e ->].
  - (* expireOld *)
    eexists. split; [| by eapply (hist_ok_append seen _ hist _ i _ now)].
    eapply serial_step; [exact Hser |]. cbn. by rewrite view_of_sweep.
  - (* GetWithReason, second step: the last view *)
    destruct (Hck i id_ sec_ Hg) as (now0 & e0 & Hseen & He0 & Hafter & Hv).
    assert (e0 = e_) by congruence; subst e0.
    eexists. split; [| eapply (hist_ok_append seen _ hist _ i _ now0); eauto].
    eapply serial_step; [exact Hser |].
    rewrite (view_of_act now0 (heap w) (secrets w) id_ sec_ e_); try done.
    + by rewrite Hviews.
    + by eapply Hptr.
  - (* GetWithReason, second step: views are left *)
    destruct (Hck i id_ sec_ Hg) as (now0 & e0 & Hseen & He0 & Hafter & Hv).
    assert (e0 = e_) by congruence; subst e0.
    eexists. split; [| eapply (hist_ok_append seen _ hist _ i _ now0); eauto].
    eapply serial_step; [exact Hser |].
    rewrite (view_of_act now0 (heap w) (secrets w) id_ sec_ e_); try done.
    + by rewrite Hviews.
    + by eapply Hptr.
  - (* Unlock *)
    exists hist. split; [done |]. by eapply hist_ok_same.
Qed.

Lemma run_serial_inv s0 sched seen w w' :
  run_schedule sched w = Some w' ->
  serial_inv s0 seen w -> serial_inv s0 (seen ++ sched) w'.
Proof.
  revert seen w. induction sched as [| [i now] sched IH]; intros seen w H Hinv;
    cbn in H.
  - injection H as <-. by rewrite app_nil_r.
  - destruct (step i now w) as [w1 |] eqn:Hstep; [| discriminate].
    replace (seen ++ (i, now) :: sched) with ((seen ++ [(i, now)]) ++ sched)
      by (by rewrite <- app_assoc).
    apply (IH _ w1 H). by eapply step_serial_inv.
Qed.

Lemma start_serial_inv h m ops :
  well_formed h m -> serial_inv (view_of h m) [] (start h m ops).
Proof.
  intros Hwf.
  assert (Hw : forall j g, (Waiting <$> ops) !! j = Some g ->
                 exists o, g = Waiting o).
  { intros j g Hj. rewrite list_lookup_fmap in Hj.
    destruct (ops !! j) as [o |]; [| done]. injection Hj as <-. eauto. }
  split; [| split; [done | split; [| split]]].
  - split; [| split]; cbn.
    + intros _ j g Hj. by destruct (Hw j g Hj) as [o ->].
    + discriminate.
    + intros i j gi gj Hi _ Hs. by destruct (Hw i gi Hi) as [o ->].
  - intros j id' sec Hj. cbn in Hj. by destruct (Hw j _ Hj).
  - intros j id' sec Hj. cbn in Hj. by destruct (Hw j _ Hj).
  - exists []. split; [apply serial_nil |]. split; [| split].
    + intros j g o r Hj Ho. cbn in Hj. destruct (Hw j g Hj) as [o' ->].
      discriminate.
    + intros j now o r He. by apply elem_of_nil in He.
    + apply NoDup_nil_2.
Qed.

(** Every run is a serial one: whatever the schedule, the store the
    goroutines have reached is the one a serial history of calls leads to,
    in which every call whose body has run appears once, with what it
    returned and a clock reading it got. *)
Theorem runs_are_serial h m ops sched w :
  well_formed h m ->
  run_schedule sched (start h m ops) = Some w ->
  exists hist,
    serial (view_of h m) hist (view w) /\
    hist_ok sched hist (goroutines w).
Proof.
  intros Hwf Hrun.
  destruct (run_serial_inv (view_of h m) sched [] _ _ Hrun
              (start_serial_inv h m ops Hwf))
    as (_ & _ & _ & _ & hist & Hser & Hok).
  eauto.
Qed.

Lemma call_exec now o (s : Store) : (call now o s).1 = exec now o s.
Proof.
  destruct o as [id blob mv ex | id | id |]; cbn; try done.
  by destruct (GetWithReason now id s) as [s' [b r]].
Qed.

Lemma serial_reachable s0 hist s :
  serial s0 hist s -> reachable s0 ->
  Forall (fun e : nat * Time * Op * Ret => positive_put e.1.2) hist ->
  reachable s.
Proof.
  induction 1 as [| hist s' i now o Hser IH]; intros Hr Hall; [done |].
  apply Forall_app in Hall as [Hall Hlast].
  rewrite Forall_singleton in Hlast. cbn in Hlast.
  rewrite call_exec. apply reachable_exec; [by apply IH | exact Hlast].
Qed.

Lemma outcome_op g o r : outcome_of g = Some (o, r) -> op_of g = o.
Proof. destruct g; cbn; congruence. Qed.

(** X16.  The invariants of the store hold at every point of every
    concurrent run: the store the goroutines see is one that calls made one
    at a time lead to. *)
Corollary concurrent_store_reachable h m ops sched w :
  well_formed h m -> reachable (view_of h m) -> Forall positive_put ops ->
  run_schedule sched (start h m ops) = Some w ->
  reachable (view w).
Proof.
  intros Hwf Hr Hput Hrun.
  destruct (runs_are_serial h m ops sched w Hwf Hrun)
    as (hist & Hser & _ & Hof & _).
  pose proof (run_schedule_ops _ _ _ Hrun) as Hops. rewrite ops_start in Hops.
  eapply serial_reachable; [exact Hser | exact Hr |].
  apply Forall_forall. intros [[[j now] o] r] He. cbn.
  destruct (Hof j now o r He) as (_ & g & Hg & Ho).
  pose proof (goroutine_op _ _ _ _ Hops Hg) as Hj.
  rewrite (outcome_op _ _ _ Ho) in Hj.
  exact (proj1 (Forall_lookup _ _) Hput j o Hj).
Qed.

(** Every entry of a serial history is a call made on a store that calls
    made one at a time lead to. *)
Lemma serial_entry s0 hist s j now o r :
  serial s0 hist s -> reachable s0 ->
  Forall (fun e : nat * Time * Op * Ret => positive_put e.1.2) hist ->
  (j, now, o, r) ∈ hist ->
  exists s', reachable s' /\ r = (call now o s').2.
Proof.
  induction 1 as [| hist s' i now' o' Hser IH]; intros Hr Hall He.
  - by apply elem_of_nil in He.
  - apply Forall_app in Hall as [Hall _].
    apply elem_of_app in He as [He | He]; [by apply IH |].
    apply list_elem_of_singleton in He. injection He as -> -> -> ->.
    exists s'. split; [| done]. by eapply serial_reachable.
Qed.

(** X15.  In a concurrent run on a store that only sees [Put] with a positive
    [max_views], no caller of [GetWithReason] is ever told [ReasonMaxViews]. *)
Corollary concurrent_never_exhausted h m ops sched w j g id b reason :
  well_formed h m -> reachable (view_of h m) -> Forall positive_put ops ->
  run_schedule sched (start h m ops) = Some w ->
  goroutines w !! j = Some g -> got id g = Some (b, reason) ->
  reason <> ReasonMaxViews.
Proof.
  intros Hwf Hr Hput Hrun Hg Hgot.
  destruct (runs_are_serial h m ops sched w Hwf Hrun)
    as (hist & Hser & Hin & Hof & _).
  pose proof (run_schedule_ops _ _ _ Hrun) as Hops. rewrite ops_start in Hops.
  assert (Hall : Forall (fun e : nat * Time * Op * Ret => positive_put e.1.2)
                   hist).
  { apply Forall_forall. intros [[[j' now] o] r] He. cbn.
    destruct (Hof j' now o r He) as (_ & g' & Hg' & Ho).
    pose proof (goroutine_op _ _ _ _ Hops Hg') as Hj.
    rewrite (outcome_op _ _ _ Ho) in Hj.
    exact (proj1 (Forall_lookup _ _) Hput j' o Hj). }
  assert (Hout : outcome_of g = Some (OpGet id, RetGet b reason)).
  { by destruct (got_Some _ _ _ _ Hgot) as [-> | ->]. }
  destruct (Hin j g _ _ Hg Hout) as [now He].
  destruct (serial_entry _ _ _ _ _ _ _ Hser Hr Hall He) as (s' & Hs' & Hret).
  cbn in Hret.
  pose proof (never_exhausted now id s' (reachable_views_positive s' Hs')) as Hn.
  destruct (GetWithReason now id s') as [s'' [b' reason']].
  cbn in Hn. by injection Hret as -> ->.
Qed.

(** ** The scenarios of the specification, run on the model *)

(** Two views: the first call returns the blob and leaves one view, the
    second returns the blob and removes the entry, the third finds nothing. *)
Example scenario_two_views :
  GetWithReason (time_Unix 40) "k1" sample_store
    = (<["k1" := mkSecret sample_blob 1 (time_Unix 100) 2]> NewStore,
       (sample_blob, ReasonNotFound)) /\
  GetWithReason (time_Unix 41) "k1"
      (GetWithReason (time_Unix 40) "k1" sample_store).1
    = (NewStore, (sample_blob, ReasonNotFound)) /\
  GetWithReason (time_Unix 42) "k1" NewStore
    = (NewStore, (None, ReasonNotFound)).
Proof. repeat split. Qed.

(** Five views, one second to live, read two seconds later. *)
Example scenario_expired :
  GetWithReason (time_Unix 2) "k2"
      (Put "k2" sample_blob 5 (time_Unix 1) NewStore)
    = (NewStore, (None, ReasonExpired)).
Proof. reflexivity. Qed.

(** The decoder on well-formed and ill-formed encodings: ASCII, the euro
    sign, an emoji; an overlong encoding, a surrogate, a truncated
    sequence. *)
Example rune_size_samples :
  crypto.rune_size "A" = Some 1%nat /\
  crypto.rune_size (String (ascii_of_N 0xE2) (String (ascii_of_N 0x82)
                      (String (ascii_of_N 0xAC) EmptyString))) = Some 3%nat /\
  crypto.rune_size (String (ascii_of_N 0xF0) (String (ascii_of_N 0x9F)
                      (String (ascii_of_N 0x98) (String (ascii_of_N 0x80)
                         EmptyString)))) = Some 4%nat /\
  crypto.rune_size (String (ascii_of_N 0xC0) (String (ascii_of_N 0x80)
                      EmptyString)) = None /\
  crypto.rune_size (String (ascii_of_N 0xED) (String (ascii_of_N 0xA0)
                      (String (ascii_of_N 0x80) EmptyString))) = None /\
  crypto.rune_size (String (ascii_of_N 0xE2) (String (ascii_of_N 0x82)
                      EmptyString)) = None.
Proof. repeat split. Qed.

Example coerced_samples :
  crypto.coerced "3q2+7wABAgMEBQYHCAkKCwwNDg8QERITFBUWFxgZ"
    = "3q2+7wABAgMEBQYHCAkKCwwNDg8QERITFBUWFxgZ" /\
  crypto.coerced (String (ascii_of_N 0xFF) "=")
    = crypto.replacement_rune +:+ "=".
Proof. repeat split. Qed.

(* ===================================================================== *)
(** * Further properties of the code *)
(* ===================================================================== *)

(** ** Sequences of calls on the store *)

Lemma gets_absent times id (s : Store) :
  s !! id = None ->
  gets times id s = (s, replicate (length times) (None, ReasonNotFound)).
Proof.
  intros H. induction times as [| now times IH]; cbn; [done |].
  rewrite (GetWithReason_absent now id s H), IH. done.
Qed.

Lemma with_views_same (sec : storedSecret) :
  with_views sec (ViewsRemaining sec) = sec.
Proof. by destruct sec. Qed.

Lemma gets_present times id (s : Store) sec (n : nat) :
  s !! id = Some sec ->
  ViewsRemaining sec = Z.of_nat n -> 1 <= Z.of_nat n <= GoInt.max_int ->
  Forall (fun now => now <= Expiry sec) times ->
  gets times id s =
    (if decide (length times < n)%nat
     then <[id := with_views sec (Z.of_nat (n - length times))]> s
     else delete id s,
     replicate (length times `min` n) (Blob sec, ReasonNotFound) ++
     replicate (length times - n) (None, ReasonNotFound)).
Proof.
  revert s sec n. induction times as [| now times IH];
    intros s sec n Hs Hv Hn Hall.
  - cbn. rewrite decide_True by lia. rewrite Nat.sub_0_r, <- Hv.
    rewrite with_views_same. by rewrite insert_id.
  - inversion Hall as [| ? ? Hnow Hall']; subst. cbn [gets].
    rewrite (GetWithReason_served now id s sec Hs Hnow) by lia.
    destruct (decide (ViewsRemaining sec = 1)) as [E1 | N1].
    + rewrite gets_absent by apply lookup_delete_eq.
      assert (n = 1%nat) as -> by lia. cbn [length].
      rewrite decide_False by lia.
      replace (S (length times) `min` 1)%nat with 1%nat by lia.
      replace (S (length times) - 1)%nat with (length times) by lia. done.
    + set (sec' := with_views sec (ViewsRemaining sec - 1)).
      rewrite (IH (<[id := sec']> s) sec' (n - 1)%nat);
        [| apply lookup_insert_eq | cbn; lia | lia | done].
      cbn [length]. rewrite insert_insert_eq, delete_insert_eq.
      replace (S (length times) `min` n)%nat
        with (S (length times `min` (n - 1)))%nat by lia.
      replace (S (length times) - n)%nat
        with (length times - (n - 1))%nat by lia.
      replace (n - 1 - length times)%nat with (n - S (length times))%nat by lia.
      destruct (decide (length times < n - 1)%nat),
               (decide (S (length times) < n)%nat); try lia; done.
Qed.

(** X1.  After [Put id blob maxViews expiry] with a positive [maxViews],
    whatever was stored under [id] before, calls of [GetWithReason] that come
    no later than the expiry return the blob exactly [maxViews] times and
    [(nil, ReasonNotFound)] from then on; the entry counts down and is removed
    by the last view. *)
Theorem Put_is_served_maxViews_times (id : string) (blob : bytes)
    (maxViews : Z) (expiry : Time) (s : Store) (times : list Time) :
  1 <= maxViews <= GoInt.max_int ->
  Forall (fun now => now <= expiry) times ->
  gets times id (Put id blob maxViews expiry s) =
    (if decide (Z.of_nat (length times) < maxViews)
     then <[id := {| Blob := blob;
                     ViewsRemaining := maxViews - Z.of_nat (length times);
                     Expiry := expiry; MaxViews := maxViews |}]> s
     else delete id s,
     replicate (length times `min` Z.to_nat maxViews) (blob, ReasonNotFound) ++
     replicate (length times - Z.to_nat maxViews) (None, ReasonNotFound)).
Proof.
  intros Hv Hall. unfold Put.
  rewrite (gets_present times id _ _ (Z.to_nat maxViews)
             (lookup_insert_eq _ _ _)); cbn; [| lia | lia | done].
  rewrite insert_insert_eq, delete_insert_eq.
  unfold Time in *. repeat case_decide; try lia; [| done].
  unfold with_views; cbn. do 3 f_equal. lia.
Qed.

Lemma Put_is_served_maxViews_times_witness :
  (gets [5; 6; 7] "k1" (Put "k1" sample_blob 2 10 sample_store)).2 =
    [(sample_blob, ReasonNotFound); (sample_blob, ReasonNotFound);
     (None, ReasonNotFound)].
Proof.
  rewrite (Put_is_served_maxViews_times "k1" sample_blob 2 10 sample_store
             [5; 6; 7]).
  - reflexivity.
  - unfold GoInt.max_int. lia.
  - repeat (first [apply List.Forall_nil | apply List.Forall_cons; [lia |]]).
Defined.

(** X2.  A sweep keeps an entry, untouched, exactly when the clock is not
    after its expiry; two sweeps in a row, in either order, leave what one
    sweep at the later of the two clock readings leaves. *)
Theorem expireOld_compose (now1 now2 : Time) (s : Store) :
  (forall id sec,
     expireOld now1 s !! id = Some sec <->
     s !! id = Some sec /\ now1 <= Expiry sec) /\
  expireOld now2 (expireOld now1 s) = expireOld (Z.max now1 now2) s.
Proof.
  split.
  - intros id sec. rewrite expireOld_lookup.
    destruct (s !! id) as [sec0 |]; [| by split; [| intros [? _]]].
    destruct (After now1 (Expiry sec0)) eqn:E.
    + apply After_true in E. split; [done |]. intros [Heq ?]. simplify_eq. lia.
    + apply After_false in E. split; [by intros [= ->] | by intros [? _]].
  - apply map_eq. intros id. rewrite !expireOld_lookup.
    destruct (s !! id) as [sec |]; [| done].
    destruct (After now1 (Expiry sec)) eqn:E1,
             (After now2 (Expiry sec)) eqn:E2,
             (After (Z.max now1 now2) (Expiry sec)) eqn:E3; try done;
      rewrite ?After_true, ?After_false in *; lia.
Qed.

Lemma expireOld_delete now id (s : Store) :
  expireOld now (delete id s) = delete id (expireOld now s).
Proof.
  apply map_eq. intros k. rewrite expireOld_lookup.
  destruct (decide (k = id)) as [-> | Hne].
  - by rewrite !lookup_delete_eq.
  - rewrite !lookup_delete_ne by done. by rewrite expireOld_lookup.
Qed.

Lemma expireOld_insert now id sec (s : Store) :
  now <= Expiry sec ->
  expireOld now (<[id := sec]> s) = <[id := sec]> (expireOld now s).
Proof.
  intros Hle. apply After_false in Hle.
  apply map_eq. intros k. rewrite expireOld_lookup.
  destruct (decide (k = id)) as [-> | Hne].
  - rewrite !lookup_insert_eq. by rewrite Hle.
  - rewrite !lookup_insert_ne by done. by rewrite expireOld_lookup.
Qed.

Lemma expireOld_gone now id (s : Store) sec :
  s !! id = Some sec -> Expiry sec < now ->
  delete id (expireOld now s) = expireOld now s.
Proof.
  intros Hs Hlt. apply delete_id. rewrite expireOld_lookup, Hs.
  apply After_true in Hlt. by rewrite Hlt.
Qed.

(** X3.  A sweep cannot be told from the outside except by the reason code:
    a [GetWithReason] that comes after a sweep returns the blob it would have
    returned without the sweep and leaves the store the sweep would have left
    had it come second; only an entry the sweep removed is reported as
    [ReasonNotFound] where the call alone would have said [ReasonExpired]. *)
Theorem sweep_then_get (now now' : Time) (id : string) (s : Store) :
  now <= now' ->
  (GetWithReason now' id (expireOld now s)).1 =
    expireOld now (GetWithReason now' id s).1 /\
  (GetWithReason now' id (expireOld now s)).2.1 =
    (GetWithReason now' id s).2.1 /\
  (GetWithReason now' id (expireOld now s)).2.2 =
    match s !! id with
    | Some sec =>
        if After now (Expiry sec) then ReasonNotFound
        else (GetWithReason now' id s).2.2
    | None => (GetWithReason now' id s).2.2
    end.
Proof.
  intros Hle. destruct (s !! id) as [sec |] eqn:Hs.
  - destruct (After now (Expiry sec)) eqn:E.
    + apply After_true in E.
      rewrite (GetWithReason_absent now' id (expireOld now s))
        by (rewrite expireOld_lookup, Hs; apply After_true in E; by rewrite E).
      rewrite (GetWithReason_expired now' id s sec Hs) by lia. cbn.
      rewrite expireOld_delete, (expireOld_gone now id s sec) by done. done.
    + apply After_false in E.
      assert (expireOld now s !! id = Some sec) as Hs'
        by (rewrite expireOld_lookup, Hs; apply After_false in E; by rewrite E).
      unfold GetWithReason. rewrite Hs, Hs'.
      destruct (After now' (Expiry sec)); cbn; [by rewrite expireOld_delete |].
      destruct (ViewsRemaining sec <=? 0); cbn;
        [by rewrite expireOld_delete |].
      destruct (_ <=? 0); cbn.
      * by rewrite expireOld_delete, expireOld_insert.
      * by rewrite expireOld_insert.
  - rewrite (GetWithReason_absent now' id (expireOld now s))
      by (by rewrite expireOld_lookup, Hs).
    by rewrite (GetWithReason_absent now' id s Hs).
Qed.

Lemma sweep_then_get_witness :
  (GetWithReason 150 "k1" (expireOld 120 (Put "k1" sample_blob 2 100 ∅))).2.2 =
    ReasonNotFound /\
  (GetWithReason 150 "k1" (Put "k1" sample_blob 2 100 ∅)).2.2 = ReasonExpired.
Proof.
  split; [| reflexivity].
  rewrite (proj2 (proj2 (sweep_then_get 120 150 "k1"
                           (Put "k1" sample_blob 2 100 ∅) ltac:(lia)))).
  reflexivity.
Defined.

Lemma gets_never_served times id (s : Store) :
  (forall sec, s !! id = Some sec -> ViewsRemaining sec <= 0) ->
  Forall (fun r => r.1 = None) (gets times id s).2 /\
  (gets times id s).1 = match times with [] => s | _ => delete id s end.
Proof.
  intros Hv. destruct times as [| now times]; [by split; [apply List.Forall_nil |] |].
  cbn [gets].
  assert (exists r, GetWithReason now id s = (delete id s, (None, r))) as [r ->].
  { unfold GetWithReason. destruct (s !! id) as [sec |] eqn:Hs.
    - destruct (After now (Expiry sec)); [by eexists |].
      specialize (Hv sec eq_refl). apply Z.leb_le in Hv. rewrite Hv. by eexists.
    - rewrite delete_id by done. by eexists. }
  rewrite gets_absent by apply lookup_delete_eq. cbn. split; [| done].
  apply List.Forall_cons; [done |].
  apply Forall_forall. intros x Hx. apply elem_of_replicate in Hx as [-> _]. done.
Qed.

(** X4.  An entry stored with a [maxViews] that is zero or negative is never
    served: every [GetWithReason] on it returns a nil blob, and the first one
    removes it. *)
Theorem Put_without_views_is_never_served (id : string) (blob : bytes)
    (maxViews : Z) (expiry : Time) (s : Store) (times : list Time) :
  maxViews <= 0 ->
  Forall (fun r => r.1 = None)
         (gets times id (Put id blob maxViews expiry s)).2 /\
  (gets times id (Put id blob maxViews expiry s)).1 =
    match times with
    | [] => Put id blob maxViews expiry s
    | _ => delete id s
    end.
Proof.
  intros Hv.
  destruct (gets_never_served times id (Put id blob maxViews expiry s))
    as [Hall Hs].
  { intros sec. unfold Put. rewrite lookup_insert_eq. by intros [= <-]. }
  split; [done |]. rewrite Hs. destruct times; [done |].
  unfold Put. by rewrite delete_insert_eq.
Qed.

Lemma Put_without_views_is_never_served_witness :
  Forall (fun r => r.1 = None)
         (gets [5; 6] "k1" (Put "k1" sample_blob 0 10 sample_store)).2 /\
  (gets [5; 6] "k1" (Put "k1" sample_blob 0 10 sample_store)).1 =
    delete "k1" sample_store.
Proof.
  apply (Put_without_views_is_never_served "k1" sample_blob 0 10 sample_store
           [5; 6]).
  lia.
Defined.

Lemma exec_passes_by now o id sec (s : Store) :
  passes_by id sec (now, o) -> s !! id = Some sec ->
  exec now o s !! id = Some sec.
Proof.
  unfold passes_by. intros Hp Hs.
  destruct o as [id0 blob mv ex | id0 | id0 |]; cbn in *.
  - unfold Put. by rewrite lookup_insert_ne.
  - by rewrite GetWithReason_lookup_ne.
  - by rewrite lookup_delete_ne.
  - rewrite expireOld_lookup, Hs. apply After_false in Hp. by rewrite Hp.
Qed.

(** X5.  Calls on other identifiers never touch an entry: through any trace
    whose calls all name other identifiers, and whose sweeps all run at a
    clock reading that is not after the entry's expiry, the entry stays
    exactly as it was, counter included. *)
Theorem other_calls_leave_entry_alone (tr : list (Time * Op)) (id : string)
    (sec : storedSecret) (s : Store) :
  Forall (passes_by id sec) tr ->
  s !! id = Some sec ->
  run tr s !! id = Some sec.
Proof.
  revert s. induction tr as [| [now o] tr IH]; intros s Hall Hs; cbn; [done |].
  inversion Hall as [| ? ? Hp Hall']; subst.
  apply IH; [done |]. by apply exec_passes_by.
Qed.

Lemma other_calls_leave_entry_alone_witness :
  run [(5, OpGet "k2"); (6, OpSweep); (7, OpDelete "k3");
       (8, OpPut "k4" None 1 9)]
      (Put "k1" sample_blob 2 10 ∅) !! "k1" =
    Some {| Blob := sample_blob; ViewsRemaining := 2;
            Expiry := 10; MaxViews := 2 |}.
Proof.
  apply other_calls_leave_entry_alone.
  - repeat (first [apply List.Forall_nil
                  | apply List.Forall_cons; [cbv; first [discriminate | congruence] |]]).
  - reflexivity.
Defined.

Lemma exec_size now o (s : Store) :
  (size (exec now o s) <= size s + (if is_put o then 1 else 0))%nat.
Proof.
  destruct o as [id blob mv ex | id | id |]; cbn.
  - unfold Put. destruct (s !! id) eqn:E.
    + rewrite map_size_insert_Some by done. lia.
    + rewrite map_size_insert_None by done. lia.
  - rewrite Nat.add_0_r. unfold GetWithReason.
    destruct (s !! id) as [sec |] eqn:E; cbn; [| done].
    assert (size (delete id s) <= size s)%nat as Hd
      by apply map_subseteq_size, delete_subseteq.
    destruct (After now (Expiry sec)); cbn; [done |].
    destruct (ViewsRemaining sec <=? 0); cbn; [done |].
    destruct (_ <=? 0); cbn.
    + by rewrite delete_insert_eq.
    + rewrite map_size_insert_Some by done. lia.
  - rewrite Nat.add_0_r. apply map_subseteq_size, delete_subseteq.
  - rewrite Nat.add_0_r. apply map_subseteq_size, map_filter_subseteq.
Qed.

(** X6.  Only [Put] makes the map grow, and by at most one entry a call:
    after any trace the store holds no more entries than it held before plus
    the number of [Put] calls in the trace. *)
Theorem store_grows_only_by_Put (tr : list (Time * Op)) (s : Store) :
  (size (run tr s) <=
   size s + length (filter (fun e : Time * Op => is_put e.2 = true) tr))%nat.
Proof.
  revert s. induction tr as [| [now o] tr IH]; intros s; cbn [run]; [cbn; lia |].
  specialize (IH (exec now o s)). pose proof (exec_size now o s) as Hs.
  rewrite filter_cons. cbn [snd].
  destruct (is_put o); [rewrite decide_True by done | rewrite decide_False by done];
    cbn [length]; lia.
Qed.

(** ** The handlers *)

Lemma getDrop_unfold now id (s : Store) :
  getDrop now id s =
    ((GetWithReason now id s).1,
     written (GetWithReason now id s).2.1 (GetWithReason now id s).2.2).
Proof. unfold getDrop. by destruct (GetWithReason now id s) as [s' [b r]]. Qed.

Lemma getDrops_gets times id (s : Store) :
  getDrops times id s =
    ((gets times id s).1,
     (fun r : bytes * NotFoundReason => written r.1 r.2)
       <$> (gets times id s).2).
Proof.
  revert s. induction times as [| now times IH]; intros s; cbn; [done |].
  rewrite getDrop_unfold.
  destruct (GetWithReason now id s) as [s' [b r]]. cbn. rewrite IH.
  by destruct (gets times id s') as [s'' rs].
Qed.

Lemma admissible_accepted now req :
  admissible now req -> validateRequest now req = (0, "").
Proof.
  intros Hadm.
  pose proof (Hadm CiphertextRequired) as H1.
  pose proof (Hadm SaltRequired) as H2.
  pose proof (Hadm IVRequired) as H3.
  pose proof (Hadm CiphertextSize) as H4.
  pose proof (Hadm SaltSize) as H5.
  pose proof (Hadm IVSize) as H6.
  pose proof (Hadm ExpiryInFuture) as H7.
  pose proof (Hadm TTLFloor) as H8.
  pose proof (Hadm TTLCeiling) as H9.
  pose proof (Hadm MaxViewsFloor) as H10.
  pose proof (Hadm MaxViewsCeiling) as H11.
  cbn in *. unfold validateRequest.
  destruct (String.eqb_spec (request.Ciphertext req) ""); [done |].
  destruct (String.eqb_spec (request.Salt req) ""); [done |].
  destruct (String.eqb_spec (request.IV req) ""); [done |].
  destruct (Z.ltb_spec MaxCiphertextLen (len (request.Ciphertext req)));
    [lia |].
  destruct (Z.ltb_spec MaxSaltLen (len (request.Salt req))); [lia |].
  destruct (Z.ltb_spec MaxIVLen (len (request.IV req))); [lia |].
  cbv zeta.
  destruct (Z.leb_spec (request.Expiry req) (Unix now)); [lia |].
  unfold GoInt.sub. rewrite wrap_id
    by (unfold GoInt.in_range, GoInt.min_int, GoInt.max_int; lia).
  unfold MinExpirySeconds, MaxExpirySeconds, MinMaxViews, MaxMaxViews.
  destruct (Z.ltb_spec (request.Expiry req - Unix now) 60); [lia |].
  destruct (Z.ltb_spec (24 * 60 * 60) (request.Expiry req - Unix now));
    [lia |].
  destruct (Z.ltb_spec (request.MaxViews req) 1); [lia |].
  destruct (Z.ltb_spec 100 (request.MaxViews req)); [lia |]. done.
Qed.

Lemma postDrop_accepted baseURL now id raw req (s : Store) :
  admissible now req ->
  postDrop baseURL now id raw req s =
    (Put id (Some raw) (request.MaxViews req)
       (time_Unix (request.Expiry req)) s,
     writeCreated 201 id (baseURL +:+ "/v1/drop/" +:+ id)).
Proof.
  intros Hadm. rewrite postDrop_unfold, (admissible_accepted now req Hadm).
  by rewrite decide_True.
Qed.

(** X7.  The life of a secret over the API: once [POST /v1/drop] has accepted
    a request, [GET] requests for the identifier that come no later than the
    expiry are answered 200 with the very bytes that were posted, exactly
    [max_views] times, and 404 from then on. *)
Theorem created_secret_is_served_max_views_times (baseURL : string)
    (now : Time) (id : string) (raw : list Byte.byte) (req : dropCreateRequest)
    (s : Store) (times : list Time) :
  admissible now req ->
  Forall (fun t => t <= time_Unix (request.Expiry req)) times ->
  (postDrop baseURL now id raw req s).2 =
    writeCreated 201 id (baseURL +:+ "/v1/drop/" +:+ id) /\
  (getDrops times id (postDrop baseURL now id raw req s).1).2 =
    replicate (length times `min` Z.to_nat (request.MaxViews req))
      (wroteBlob 200 raw) ++
    replicate (length times - Z.to_nat (request.MaxViews req))
      (wroteError 404
         "🔥 Secret not found - it may have been burned or never existed").
Proof.
  intros Hadm Hall. rewrite (postDrop_accepted _ _ _ _ _ _ Hadm).
  split; [done |]. cbn [fst]. rewrite getDrops_gets. cbn [snd].
  pose proof (Hadm MaxViewsFloor) as Hlo.
  pose proof (Hadm MaxViewsCeiling) as Hhi. cbn in Hlo, Hhi.
  unfold Put.
  rewrite (gets_present times id _ _ (Z.to_nat (request.MaxViews req))
             (lookup_insert_eq _ _ _));
    [| cbn; lia | unfold GoInt.max_int; lia | done].
  cbn [snd Blob]. by rewrite fmap_app, !fmap_replicate.
Qed.

Lemma created_secret_is_served_max_views_times_witness :
  (getDrops [sample_now + 1; sample_now + 2; sample_now + 3; sample_now + 4]
     "00ff"
     (postDrop "http://localhost:8080" sample_now "00ff" [Byte.x7b; Byte.x7d]
        sample_request ∅).1).2 =
    [wroteBlob 200 [Byte.x7b; Byte.x7d]; wroteBlob 200 [Byte.x7b; Byte.x7d];
     wroteBlob 200 [Byte.x7b; Byte.x7d];
     wroteError 404
       "🔥 Secret not found - it may have been burned or never existed"].
Proof.
  rewrite (proj2 (created_secret_is_served_max_views_times
                    "http://localhost:8080" sample_now "00ff"
                    [Byte.x7b; Byte.x7d] sample_request ∅
                    [sample_now + 1; sample_now + 2; sample_now + 3;
                     sample_now + 4]
                    sample_request_admissible
                    ltac:(repeat (first [apply List.Forall_nil
                                        | apply List.Forall_cons;
                                          [vm_compute; discriminate |]])))).
  reflexivity.
Defined.

(** X8.  Revoking over the API: [DELETE] answers 200 "revoked" exactly when
    the identifier was stored and 404 otherwise; after it, whatever the
    clock reading, a [GET] is answered 404 (never 410) and a second [DELETE]
    404, and neither changes the store. *)
Theorem revoke_then_not_found (now : Time) (id : string) (s : Store) :
  deleteDrop id s =
    (delete id s,
     match s !! id with
     | Some _ => wroteJSON 200 [("status", "revoked")]
     | None => wroteError 404 "not found"
     end) /\
  getDrop now id (deleteDrop id s).1 =
    (delete id s,
     wroteError 404
       "🔥 Secret not found - it may have been burned or never existed") /\
  deleteDrop id (deleteDrop id s).1 =
    (delete id s, wroteError 404 "not found").
Proof.
  assert (Hd : deleteDrop id s =
                 (delete id s,
                  match s !! id with
                  | Some _ => wroteJSON 200 [("status", "revoked")]
                  | None => wroteError 404 "not found"
                  end)).
  { unfold deleteDrop, Delete. by destruct (s !! id). }
  rewrite Hd. cbn [fst]. split; [done |]. split.
  - rewrite getDrop_unfold, GetWithReason_absent by apply lookup_delete_eq.
    done.
  - unfold deleteDrop. rewrite Delete_absent by apply lookup_delete_eq. done.
Qed.

Lemma nanos_floor now :
  Unix now * nanos_per_second <= now < (Unix now + 1) * nanos_per_second.
Proof.
  unfold Unix, nanos_per_second.
  pose proof (Z.div_mod now 1000000000 ltac:(lia)).
  pose proof (Z.mod_pos_bound now 1000000000 ltac:(lia)). lia.
Qed.

(** X9.  The lifetime of an accepted secret.  Its expiry instant lies more
    than 59 seconds and at most 24 hours after the clock reading [now] at
    which it was accepted.  A first [GET] at any clock reading up to and
    including the expiry instant is answered with the blob: so at any reading
    up to [now] plus 59 seconds.  At any clock reading strictly after the
    expiry instant the entry is expired, a [GET] is answered 410 and removes
    it, and a sweep removes it: so at any reading strictly later than [now]
    plus 24 hours (at [now] plus 24 hours itself the entry is still served
    when its expiry falls on that instant). *)
Theorem accepted_secret_lifetime (baseURL : string) (now : Time) (id : string)
    (raw : list Byte.byte) (req : dropCreateRequest) (s : Store) :
  admissible now req ->
  (now + 59 * nanos_per_second < time_Unix (request.Expiry req) /\
   time_Unix (request.Expiry req)
     <= now + 24 * 60 * 60 * nanos_per_second) /\
  (forall t, t <= time_Unix (request.Expiry req) ->
     (getDrop t id (postDrop baseURL now id raw req s).1).2 =
       wroteBlob 200 raw) /\
  (forall t, time_Unix (request.Expiry req) < t ->
     getDrop t id (postDrop baseURL now id raw req s).1 =
       (delete id s,
        wroteError 410 "🔥 Secret expired and was automatically burned") /\
     expireOld t (postDrop baseURL now id raw req s).1 !! id = None).
Proof.
  intros Hadm. rewrite (postDrop_accepted _ _ _ _ _ _ Hadm). cbn [fst].
  pose proof (Hadm TTLFloor) as Hlo. pose proof (Hadm TTLCeiling) as Hhi.
  pose proof (Hadm MaxViewsFloor) as Hv1.
  pose proof (Hadm MaxViewsCeiling) as Hv2.
  cbn in Hlo, Hhi, Hv1, Hv2. pose proof (nanos_floor now) as Hfl.
  unfold Put. split; [| split].
  - unfold time_Unix, nanos_per_second in *. lia.
  - intros t Ht. rewrite getDrop_unfold.
    rewrite (GetWithReason_served t id _ _ (lookup_insert_eq _ _ _));
      cbn [Expiry ViewsRemaining Blob];
      [done | done | unfold GoInt.max_int; lia].
  - intros t Ht. split.
    + rewrite getDrop_unfold.
      rewrite (GetWithReason_expired t id _ _ (lookup_insert_eq _ _ _));
        cbn [Expiry]; [| done].
      cbn. by rewrite delete_insert_eq.
    + rewrite expireOld_lookup, lookup_insert_eq. cbn [Expiry].
      replace (After t (time_Unix (request.Expiry req))) with true; [done |].
      symmetry. by apply After_true.
Qed.

Lemma accepted_secret_lifetime_witness :
  (getDrop (time_Unix 1700000600) "00ff"
     (postDrop "http://localhost:8080" sample_now "00ff" [Byte.x7b; Byte.x7d]
        sample_request ∅).1).2 = wroteBlob 200 [Byte.x7b; Byte.x7d] /\
  getDrop (time_Unix 1700000600 + 1) "00ff"
     (postDrop "http://localhost:8080" sample_now "00ff" [Byte.x7b; Byte.x7d]
        sample_request ∅).1 =
    (delete "00ff" ∅,
     wroteError 410 "🔥 Secret expired and was automatically burned").
Proof.
  pose proof (accepted_secret_lifetime "http://localhost:8080" sample_now
                "00ff" [Byte.x7b; Byte.x7d] sample_request ∅
                sample_request_admissible) as (_ & Hserved & Hexpired).
  split.
  - apply Hserved. vm_compute. discriminate.
  - apply (Hexpired (time_Unix 1700000600 + 1)). vm_compute. reflexivity.
Defined.

(** X10.  The status of a [GET]: 200, with the stored bytes as the body,
    exactly when the identifier is stored with a blob that is not nil, a
    positive counter and an expiry the clock is not after; 410 exactly when
    it is stored and either the clock is after its expiry or its counter is
    not positive; 404 in every other case. *)
Theorem getDrop_status (now : Time) (id : string) (s : Store) :
  (forall b,
     (getDrop now id s).2 = wroteBlob 200 b <->
     exists sec, s !! id = Some sec /\ Blob sec = Some b /\
       now <= Expiry sec /\ 0 < ViewsRemaining sec) /\
  (status_of (getDrop now id s).2 = 410 <->
     exists sec, s !! id = Some sec /\
       (Expiry sec < now \/ ViewsRemaining sec <= 0)) /\
  (status_of (getDrop now id s).2 = 200 \/
   status_of (getDrop now id s).2 = 410 \/
   status_of (getDrop now id s).2 = 404).
Proof.
  rewrite getDrop_unfold. cbn [snd]. unfold GetWithReason.
  destruct (s !! id) as [sec |] eqn:Hs; cbn.
  - destruct (After now (Expiry sec)) eqn:E; cbn.
    { apply After_true in E. split; [| split; [| auto]].
      - intros b. split; [done |]. intros (sec' & [= <-] & _ & ? & _). lia.
      - split; [| done]. intros _. exists sec. auto. }
    apply After_false in E.
    destruct (Z.leb_spec (ViewsRemaining sec) 0) as [Hv | Hv]; cbn.
    { split; [| split; [| auto]].
      - intros b. split; [done |]. intros (sec' & [= <-] & _ & _ & ?). lia.
      - split; [| done]. intros _. exists sec. auto. }
    assert (Hb : forall (s1 s2 : Store),
              (if ViewsRemaining (decrement sec) <=? 0
               then (s1, (Blob sec, ReasonNotFound))
               else (s2, (Blob sec, ReasonNotFound))).2
              = (Blob sec, ReasonNotFound))
      by (intros; by destruct (_ <=? 0)).
    rewrite !Hb. cbn. split; [| split].
    + intros b. split.
      * intros Hw. exists sec. destruct (Blob sec) as [b' |]; [| done].
        injection Hw as <-. auto.
      * intros (sec' & [= <-] & -> & _). done.
    + split; [by destruct (Blob sec) |].
      intros (sec' & [= <-] & [? | ?]); lia.
    + destruct (Blob sec); auto.
  - split; [| split; [| auto]].
    + intros b. split; [done |]. by intros (sec & ? & _).
    + split; [done |]. by intros (sec & ? & _).
Qed.

Lemma violatesb_spec now req r :
  violatesb now req r = true <-> violates now req r.
Proof.
  unfold MaxCiphertextLen, MaxSaltLen, MaxIVLen.
  destruct r; cbn;
    rewrite ?String.eqb_eq, ?Z.ltb_lt, ?Z.leb_le;
    unfold MaxCiphertextLen, MaxSaltLen, MaxIVLen; first [done | lia].
Qed.

(** X11.  [validateRequest] tests the rules in a fixed order (required
    fields, sizes, expiry in the future, TTL floor and ceiling, max_views
    floor and ceiling) and answers with the pair of the first one the
    request breaks, however many it breaks; it returns status 0 when there is
    none.  (Clock not before the epoch, expiry in the [int64] range.) *)
Theorem validateRequest_first_violated (now : Time) (req : dropCreateRequest) :
  0 <= Unix now -> GoInt.in_range (Unix now) ->
  GoInt.in_range (request.Expiry req) ->
  validateRequest now req =
    match first_violated now req with
    | Some r => rule_response r
    | None => (0, "")
    end.
Proof.
  intros H0 Hnow Hexp. unfold validateRequest, first_violated, rules.
  cbn [List.find violatesb].
  destruct (String.eqb (request.Ciphertext req) ""); [reflexivity |].
  destruct (String.eqb (request.Salt req) ""); [reflexivity |].
  destruct (String.eqb (request.IV req) ""); [reflexivity |].
  destruct (MaxCiphertextLen <? len (request.Ciphertext req)); [reflexivity |].
  destruct (MaxSaltLen <? len (request.Salt req)); [reflexivity |].
  destruct (MaxIVLen <? len (request.IV req)); [reflexivity |].
  cbv zeta.
  destruct (Z.leb_spec (request.Expiry req) (Unix now)) as [Lf | Lf];
    [reflexivity |].
  assert (GoInt.sub (request.Expiry req) (Unix now)
            = request.Expiry req - Unix now) as ->.
  { unfold GoInt.sub. apply wrap_id.
    unfold GoInt.in_range, GoInt.min_int, GoInt.max_int in *. lia. }
  unfold MinExpirySeconds, MaxExpirySeconds, MinMaxViews, MaxMaxViews.
  destruct (request.Expiry req - Unix now <? 60); [reflexivity |].
  destruct (24 * 60 * 60 <? request.Expiry req - Unix now); [reflexivity |].
  destruct (request.MaxViews req <? 1); [reflexivity |].
  destruct (100 <? request.MaxViews req); reflexivity.
Qed.

Lemma validateRequest_first_violated_witness :
  validateRequest sample_now
    {| request.Ciphertext := request.Ciphertext sample_request;
       request.Salt := "";
       request.IV := request.IV sample_request;
       request.KDF := request.KDF sample_request;
       request.Expiry := 5;
       request.MaxViews := 0 |}
  = (400, "missing required field: salt").
Proof.
  rewrite validateRequest_first_violated.
  - reflexivity.
  - vm_compute; discriminate.
  - vm_compute; split; discriminate.
  - vm_compute; split; discriminate.
Defined.

(** ** Concurrent runs, in general *)

Lemma call_budget i now o id (s : Store) :
  ~ is_put_on id o -> views_left id s <= GoInt.max_int ->
  (if served id (i, now, o, (call now o s).2) then 1 else 0)
    + views_left id (call now o s).1 <= views_left id s.
Proof.
  intros Hnp Hmax. unfold views_left in *.
  destruct o as [id0 blob mv ex | id0 | id0 |]; cbn -[Z.max].
  - cbn in Hnp. unfold Put. rewrite lookup_insert_ne by done. lia.
  - destruct (decide (id0 = id)) as [-> | Hne].
    + destruct (s !! id) as [sec |] eqn:Hs.
      * unfold GetWithReason. rewrite Hs.
        destruct (After now (Expiry sec)); cbn -[Z.max];
          [rewrite lookup_delete_eq; lia |].
        destruct (Z.leb_spec (ViewsRemaining sec) 0) as [Hv | Hv];
          cbn -[Z.max]; [rewrite lookup_delete_eq; lia |].
        unfold decrement; cbn [ViewsRemaining].
        rewrite dec_pos by lia.
        destruct (Z.leb_spec (ViewsRemaining sec - 1) 0); cbn -[Z.max].
        -- rewrite lookup_delete_eq.
           destruct (Blob sec); cbn -[Z.max];
             rewrite ?bool_decide_true by done; lia.
        -- rewrite lookup_insert_eq. cbn -[Z.max].
           destruct (Blob sec); cbn -[Z.max];
             rewrite ?bool_decide_true by done; lia.
      * rewrite (GetWithReason_absent now id s Hs). cbn. rewrite Hs. lia.
    + pose proof (GetWithReason_lookup_ne now id0 id s ltac:(done)) as Hl.
      destruct (GetWithReason now id0 s) as [s' [b r]]. cbn in *.
      rewrite Hl.
      destruct b; [rewrite bool_decide_false by done |]; lia.
  - destruct (decide (id0 = id)) as [-> | Hne].
    + rewrite lookup_delete_eq. destruct (s !! id); lia.
    + rewrite lookup_delete_ne by done. lia.
  - rewrite expireOld_lookup. destruct (s !! id) as [sec |]; [| lia].
    destruct (After now (Expiry sec)); lia.
Qed.

Lemma serial_budget id s0 hist (s : Store) :
  serial s0 hist s ->
  Forall (fun e : nat * Time * Op * Ret => ~ is_put_on id e.1.2) hist ->
  views_left id s0 <= GoInt.max_int ->
  Z.of_nat (length (filter (fun e => served id e = true) hist))
    + views_left id s <= views_left id s0.
Proof.
  induction 1 as [| hist s' i now o Hser IH]; intros Hall Hmax; [cbn; lia |].
  apply Forall_app in Hall as [Hall Hlast].
  rewrite Forall_singleton in Hlast. cbn in Hlast.
  specialize (IH Hall Hmax).
  pose proof (call_budget i now o id s' Hlast ltac:(lia)) as Hc.
  rewrite filter_app, length_app, filter_cons, filter_nil.
  destruct (served id (i, now, o, (call now o s').2));
    [rewrite decide_True by done | rewrite decide_False by done];
    cbn [length]; lia.
Qed.

(** The calls of a history are calls of the goroutines. *)
Lemma hist_ops seen hist (gs : list Goroutine) ops (P : Op -> Prop) :
  hist_ok seen hist gs -> op_of <$> gs = ops -> Forall P ops ->
  Forall (fun e : nat * Time * Op * Ret => P e.1.2) hist.
Proof.
  intros (_ & Hof & _) Hops Hall.
  apply Forall_forall. intros [[[j now] o] r] He. cbn.
  destruct (Hof j now o r He) as (_ & g & Hg & Ho).
  pose proof (goroutine_op _ _ _ _ Hops Hg) as Hj.
  rewrite (outcome_op _ _ _ Ho) in Hj.
  exact (proj1 (Forall_lookup _ _) Hall j o Hj).
Qed.

(** X12.  The view limit holds under concurrency: fire any calls, none of
    them a [Put] on [id], at a store that nobody holds, and let the
    goroutines interleave in any way with any clock readings; at every point
    of the run the callers that have got a blob for [id] are no more than the
    views the entry had at the start less the views it still has. *)
Theorem concurrent_views_are_bounded (id : string) (h : list storedSecret)
    (m : gmap string nat) (ops : list Op) (sched : list (nat * Time))
    (w : World) (winners : list nat) :
  well_formed h m ->
  views_left id (view_of h m) <= GoInt.max_int ->
  Forall (no_put_on id) ops ->
  run_schedule sched (start h m ops) = Some w ->
  NoDup winners ->
  (forall j, j ∈ winners ->
     exists g, goroutines w !! j = Some g /\ succeeded id g) ->
  Z.of_nat (length winners) + views_left id (view w)
    <= views_left id (view_of h m).
Proof.
  intros Hwf Hmax Hput Hrun Hnd Hwin.
  destruct (runs_are_serial h m ops sched w Hwf Hrun) as (hist & Hser & Hok).
  pose proof (run_schedule_ops _ _ _ Hrun) as Hops. rewrite ops_start in Hops.
  pose proof (hist_ops _ _ _ _ _ Hok Hops Hput) as Hall.
  pose proof (serial_budget id _ _ _ Hser Hall Hmax) as Hb.
  assert (Hsub : winners ⊆+
            (fun e : nat * Time * Op * Ret => e.1.1.1)
              <$> filter (fun e => served id e = true) hist).
  { apply NoDup_submseteq; [done |]. intros j Hj.
    destruct (Hwin j Hj) as (g & Hg & b & r & Hgot).
    assert (Hout : outcome_of g = Some (OpGet id, RetGet (Some b) r))
      by (by destruct (got_Some _ _ _ _ Hgot) as [-> | ->]).
    destruct Hok as (Hin & _).
    destruct (Hin j g _ _ Hg Hout) as [now He].
    apply list_elem_of_fmap. exists (j, now, OpGet id, RetGet (Some b) r).
    split; [done |]. apply list_elem_of_filter. split; [| done].
    cbn. by rewrite bool_decide_true. }
  apply submseteq_length in Hsub. rewrite length_fmap in Hsub. lia.
Qed.

Lemma concurrent_views_are_bounded_witness :
  exists w,
    run_schedule contended_schedule
      (start last_view_heap last_view_map contended_ops) = Some w /\
    goroutines w !! 1%nat
      = Some (Returned (OpGet "k1") (RetGet sample_blob ReasonNotFound)) /\
    Z.of_nat (length [1%nat]) + views_left "k1" (view w) <= 1.
Proof.
  destruct (run_schedule contended_schedule
              (start last_view_heap last_view_map contended_ops))
    as [w |] eqn:Hrun; [| vm_compute in Hrun; discriminate Hrun].
  assert (Hg : goroutines w !! 1%nat
               = Some (Returned (OpGet "k1")
                         (RetGet sample_blob ReasonNotFound))).
  { vm_compute in Hrun. injection Hrun as <-. reflexivity. }
  exists w. split; [reflexivity |]. split; [exact Hg |].
  apply (concurrent_views_are_bounded "k1" last_view_heap last_view_map
           contended_ops contended_schedule w [1%nat] last_view_well_formed).
  - vm_compute. discriminate.
  - unfold contended_ops.
    repeat (first [apply List.Forall_nil
                  | apply List.Forall_cons; [by intros [] |]]).
  - exact Hrun.
  - apply NoDup_singleton.
  - intros j Hj. apply list_elem_of_singleton in Hj as ->.
    eexists. split; [exact Hg |]. by exists [Byte.x7b; Byte.x7d], ReasonNotFound.
Defined.

(** X13.  Linearizability of complete runs: when all the calls have
    returned, whatever the schedule was, there is an order of the calls, each
    call once, in which running them one after the other from the initial
    store, each at a clock reading its goroutine got, leads to the store the
    goroutines have left and returns to each call what its goroutine
    returned. *)
Theorem finished_runs_linearize (h : list storedSecret) (m : gmap string nat)
    (ops : list Op) (sched : list (nat * Time)) (w : World) :
  well_formed h m ->
  run_schedule sched (start h m ops) = Some w ->
  finished w ->
  exists hist,
    serial (view_of h m) hist (view w) /\
    (fun e : nat * Time * Op * Ret => e.1.1.1) <$> hist
      ≡ₚ seq 0 (length ops) /\
    forall j now o r, (j, now, o, r) ∈ hist ->
      ops !! j = Some o /\ goroutines w !! j = Some (Returned o r) /\
      (j, now) ∈ sched.
Proof.
  intros Hwf Hrun Hfin.
  destruct (runs_are_serial h m ops sched w Hwf Hrun)
    as (hist & Hser & Hin & Hof & Hnd).
  pose proof (run_schedule_ops _ _ _ Hrun) as Hops. rewrite ops_start in Hops.
  assert (Hlen : length (goroutines w) = length ops)
    by (by rewrite <- Hops, length_fmap).
  exists hist. split; [exact Hser |]. split.
  - apply NoDup_Permutation; [exact Hnd | apply NoDup_seq |].
    intros j. rewrite elem_of_seq. split.
    + intros He. apply list_elem_of_fmap in He as ([[[j' now] o] r] & -> & He).
      destruct (Hof _ _ _ _ He) as (_ & g & Hg & _). cbn.
      apply lookup_lt_Some in Hg. lia.
    + intros [_ Hj].
      destruct (lookup_lt_is_Some_2 (goroutines w) j ltac:(lia)) as [g Hg].
      destruct (all_returned _ _ _ Hfin Hg) as (o & r & ->).
      destruct (Hin j _ o r Hg eq_refl) as [now He].
      apply list_elem_of_fmap. by exists (j, now, o, r).
  - intros j now o r He. destruct (Hof _ _ _ _ He) as (Hseen & g & Hg & Ho).
    destruct (all_returned _ _ _ Hfin Hg) as (o' & r' & ->).
    injection Ho as -> ->.
    split; [| by split].
    by apply (goroutine_op _ _ _ _ Hops Hg).
Qed.

Lemma finished_runs_linearize_witness :
  exists w hist,
    run_schedule contended_schedule
      (start last_view_heap last_view_map contended_ops) = Some w /\
    serial (view_of last_view_heap last_view_map) hist (view w) /\
    (fun e : nat * Time * Op * Ret => e.1.1.1) <$> hist
      ≡ₚ seq 0 (length contended_ops).
Proof.
  destruct (run_schedule contended_schedule
              (start last_view_heap last_view_map contended_ops))
    as [w |] eqn:Hrun; [| vm_compute in Hrun; discriminate Hrun].
  assert (Hfin : finished w).
  { vm_compute in Hrun. injection Hrun as <-. reflexivity. }
  destruct (finished_runs_linearize last_view_heap last_view_map
              contended_ops contended_schedule w last_view_well_formed
              Hrun Hfin) as (hist & Hser & Hperm & _).
  exists w, hist. split; [reflexivity |]. by split.
Defined.

(** X14.  The lock and the return of the calls, for any store and any calls:
    at every point of every run at most one goroutine is between [Lock] and
    [Unlock], and the lock is taken exactly when one is; while a call has
    not returned some goroutine can take a step, whatever the clock reads;
    and no schedule is longer than four steps per call. *)
Theorem lock_is_exclusive_and_calls_return (h : list storedSecret)
    (m : gmap string nat) (ops : list Op) (sched : list (nat * Time))
    (w : World) :
  well_formed h m ->
  run_schedule sched (start h m ops) = Some w ->
  (forall i j gi gj,
     goroutines w !! i = Some gi -> goroutines w !! j = Some gj ->
     in_section gi = true -> in_section gj = true -> i = j) /\
  (mu w = true <->
   exists j g, goroutines w !! j = Some g /\ in_section g = true) /\
  (~ finished w -> exists i, forall now, is_Some (step i now w)) /\
  (length sched <= 4 * length ops)%nat.
Proof.
  intros Hwf Hrun.
  destruct (run_serial_inv (view_of h m) sched [] _ _ Hrun
              (start_serial_inv h m ops Hwf))
    as (Hlock & Hwf' & Hptr & _).
  split; [| split; [| split]].
  - by destruct Hlock as (_ & _ & Hone).
  - destruct Hlock as (Hfree & Hheld & _). split; [exact Hheld |].
    intros (j & g & Hj & Hs). destruct (mu w) eqn:Hmu; [done |].
    rewrite (Hfree eq_refl j g Hj) in Hs. discriminate.
  - by apply progress.
  - pose proof (run_schedule_length _ _ _ Hrun) as Hlen.
    rewrite work_left_start in Hlen. lia.
Qed.

Lemma lock_is_exclusive_and_calls_return_witness :
  (length contended_schedule <= 4 * length contended_ops)%nat.
Proof.
  destruct (run_schedule contended_schedule
              (start last_view_heap last_view_map contended_ops))
    as [w |] eqn:Hrun; [| vm_compute in Hrun; discriminate Hrun].
  exact (proj2 (proj2 (proj2
           (lock_is_exclusive_and_calls_return last_view_heap last_view_map
              contended_ops contended_schedule w last_view_well_formed
              Hrun)))).
Defined.

Lemma last_view_of_heap :
  view_of last_view_heap last_view_map = last_view_store.
Proof.
  apply map_eq. intros id. rewrite view_of_lookup.
  unfold last_view_map, last_view_store, Put, NewStore.
  destruct (decide (id = "k1")) as [-> | Hne].
  - by rewrite lookup_insert_eq, lookup_singleton_eq.
  - by rewrite lookup_insert_ne, lookup_singleton_ne, lookup_empty.
Qed.

Lemma contended_ops_positive : Forall positive_put contended_ops.
Proof.
  unfold contended_ops.
  repeat (first [apply List.Forall_nil | apply List.Forall_cons; [exact I |]]).
Qed.

Lemma concurrent_never_exhausted_witness :
  exists w,
    run_schedule contended_schedule
      (start last_view_heap last_view_map contended_ops) = Some w /\
    goroutines w !! 0%nat
      = Some (Returned (OpGet "k1") (RetGet None ReasonNotFound)) /\
    ReasonNotFound <> ReasonMaxViews.
Proof.
  destruct (run_schedule contended_schedule
              (start last_view_heap last_view_map contended_ops))
    as [w |] eqn:Hrun; [| vm_compute in Hrun; discriminate Hrun].
  assert (Hg : goroutines w !! 0%nat
               = Some (Returned (OpGet "k1") (RetGet None ReasonNotFound))).
  { vm_compute in Hrun. injection Hrun as <-. reflexivity. }
  exists w. split; [reflexivity |]. split; [exact Hg |].
  apply (concurrent_never_exhausted last_view_heap last_view_map
           contended_ops contended_schedule w 0%nat
           (Returned (OpGet "k1") (RetGet None ReasonNotFound)) "k1" None
           ReasonNotFound last_view_well_formed).
  - rewrite last_view_of_heap. exact last_view_store_reachable.
  - exact contended_ops_positive.
  - exact Hrun.
  - exact Hg.
  - reflexivity.
Defined.

Lemma concurrent_store_reachable_witness :
  exists w,
    run_schedule contended_schedule
      (start last_view_heap last_view_map contended_ops) = Some w /\
    reachable (view w).
Proof.
  destruct (run_schedule contended_schedule
              (start last_view_heap last_view_map contended_ops))
    as [w |] eqn:Hrun; [| vm_compute in Hrun; discriminate Hrun].
  exists w. split; [reflexivity |].
  apply (concurrent_store_reachable last_view_heap last_view_map
           contended_ops contended_schedule w last_view_well_formed).
  - rewrite last_view_of_heap. exact last_view_store_reachable.
  - exact contended_ops_positive.
  - exact Hrun.
Defined.

(** X17.  The cleanup goroutine removes exactly the entries that a tick
    found expired before [Stop]: an entry is there when the loop ends exactly
    when it was there at the start and no tick before the stop had a clock
    reading after its expiry, and it is then unchanged; ticks after the stop
    do nothing. *)
Theorem cleanupLoop_keeps (events : list Event) (s : Store) (id : string)
    (sec : storedSecret) :
  cleanupLoop events s !! id = Some sec <->
  s !! id = Some sec /\ Forall (fun now => now <= Expiry sec) (ticks events).
Proof.
  revert s. induction events as [| [now |] events IH]; intros s; cbn.
  - split; [by intros ?; split; [| apply List.Forall_nil] | by intros [? _]].
  - rewrite IH, expireOld_lookup. split.
    + intros [Hs Hall]. destruct (s !! id) as [sec0 |]; [| done].
      destruct (After now (Expiry sec0)) eqn:E; [done |].
      injection Hs as ->. apply After_false in E.
      split; [done |]. by apply List.Forall_cons.
    + intros [Hs Hall]. inversion Hall as [| ? ? Hnow Hall']; subst.
      rewrite Hs. apply After_false in Hnow. by rewrite Hnow.
  - split; [by intros ?; split; [| apply List.Forall_nil] | by intros [? _]].
Qed.

(** ** Identifiers *)

Lemma hex_digit_value n : (n < 16)%N -> hex.value (hex.digit n) = Some n.
Proof.
  intros Hn. assert (Hc : exists k, (k < 16)%nat /\ n = N.of_nat k).
  { exists (N.to_nat n). split; lia. }
  destruct Hc as (k & Hk & ->).
  do 16 (destruct k as [| k]; [reflexivity |]). lia.
Qed.

Lemma hex_digit_ascii n : (n < 16)%N -> (N_of_ascii (hex.digit n) <? 0x80)%N = true.
Proof.
  intros Hn. assert (Hc : exists k, (k < 16)%nat /\ n = N.of_nat k).
  { exists (N.to_nat n). split; lia. }
  destruct Hc as (k & Hk & ->).
  do 16 (destruct k as [| k]; [reflexivity |]). lia.
Qed.

Lemma byte_to_N_bound b : (Byte.to_N b < 256)%N.
Proof. destruct b; reflexivity. Qed.

Lemma hex_decode_encode b :
  hex.decode (hex.EncodeToString b) = Some b.
Proof.
  induction b as [| b rest IH]; [done |]. cbn [hex.EncodeToString hex.decode].
  pose proof (byte_to_N_bound b) as Hb.
  rewrite !hex_digit_value, IH
    by (first [apply N.mod_lt; lia | apply N.Div0.div_lt_upper_bound; lia]).
  replace (16 * (Byte.to_N b / 16) + Byte.to_N b mod 16)%N with (Byte.to_N b)
    by (rewrite (N.div_mod (Byte.to_N b) 16) at 1; lia).
  by rewrite Byte.of_to_N.
Qed.

Lemma hex_is_ascii b : is_ascii (hex.EncodeToString b) = true.
Proof.
  induction b as [| b rest IH]; [done |]. cbn [hex.EncodeToString is_ascii].
  pose proof (byte_to_N_bound b) as Hb.
  rewrite !hex_digit_ascii, IH
    by (first [apply N.mod_lt; lia | apply N.Div0.div_lt_upper_bound; lia]).
  done.
Qed.

Lemma hex_length b :
  String.length (hex.EncodeToString b) = (2 * length b)%nat.
Proof. induction b as [| b rest IH]; cbn; [done | rewrite IH; lia]. Qed.

(** X18.  The identifiers of the server are 32 lower-case hexadecimal digits
    that spell the 16 bytes drawn: they can be read back, so two draws give
    the same identifier only when they drew the same bytes. *)
Theorem randomID_spells_the_bytes (b b' : list Byte.byte) :
  length b = 16%nat ->
  String.length (randomID b) = 32%nat /\
  hex.decode (randomID b) = Some b /\
  (randomID b = randomID b' -> b = b').
Proof.
  intros Hlen. unfold randomID. rewrite hex_length, hex_decode_encode, Hlen.
  split; [done |]. split; [done |]. intros Heq.
  pose proof (hex_decode_encode b) as H1. rewrite Heq, hex_decode_encode in H1.
  congruence.
Qed.

Lemma randomID_spells_the_bytes_witness :
  randomID (repeat Byte.xff 16) = "ffffffffffffffffffffffffffffffff" /\
  String.length (randomID (repeat Byte.xff 16)) = 32%nat.
Proof.
  split; [reflexivity |].
  apply (randomID_spells_the_bytes (repeat Byte.xff 16) []). reflexivity.
Defined.

(** ** The envelope, end to end *)

Section EnvelopeFacts.

Import crypto.

Context {P : Primitives}.

(** What a call of [Encrypt] that returned a payload went through. *)
Lemma Encrypt_Ok_inv (m : list Byte.byte) (p : string) (rng rng' : Reader)
    (payload : EncryptedPayload) :
  Encrypt m p rng = (Ok payload, rng') ->
  m <> [] /\ p <> "" /\
  exists salt rng1 nonce block gcm,
    io_ReadFull rng saltSize = (Ok salt, rng1) /\
    io_ReadFull rng1 gcmNonceSize = (Ok nonce, rng') /\
    aes_NewCipher (argon2_IDKey (String.list_byte_of_string p) salt
                     argon2Time argon2Memory argon2Threads argon2KeyLen)
      = Ok block /\
    cipher_NewGCM block = Ok gcm /\
    payload =
      {| Ciphertext := base64_EncodeToString (gcm_Seal gcm nonce m);
         Salt := base64_EncodeToString salt;
         IV := base64_EncodeToString nonce;
         KDF := {| Algorithm := "argon2id"; Time := argon2Time;
                   Memory := argon2Memory; Threads := argon2Threads |};
         Expiry := 0; MaxViews := 0 |}.
Proof.
  unfold Encrypt. destruct m as [| b m']; [discriminate |]. cbn [length Nat.eqb].
  destruct (String.eqb_spec p "") as [-> | Hp]; [discriminate |].
  destruct (io_ReadFull rng saltSize) as [[salt | e] rng1] eqn:Hsalt;
    [| discriminate].
  destruct (io_ReadFull rng1 gcmNonceSize) as [[nonce | e] rng2] eqn:Hnonce;
    [| discriminate].
  destruct (aes_NewCipher _) as [block | e] eqn:Hb; [| discriminate].
  destruct (cipher_NewGCM block) as [gcm | e] eqn:Hg; [| discriminate].
  intros [= <- <-]. split; [done |]. split; [done |].
  exists salt, rng1, nonce, block, gcm. done.
Qed.

(** X19.  [Decrypt] returns bytes only when everything checked out: the
    password is not empty, the salt and iv fields decode to 16 and 12 bytes,
    the ciphertext field decodes, and [gcm.Open] under the key derived from
    the password, that salt and the payload's own Argon2 parameters accepted
    the ciphertext and returned those bytes. *)
Theorem Decrypt_returns_what_Open_accepted (payload : option EncryptedPayload)
    (p : string) (m : list Byte.byte) :
  Decrypt payload p = Ok m ->
  p <> "" /\
  exists pl salt nonce ciphertext block gcm,
    payload = Some pl /\
    base64_DecodeString (Salt pl) = Ok salt /\ length salt = saltSize /\
    base64_DecodeString (IV pl) = Ok nonce /\ length nonce = gcmNonceSize /\
    base64_DecodeString (Ciphertext pl) = Ok ciphertext /\
    aes_NewCipher (argon2_IDKey (String.list_byte_of_string p) salt
                     (Time (KDF pl)) (Memory (KDF pl)) (Threads (KDF pl))
                     argon2KeyLen) = Ok block /\
    cipher_NewGCM block = Ok gcm /\
    gcm_Open gcm nonce ciphertext = Ok m.
Proof.
  unfold Decrypt. destruct payload as [pl |]; [| discriminate].
  destruct (String.eqb_spec p "") as [-> | Hp]; [discriminate |].
  destruct (base64_DecodeString (Salt pl)) as [salt | e] eqn:Hds;
    [| discriminate].
  destruct (Nat.eqb_spec (length salt) saltSize) as [Hs | Hs];
    [| discriminate]. cbn [negb].
  destruct (base64_DecodeString (IV pl)) as [nonce | e] eqn:Hdn;
    [| discriminate].
  destruct (Nat.eqb_spec (length nonce) gcmNonceSize) as [Hn | Hn];
    [| discriminate]. cbn [negb].
  destruct (base64_DecodeString (Ciphertext pl)) as [ct | e] eqn:Hdc;
    [| discriminate].
  destruct (aes_NewCipher _) as [block | e] eqn:Hb; [| discriminate].
  destruct (cipher_NewGCM block) as [gcm | e] eqn:Hg; [| discriminate].
  destruct (gcm_Open gcm nonce ct) as [m' | e] eqn:Ho; [| discriminate].
  intros [= ->]. split; [done |].
  exists pl, salt, nonce, ct, block, gcm. done.
Qed.

Context {L : PrimitiveLaws P}.

(** X20.  With libraries that keep their promises [Encrypt] fails in four
    ways only: on an empty plaintext and on an empty password, in that order
    and before any random byte is drawn, and when the random source fails to
    deliver the salt or the nonce; it never fails in setting up the cipher. *)
Theorem Encrypt_fails_in_four_ways (m : list Byte.byte) (p : string)
    (rng rng' : Reader) (err : string) :
  Encrypt m p rng = (Err err, rng') ->
  (m = [] /\ err = "plaintext cannot be empty" /\ rng' = rng) \/
  (m <> [] /\ p = "" /\ err = "password cannot be empty" /\ rng' = rng) \/
  (m <> [] /\ p <> "" /\ exists e,
     io_ReadFull rng saltSize = (Err e, rng') /\
     err = "failed to generate salt: " +:+ e) \/
  (m <> [] /\ p <> "" /\ exists salt rng1 e,
     io_ReadFull rng saltSize = (Ok salt, rng1) /\
     io_ReadFull rng1 gcmNonceSize = (Err e, rng') /\
     err = "failed to generate IV: " +:+ e).
Proof.
  unfold Encrypt. destruct m as [| b m']; cbn [length Nat.eqb].
  { intros [= <- <-]. by left. }
  destruct (String.eqb_spec p "") as [-> | Hp].
  { intros [= <- <-]. right; left. done. }
  destruct (io_ReadFull rng saltSize) as [[salt | e] rng1] eqn:Hsalt.
  2: { intros [= <- <-]. right; right; left. split; [done |]. split; [done |].
       by exists e. }
  destruct (io_ReadFull rng1 gcmNonceSize) as [[nonce | e] rng2] eqn:Hnonce.
  2: { intros [= <- <-]. right; right; right. split; [done |].
       split; [done |]. by exists salt, rng1, e. }
  destruct (key_accepted (String.list_byte_of_string p) salt
              argon2Time argon2Memory argon2Threads) as (block & gcm & Hb & Hg).
  rewrite Hb, Hg. discriminate.
Qed.

Context {E : EncodingLaws P} {J : JSON} {JL : JSONLaws J}.

Lemma is_ascii_coerced (s : string) : is_ascii s = true -> coerced s = s.
Proof.
  unfold coerced. induction s as [| c rest IH]; [done |].
  cbn [is_ascii]. intros [Hc Hrest]%andb_true_iff.
  cbn [coerce_from rune_size]. rewrite Hc. cbn [Nat.pred]. by rewrite IH.
Qed.

Lemma encoded_not_empty (b : list Byte.byte) :
  b <> [] -> String.eqb (base64_EncodeToString b) "" = false.
Proof. intros Hb. apply String.eqb_neq. by apply base64_not_empty. Qed.

(** X21.  A payload that [Encrypt] returned survives the wire, whatever
    policy the caller fills in: [DeserializePayload] of what
    [SerializePayload] wrote accepts it and gives back the same payload,
    field for field, and [Decrypt] of what came back returns the
    plaintext. *)
Theorem Encrypt_survives_the_wire (m : list Byte.byte) (p : string)
    (rng rng' : Reader) (payload : EncryptedPayload) (expiry maxViews : Z) :
  Encrypt m p rng = (Ok payload, rng') ->
  GoInt.in_range expiry -> GoInt.in_range maxViews ->
  exists data,
    SerializePayload (with_policy payload expiry maxViews) = Ok data /\
    DeserializePayload data = Ok (with_policy payload expiry maxViews) /\
    Decrypt (Some (with_policy payload expiry maxViews)) p = Ok m.
Proof.
  intros Henc Hexp Hviews.
  destruct (Encrypt_Ok_inv _ _ _ _ _ Henc)
    as (Hm & Hp & salt & rng1 & nonce & block & gcm
        & Hsalt & Hnonce & Hb & Hg & ->).
  pose proof (ReadFull_length _ _ _ _ Hsalt) as Hls.
  pose proof (ReadFull_length _ _ _ _ Hnonce) as Hln.
  set (sent := with_policy _ expiry maxViews).
  assert (Hwt : well_typed sent).
  { unfold well_typed, sent; cbn.
    unfold argon2Time, argon2Memory, argon2Threads. repeat split; try lia;
      first [apply Hexp | apply Hviews]. }
  pose proof (through_the_wire_decoded sent Hwt) as Hw.
  unfold sent in Hw at 2 3 4. cbn [with_policy Ciphertext Salt IV] in Hw.
  rewrite !encoded_not_empty in Hw;
    [| intros ->; discriminate Hln | intros ->; discriminate Hls
     | by apply Seal_not_empty].
  cbn [orb] in Hw.
  assert (Hsame : as_decoded sent = sent).
  { unfold as_decoded, sent; cbn.
    rewrite !is_ascii_coerced by first [apply base64_is_ascii | reflexivity].
    done. }
  rewrite Hsame in Hw. unfold through_the_wire in Hw.
  destruct (SerializePayload sent) as [data | e]; [| discriminate].
  exists data. split; [done |]. split; [exact Hw |].
  by eapply (Decrypt_opens m p salt nonce gcm block).
Qed.

End EnvelopeFacts.

Lemma text_primitive_laws : crypto.PrimitiveLaws text_primitives.
Proof.
  split; [cbn .. |].
  - intros r n b r'. unfold standin.ReadFull.
    destruct (Nat.leb_spec n (length r)) as [Hle | Hgt]; [| discriminate].
    intros [= <- <-]. rewrite length_take. lia.
  - intros password salt time memory threads keyLen Hk. unfold standin.IDKey.
    rewrite length_take, !length_app, repeat_length. lia.
  - intros key Hk. unfold standin.NewCipher.
    rewrite decide_True by auto. eauto.
  - intros block. eauto.
  - intros aead nonce plaintext _. unfold standin.Open, standin.Seal.
    rewrite take_app_length, decide_True by done.
    by rewrite drop_app_length.
  - intros b.
    cbv [crypto.base64_DecodeString crypto.base64_EncodeToString
         text_primitives].
    by rewrite hex_decode_encode.
Qed.

Lemma text_encoding_laws : EncodingLaws text_primitives.
Proof.
  split; cbn.
  - apply hex_is_ascii.
  - intros b Hb. by destruct b.
  - intros aead nonce plaintext Hp. unfold standin.Seal.
    intros H. apply app_eq_nil in H as [_ H]. done.
Qed.

Lemma sealed_sample_encrypted :
  crypto.Encrypt (P := text_primitives) [Byte.x68; Byte.x69] "pw"
    (repeat Byte.x2a 28) = (Ok sealed_sample, []).
Proof. vm_compute. reflexivity. Qed.

Lemma Decrypt_returns_what_Open_accepted_witness :
  exists salt,
    crypto.base64_DecodeString (Primitives := text_primitives)
      (crypto.Salt sealed_sample) = Ok salt /\
    length salt = crypto.saltSize.
Proof.
  destruct (Decrypt_returns_what_Open_accepted (P := text_primitives)
              (Some sealed_sample) "pw" [Byte.x68; Byte.x69] eq_refl)
    as (_ & pl & salt & nonce & ct & block & gcm & Hpl & Hs & Hls & _).
  injection Hpl as <-. exists salt. split; [exact Hs | exact Hls].
Defined.

Lemma Encrypt_fails_in_four_ways_witness :
  crypto.Encrypt (P := text_primitives) [Byte.x68; Byte.x69] "pw"
    (repeat Byte.x2a 20)
  = (Err "failed to generate IV: unexpected EOF", repeat Byte.x2a 4) /\
  exists salt rng1 e,
    crypto.io_ReadFull (Primitives := text_primitives) (repeat Byte.x2a 20)
      crypto.saltSize = (Ok salt, rng1) /\
    crypto.io_ReadFull (Primitives := text_primitives) rng1
      crypto.gcmNonceSize = (Err e, repeat Byte.x2a 4) /\
    "failed to generate IV: unexpected EOF" = "failed to generate IV: " +:+ e.
Proof.
  split; [reflexivity |].
  destruct (Encrypt_fails_in_four_ways (P := text_primitives)
              (L := text_primitive_laws) [Byte.x68; Byte.x69] "pw"
              (repeat Byte.x2a 20) (repeat Byte.x2a 4)
              "failed to generate IV: unexpected EOF" eq_refl)
    as [[Hm _] | [(_ & Hp & _) | [(_ & _ & e & Hr & _) | (_ & _ & H)]]].
  - discriminate Hm.
  - discriminate Hp.
  - vm_compute in Hr. discriminate Hr.
  - exact H.
Defined.

Lemma Encrypt_survives_the_wire_witness :
  exists data,
    crypto.SerializePayload (J := standin.json)
      (crypto.with_policy sealed_sample 1700000600 3) = Ok data /\
    crypto.DeserializePayload (J := standin.json) data
      = Ok (crypto.with_policy sealed_sample 1700000600 3) /\
    crypto.Decrypt (P := text_primitives)
      (Some (crypto.with_policy sealed_sample 1700000600 3)) "pw"
      = Ok [Byte.x68; Byte.x69].
Proof.
  apply (Encrypt_survives_the_wire (P := text_primitives)
           (L := text_primitive_laws) (E := text_encoding_laws)
           (J := standin.json) (JL := standin_json_laws)
           [Byte.x68; Byte.x69] "pw" (repeat Byte.x2a 28) []
           sealed_sample 1700000600 3 sealed_sample_encrypted).
  - vm_compute. split; discriminate.
  - vm_compute. split; discriminate.
Defined.

